(** * Brighter-fatter kernel solver and PTC extraction of cp_pipe

    A shallow embedding of
    [python/lsst/cp/pipe/makeBrighterFatterKernel.py] and of [run] of
    [python/lsst/cp/pipe/ptc/cpExtractPtcTask.py], its loop over the flat
    pairs and its per-amplifier body.

    Numbers.  The float64 values of the source are modelled by exact
    rationals [Q], compared with [==]: the statements below are statements of
    real arithmetic.  Where the source can produce a NaN that changes the
    control flow (a comparison with NaN is false), the value is an
    [option Q] with [None] for NaN.  A division of the source whose divisor
    is zero and whose result is afterwards only stored is written with
    [Qdiv] (which yields 0 there); this is noted at each such place, and the
    statements about the stored values assume a divisor that is not zero.
    The one comparison whose outcome depends on the rounding of float64,
    [expId1/1000 == np.array(inputDims)], is modelled with the rounding
    written out ([toFloat64]).

    Arrays.  A 2-D numpy array is a list of rows.  Reads and writes use
    [mget] and [mset]; every index the loops of the source produce lies
    inside the array it is used on, so the out-of-range behaviour of
    [mget]/[mset] (default 0, no change) is never observed on inputs that
    pass the assertions of the source. *)

From Stdlib Require Import QArith Qabs Qround Qpower ZArith List Lia Lqa.
From stdpp Require Import gmap strings list.

(* ================================================================== *)
(** * Part I: the embedding *)
(* ================================================================== *)

(** ** Exceptions and outcomes *)

(** The Python exceptions the modelled code can raise. *)
Inductive exn : Type :=
  | IndexError
  | KeyError (key : string)
  | UnboundLocalError (var : string)
  | AssertionError
  | ZeroDivisionError
  | ValueError.

(** Result of running a piece of the program: it returns a value, raises,
    or the bounded model of a [while] loop ran out of fuel. *)
Inductive outcome (A : Type) : Type :=
  | Return (a : A)
  | Raise (e : exn)
  | OutOfFuel.
Arguments Return {A} a.
Arguments Raise {A} e.
Arguments OutOfFuel {A}.

#[global] Instance outcome_ret : MRet outcome := fun A a => Return a.
#[global] Instance outcome_bind : MBind outcome := fun A B f m =>
  match m with
  | Return a => f a
  | Raise e => Raise e
  | OutOfFuel => OutOfFuel
  end.

(** [d[key]] on a Python dict. *)
Definition dictGet {A : Type} (d : gmap string A) (key : string) : outcome A :=
  match d !! key with
  | Some v => Return v
  | None => Raise (KeyError key)
  end.

(** ** Arrays *)

Definition sumQ (l : list Q) : Q := foldr Qplus 0%Q l.

Module Nd.

(** A 2-D array of floats, as its list of rows. *)
Abbreviation matrix := (list (list Q)).

(** [m.shape[0]] and [m.shape[1]]. *)
Definition shape0 (m : matrix) : nat := length m.
Definition shape1 (m : matrix) : nat :=
  match m with
  | [] => 0
  | r :: _ => length r
  end.

(** A list of rows is an [r] x [c] array. *)
Definition wf (r c : nat) (m : matrix) : Prop :=
  length m = r /\ Forall (fun row => length row = c) m.

(** Decidable check that two arrays have the same rectangular shape. *)
Definition hasShape (r c : nat) (m : matrix) : bool :=
  (length m =? r) && forallb (fun row => length row =? c) m.

(** [m[i, j]]. *)
Definition mget (m : matrix) (i j : nat) : Q :=
  match m !! i with
  | Some row => default 0%Q (row !! j)
  | None => 0%Q
  end.

(** [m[i, j] = v]. *)
Definition mset (m : matrix) (i j : nat) (v : Q) : matrix :=
  alter (fun row => <[j := v]> row) i m.

(** [np.zeros((r, c))]. *)
Definition zeros (r c : nat) : matrix := replicate r (replicate c 0%Q).

(** [np.zeros_like(m)]. *)
Definition zeros_like (m : matrix) : matrix :=
  map (map (fun _ => 0%Q)) m.

(** [np.pad(m, ((1, 1)))]: one zero row and column on each of the four
    sides. *)
Definition pad1 (m : matrix) : matrix :=
  let w := shape1 m + 2 in
  replicate w 0%Q :: map (fun row => 0%Q :: row ++ [0%Q]) m ++ [replicate w 0%Q].

(** [l[1:-1]]. *)
Definition slice1 {A : Type} (l : list A) : list A :=
  take (length l - 2) (drop 1 l).

(** [m[1:-1, 1:-1]]. *)
Definition interior (m : matrix) : matrix := map slice1 (slice1 m).

(** Element-wise map, [np.sum(m)] and [np.sum(np.abs(m))]. *)
Definition mmap (f : Q -> Q) (m : matrix) : matrix := map (map f) m.
Definition matSum (m : matrix) : Q := sumQ (map sumQ m).
Definition matAbsSum (m : matrix) : Q := matSum (mmap Qabs m).

(** [range(start, stop)] and [range(start, stop, 2)]. *)
Definition pyRange (start stop : nat) : list nat := seq start (stop - start).
Definition pyRange2 (start stop : nat) : list nat :=
  map (fun k => start + 2 * k) (seq 0 ((stop - start + 1) / 2)).

(** The index pairs of [for i in rows: for j in cols:], in execution
    order. *)
Definition nest (rows cols : list nat) : list (nat * nat) :=
  list_prod rows cols.

End Nd.
Import Nd.

(** Strict comparison of floats, [x < y]. *)
Definition Qltb (x y : Q) : bool := negb (Qle_bool y x).

(** ** [_tileArray] *)

(** The four writes of the loop body of [_tileArray] for one [(i, j)].
    [-i + length] is never negative, as [i <= length]. *)
Definition tileCell (in_array : matrix) (length : nat) (output : matrix)
    (ij : nat * nat) : matrix :=
  let '(i, j) := ij in
  let v := mget in_array i j in
  let output := mset output (i + length) (j + length) v in
  let output := mset output (length - i) (j + length) v in
  let output := mset output (i + length) (length - j) v in
  mset output (length - i) (length - j) v.

Definition tileArray (in_array : matrix) : outcome matrix :=
  if negb (shape0 in_array =? shape1 in_array) then Raise AssertionError
  else
    match shape0 in_array with
    | 0 => Raise ValueError  (* np.zeros((-1, -1)) *)
    | S length =>
        let output := zeros (2 * length + 1) (2 * length + 1) in
        Return (foldl (tileCell in_array length) output
                  (nest (pyRange 0 (length + 1)) (pyRange 0 (length + 1))))
    end.

(** ** Configuration of [BrighterFatterKernelSolveTask] *)

Inductive Level : Type := AMP | DETECTOR.

Definition Level_eqb (a b : Level) : bool :=
  match a, b with
  | AMP, AMP | DETECTOR, DETECTOR => true
  | _, _ => false
  end.

(** The fields of [BrighterFatterKernelSolveConfig] (the three fields the
    source marks as unused are left out). *)
Record BrighterFatterKernelSolveConfig : Type := {
  level : Level;
  ignoreAmpsForAveraging : list string;
  xcorrCheckRejectLevel : Q;
  nSigmaClip : Q;
  forceZeroSum : bool;
  useAmatrix : bool;
  maxIterSuccessiveOverRelaxation : Z;
  eLevelSuccessiveOverRelaxation : Q
}.

(** The defaults of the config class. *)
Definition defaultConfig : BrighterFatterKernelSolveConfig := {|
  level := AMP;
  ignoreAmpsForAveraging := [];
  xcorrCheckRejectLevel := 2;
  nSigmaClip := 5;
  forceZeroSum := false;
  useAmatrix := false;
  maxIterSuccessiveOverRelaxation := 10000;
  eLevelSuccessiveOverRelaxation := 5 # 100000000000000
|}.

(** What the task writes to its log, as far as the claims mention it. *)
Inductive logEvent : Type :=
  | WarnSelfTermSkipped (ampName : string) (xcorrNum : nat)
  | WarnTriangleSkipped (ampName : string) (xcorrNum : nat)
  | WarnAllRejected (ampName : string)
  | WarnSorFailure (iterations : nat)
  | InfoSorSuccess (iterations : nat).

(** ** The state of the relaxation loop *)

(** The local variables of [successiveOverRelax] that the [while] loop
    changes.  [outError] is unbound until the loop body has run once. *)
Record sorState : Type := {
  func : matrix;
  resid : matrix;
  omega : Q;
  nIter : nat;
  outError : option Q
}.

(** Result of one pass through the loop body. *)
Inductive stepResult : Type :=
  | Break (st : sorState)
  | Continue (st : sorState).

Section Solver.

(** [afwMath.makeStatistics(values, afwMath.MEANCLIP, sctrl).getValue()]
    with [sctrl.setNumSigmaClip(nSigma)]: the sigma-clipped mean of the
    LSST afw library, which is not part of this repository. *)
Variable meanClip : Q -> list Q -> Q.

(** [np.cos(np.pi/n)] for [n >= 1]; irrational in general, so the solver
    is parametrised by it. *)
Variable cosPiOver : nat -> Q.

(** *** [averageCorrelations] *)

(** [meanXcorr[i, j] = MEANCLIP(np.transpose(xCorrList)[i, j])]; the
    transposed stack holds at [[i, j]] the values [x[j, i]] of the inputs. *)
Definition averageCell (nSigma : Q) (xCorrList : list matrix)
    (meanXcorr : matrix) (ij : nat * nat) : matrix :=
  let '(i, j) := ij in
  mset meanXcorr i j (meanClip nSigma (map (fun x => mget x j i) xCorrList)).

Definition averageCorrelations (config : BrighterFatterKernelSolveConfig)
    (xCorrList : list matrix) : outcome matrix :=
  match xCorrList with
  | [] => Raise IndexError  (* xCorrList[0] *)
  | x0 :: _ =>
      let meanXcorr := zeros_like x0 in
      (* np.transpose needs one common shape *)
      if negb (forallb (hasShape (shape0 x0) (shape1 x0)) xCorrList)
      then Raise ValueError
      (* the transposed stack is indexed [i, j] with i < shape[0] and
         j < shape[1] of meanXcorr *)
      else if negb (shape0 x0 =? shape1 x0) then Raise IndexError
      else
        let meanXcorr :=
          foldl (averageCell (nSigmaClip config) xCorrList) meanXcorr
            (nest (pyRange 0 (shape0 meanXcorr)) (pyRange 0 (shape1 meanXcorr))) in
        let meanXcorr := pad1 meanXcorr in
        let center := (shape0 meanXcorr - 1) / 2 in
        if forceZeroSum config || true then
          let totalSum := matSum meanXcorr in
          Return (mset meanXcorr center center
                    (mget meanXcorr center center - totalSum)%Q)
        else Return meanXcorr
  end.

(** *** [successiveOverRelax] *)

(** The residual of the five-point stencil at [(i, j)], as computed before
    the loop. *)
Definition residual0 (func source : matrix) (i j : nat) : Q :=
  (mget func i (j - 1) + mget func i (j + 1) + mget func (i - 1) j
   + mget func (i + 1) j - 4 * mget func i j - mget source (i - 1) (j - 1))%Q.

(** The same inside the loop, where the source is scaled by [dx*dx]. *)
Definition dx : Q := 1.
Definition residual (func source : matrix) (i j : nat) : Q :=
  (mget func i (j - 1) + mget func i (j + 1) + mget func (i - 1) j
   + mget func (i + 1) j - 4 * mget func i j
   - dx * dx * mget source (i - 1) (j - 1))%Q.

Definition initCell (func source resid : matrix) (ij : nat * nat) : matrix :=
  let '(i, j) := ij in mset resid i j (residual0 func source i j).

(** One update [resid[i, j] = ...; func[i, j] += omega*resid[i, j]*.25]. *)
Definition relaxCell (source : matrix) (omega : Q) (fr : matrix * matrix)
    (ij : nat * nat) : matrix * matrix :=
  let '(func, resid) := fr in
  let '(i, j) := ij in
  let resid := mset resid i j (residual func source i j) in
  let func := mset func i j (mget func i j + omega * mget resid i j * (1 # 4))%Q in
  (func, resid).

(** One half-step: the two double loops of the parity of [nIter]. *)
Definition halfStep (source : matrix) (omega : Q) (nIter : nat)
    (func resid : matrix) : matrix * matrix :=
  let si := shape0 func - 1 in
  let sj := shape1 func - 1 in
  if nIter mod 2 =? 0 then
    let fr := foldl (relaxCell source omega) (func, resid)
                (nest (pyRange2 1 si) (pyRange2 1 sj)) in
    foldl (relaxCell source omega) fr (nest (pyRange2 2 si) (pyRange2 2 sj))
  else
    let fr := foldl (relaxCell source omega) (func, resid)
                (nest (pyRange2 1 si) (pyRange2 2 sj)) in
    foldl (relaxCell source omega) fr (nest (pyRange2 2 si) (pyRange2 1 sj)).

(** The body of the [while] loop.  (A zero divisor in the update of
    [omega] would give an infinity in the source and gives 0 here.) *)
Definition sorStep (source : matrix) (rhoSpe inError eLevel : Q)
    (st : sorState) : stepResult :=
  let '(func', resid') := halfStep source (omega st) (nIter st) (func st) (resid st) in
  let outError' := matAbsSum resid' in
  if Qltb outError' (inError * eLevel) then
    Break {| func := func'; resid := resid'; omega := omega st;
             nIter := nIter st; outError := Some outError' |}
  else
    let omega' :=
      if nIter st =? 0 then (1 / (1 - rhoSpe * rhoSpe / 2))%Q
      else (1 / (1 - rhoSpe * rhoSpe * omega st / 4))%Q in
    Continue {| func := func'; resid := resid'; omega := omega';
                nIter := nIter st + 1; outError := Some outError' |}.

(** [while nIter < maxIter*2: ...]; each unit of fuel pays for one pass
    through the body. *)
Fixpoint sorLoop (fuel : nat) (source : matrix) (rhoSpe inError eLevel : Q)
    (maxIter : Z) (st : sorState) : outcome sorState :=
  if (Z.of_nat (nIter st) <? maxIter * 2)%Z then
    match fuel with
    | 0 => OutOfFuel
    | S fuel' =>
        match sorStep source rhoSpe inError eLevel st with
        | Break st' => Return st'
        | Continue st' => sorLoop fuel' source rhoSpe inError eLevel maxIter st'
        end
    end
  else Return st.

(** The state when the loop is entered. *)
Definition sorInit (source : matrix) : sorState :=
  let func := zeros (shape0 source + 2) (shape1 source + 2) in
  let resid := zeros (shape0 source + 2) (shape1 source + 2) in
  let resid := foldl (initCell func source) resid
                 (nest (pyRange 1 (shape0 func - 1)) (pyRange 1 (shape1 func - 1))) in
  {| func := func; resid := resid; omega := 1; nIter := 0; outError := None |}.

(** [not maxIter] and [not eLevel] of an optional argument. *)
Definition effMaxIter (config : BrighterFatterKernelSolveConfig)
    (maxIter : option Z) : Z :=
  match maxIter with
  | Some m => if (m =? 0)%Z then maxIterSuccessiveOverRelaxation config else m
  | None => maxIterSuccessiveOverRelaxation config
  end.
Definition effELevel (config : BrighterFatterKernelSolveConfig)
    (eLevel : option Q) : Q :=
  match eLevel with
  | Some e => if Qeq_bool e 0 then eLevelSuccessiveOverRelaxation config else e
  | None => eLevelSuccessiveOverRelaxation config
  end.

(** The solver returns the interior of [func] together with the message
    it logs. *)
Definition successiveOverRelax (config : BrighterFatterKernelSolveConfig)
    (source : matrix) (maxIter : option Z) (eLevel : option Q)
    : outcome (matrix * logEvent) :=
  let maxIter := effMaxIter config maxIter in
  let eLevel := effELevel config eLevel in
  if negb (shape0 source =? shape1 source) then Raise AssertionError
  else
    (* np.pi/source.shape[0] divides a Python float by a Python int *)
    rhoSpe ← (if shape0 source =? 0 then Raise ZeroDivisionError
              else Return (cosPiOver (shape0 source)));
    let st0 := sorInit source in
    let inError := matAbsSum (resid st0) in
    st ← sorLoop (Z.to_nat (maxIter * 2)) source rhoSpe inError eLevel maxIter st0;
    (* both log messages format outError *)
    match outError st with
    | None => Raise (UnboundLocalError "outError")
    | Some _ =>
        if (Z.of_nat (nIter st) >=? maxIter * 2)%Z
        then Return (interior (func st), WarnSorFailure (nIter st / 2))
        else Return (interior (func st), InfoSorSuccess (nIter st / 2))
    end.

End Solver.

(** ** [BrighterFatterKernelSolveTask.run] *)

(** The parts of the input [PhotonTransferCurveDataset] that [run] reads,
    each a dict keyed by amplifier name. *)
Record PhotonTransferCurveDataset : Type := {
  expIdMask : gmap string (list bool);
  finalMeans : gmap string (list Q);
  finalVars : gmap string (list Q);
  covariances : gmap string (list matrix);
  gain : gmap string Q;
  aMatrix : gmap string matrix
}.

(** [camera[inputDims['detector']]]: the name of the detector and the names
    of its amplifiers in iteration order. *)
Record Detector : Type := {
  detName : string;
  ampNames : list string
}.

(** The fields of the output [BrighterFatterKernel] that [run] computes. *)
Record BrighterFatterKernel : Type := {
  meanXCorrs : gmap string matrix;
  ampKernels : gmap string matrix;
  detKernels : gmap string matrix;
  bfkShape : nat * nat
}.

(** The local variables of [run] that live across the amplifier loop.
    [scaled] and [postKernel] are unbound until first assigned; being locals
    of the function, they keep their value from one amplifier to the next. *)
Record runState : Type := {
  scaled : option matrix;
  postKernel : option matrix;
  detectorCorrList : list matrix;
  bfkMeanXCorrs : gmap string matrix;
  bfkAmpKernels : gmap string matrix;
  logged : list logEvent
}.

(** The variables the loop over the samples of one amplifier changes. *)
Record sampleState : Type := {
  scaledCorrList : list matrix;
  lastScaled : option matrix;
  sampleLog : list logEvent
}.

(** [np.array(values)[mask]] where [mask] is a Python list of booleans, as
    the entries of [expIdMask] are.  An empty list is read by numpy as an
    empty list of integer indices and selects nothing; any other list is a
    boolean mask, whose length has to be that of the array. *)
Definition npBoolIndex {A : Type} (values : list A) (mask : list bool)
    : outcome (list A) :=
  if (length mask =? 0) || (length values =? length mask)
  then Return (map fst (filter (fun vm => snd vm = true) (zip values mask)))
  else Raise IndexError.

(** [np.array(xCorrList)] on a list of 2-D arrays: the arrays are stacked
    along a new first axis, which requires them to have one common shape;
    otherwise numpy raises [ValueError] (inhomogeneous shape). *)
Definition npArray (xCorrList : list matrix) : outcome (list matrix) :=
  match xCorrList with
  | [] => Return []
  | x0 :: _ =>
      if forallb (hasShape (shape0 x0) (shape1 x0)) xCorrList
      then Return xCorrList
      else Raise ValueError
  end.

(** [zip(xCorrList, fluxes, variances)]. *)
Definition zip3 {A B C : Type} (a : list A) (b : list B) (c : list C)
    : list (A * B * C) := zip (zip a b) c.

(** [q = np.array(xcorr) * gain * gain; q *= 2.0]. *)
Definition rescale (gain : Q) (xcorr : matrix) : matrix :=
  mmap (fun x => x * 2)%Q (mmap (fun x => x * gain * gain)%Q xcorr).

(** [q] after [q[0][0] -= 2.0*(flux)], and its zero-lag entry [q[0][0]]:
    the variance with the Poisson self term removed. *)
Definition selfSubtracted (gain : Q) (xcorr : matrix) (flux : Q) : matrix :=
  let q := rescale gain xcorr in
  mset q 0 0 (mget q 0 0 - 2 * flux)%Q.
Definition selfTerm (gain : Q) (xcorr : matrix) (flux : Q) : Q :=
  mget (selfSubtracted gain xcorr flux) 0 0.

(** [q] after [q /= -2.0*(flux**2)]. *)
Definition normalised (gain : Q) (xcorr : matrix) (flux : Q) : matrix :=
  mmap (fun x => x / (-2 * (flux * flux)))%Q (selfSubtracted gain xcorr flux).

(** [np.abs(np.sum(scaled))/np.sum(np.abs(scaled))]: 0/0 is NaN ([None]);
    the divisor is zero only when every entry is. *)
Definition xcorrCheckOf (scaled : matrix) : option Q :=
  if Qeq_bool (matAbsSum scaled) 0 then None
  else Some (Qabs (matSum scaled) / matAbsSum scaled)%Q.

(** [x > y] for a float that may be NaN. *)
Definition gtNaN (x : option Q) (y : Q) : bool :=
  match x with
  | Some x => Qltb y x
  | None => false
  end.

(** The body of the loop over the samples of one amplifier.  The log call
    before the self-term check reads [q[0][0]], [q[1][0]] and [q[0][1]].
    (For [flux = 0] the source divides by zero and stores infinities or
    NaN; [Qdiv] stores 0.) *)
Definition sampleStep (config : BrighterFatterKernelSolveConfig)
    (ampName : string) (gain : Q) (st : sampleState)
    (sample : nat * (matrix * Q * Q)) : outcome sampleState :=
  let '(xcorrNum, (xcorr, flux, var)) := sample in
  let q := rescale gain xcorr in
  if negb ((2 <=? shape0 q) && (2 <=? shape1 q)) then Raise IndexError
  else
    if Qltb 0 (selfTerm gain xcorr flux) then
      Return {| scaledCorrList := scaledCorrList st;
                lastScaled := lastScaled st;
                sampleLog := sampleLog st ++ [WarnSelfTermSkipped ampName xcorrNum] |}
    else
      scaled ← tileArray (normalised gain xcorr flux);
      let xcorrCheck := xcorrCheckOf scaled in
      if gtNaN xcorrCheck (xcorrCheckRejectLevel config) then
        Return {| scaledCorrList := scaledCorrList st;
                  lastScaled := Some scaled;
                  sampleLog := sampleLog st ++ [WarnTriangleSkipped ampName xcorrNum] |}
      else
        Return {| scaledCorrList := scaledCorrList st ++ [scaled];
                  lastScaled := Some scaled;
                  sampleLog := sampleLog st |}.

(** A [for] loop whose body may raise. *)
Fixpoint forM {S A : Type} (body : S -> A -> outcome S) (st : S) (l : list A)
    : outcome S :=
  match l with
  | [] => Return st
  | a :: l' => st' ← body st a; forM body st' l'
  end.

(** [enumerate(l, 1)]. *)
Definition enumerate1 {A : Type} (l : list A) : list (nat * A) :=
  zip (seq 1 (length l)) l.

Section Run.

Variable meanClip : Q -> list Q -> Q.
Variable cosPiOver : nat -> Q.

(** The body of [for amp in detector]. *)
Definition ampStep (config : BrighterFatterKernelSolveConfig)
    (inputPtc : PhotonTransferCurveDataset) (st : runState)
    (ampName : string) : outcome runState :=
  mask ← dictGet (expIdMask inputPtc) ampName;
  gain ← dictGet (gain inputPtc) ampName;
  means ← dictGet (finalMeans inputPtc) ampName;
  fluxes ← npBoolIndex means mask;
  vars ← dictGet (finalVars inputPtc) ampName;
  variances ← npBoolIndex vars mask;
  covs ← dictGet (covariances inputPtc) ampName;
  stack ← npArray covs;
  xCorrList ← npBoolIndex stack mask;
  let fluxes := map (fun flux => flux * gain)%Q fluxes in
  let variances := map (fun variance => variance * gain * gain)%Q variances in
  ss ← forM (sampleStep config ampName gain)
         {| scaledCorrList := []; lastScaled := scaled st; sampleLog := logged st |}
         (enumerate1 (zip3 xCorrList fluxes variances));
  if length (scaledCorrList ss) =? 0 then
    match lastScaled ss with
    | None => Raise (UnboundLocalError "scaled")
    | Some scaled =>
        Return {| scaled := lastScaled ss;
                  postKernel := postKernel st;
                  detectorCorrList := detectorCorrList st;
                  bfkMeanXCorrs := bfkMeanXCorrs st;
                  bfkAmpKernels := <[ampName := zeros_like (pad1 scaled)]> (bfkAmpKernels st);
                  logged := sampleLog ss ++ [WarnAllRejected ampName] |}
    end
  else
    let detectorCorrList' :=
      if Level_eqb (level config) DETECTOR
      then detectorCorrList st ++ scaledCorrList ss
      else detectorCorrList st in
    preKernel ← (if useAmatrix config then
                   a ← dictGet (aMatrix inputPtc) ampName;
                   t ← tileArray a;
                   Return (pad1 t)
                 else averageCorrelations meanClip config (scaledCorrList ss));
    '(post, msg) ← successiveOverRelax cosPiOver config preKernel None None;
    Return {| scaled := lastScaled ss;
              postKernel := Some post;
              detectorCorrList := detectorCorrList';
              bfkMeanXCorrs := <[ampName := preKernel]> (bfkMeanXCorrs st);
              bfkAmpKernels := <[ampName := post]> (bfkAmpKernels st);
              logged := sampleLog ss ++ [msg] |}.

(** The state before the loop over the amplifiers. *)
Definition runInit : runState :=
  {| scaled := None; postKernel := None; detectorCorrList := [];
     bfkMeanXCorrs := ∅; bfkAmpKernels := ∅; logged := [] |}.

(** [run]: the loop over the amplifiers, the optional detector kernel and
    [bfk.shape = postKernel.shape].  It returns the calibration and the
    log. *)
Definition run (config : BrighterFatterKernelSolveConfig)
    (inputPtc : PhotonTransferCurveDataset) (detector : Detector)
    : outcome (BrighterFatterKernel * list logEvent) :=
  st ← forM (ampStep config inputPtc) runInit (ampNames detector);
  '(post, dets, log) ←
    (if Level_eqb (level config) DETECTOR then
       preKernel ← averageCorrelations meanClip config (detectorCorrList st);
       '(post, msg) ← successiveOverRelax cosPiOver config preKernel None None;
       Return (Some post, {[ detName detector := post ]}, logged st ++ [msg])
     else Return (postKernel st, ∅, logged st));
  match post with
  | None => Raise (UnboundLocalError "postKernel")
  | Some p =>
      Return ({| meanXCorrs := bfkMeanXCorrs st;
                 ampKernels := bfkAmpKernels st;
                 detKernels := dets;
                 bfkShape := (shape0 p, shape1 p) |}, log)
  end.

End Run.

(** ** The per-amplifier body of [PhotonTransferCurveExtractTask.run] *)

Module Ptc.

(** A float that may be NaN ([None]). *)
Abbreviation float := (option Q).

Definition isnan (x : float) : bool :=
  match x with None => true | Some _ => false end.

(** [x <= y] and [x >= y]; both are false when [x] is NaN. *)
Definition leNaN (x : float) (y : Q) : bool :=
  match x with Some x => Qle_bool x y | None => false end.
Definition geNaN (x : float) (y : Q) : bool :=
  match x with Some x => Qle_bool y x | None => false end.

(** An n-dimensional numpy array of floats. *)
#[warnings="-register-all"]
Inductive ndarray : Type :=
  | Scalar (x : float)
  | Array (items : list ndarray).

(** [a *= k] and [a /= k] on every element. *)
Fixpoint ndMap (f : float -> float) (a : ndarray) : ndarray :=
  match a with
  | Scalar x => Scalar (f x)
  | Array items => Array (map (ndMap f) items)
  end.

(** In-place update of [a[i0, i1, ...]]: the element or sub-array that the
    index tuple selects is replaced by its image under [f].  [None] is the
    IndexError of numpy (index out of bounds, or more indices than the
    array has dimensions). *)
Fixpoint ndAlterAt (path : list nat) (f : ndarray -> ndarray) (a : ndarray)
    : option ndarray :=
  match path with
  | [] => Some (f a)
  | i :: path' =>
      match a with
      | Scalar _ => None
      | Array items =>
          match items !! i with
          | None => None
          | Some x =>
              match ndAlterAt path' f x with
              | None => None
              | Some x' => Some (Array (<[i := x']> items))
              end
          end
      end
  end.

(** [a[i0, i1, ...]] read. *)
Fixpoint ndGet (path : list nat) (a : ndarray) : option ndarray :=
  match path with
  | [] => Some a
  | i :: path' =>
      match a with
      | Scalar _ => None
      | Array items => match items !! i with
                       | None => None
                       | Some x => ndGet path' x
                       end
      end
  end.

(** [np.full((1, n, n), np.nan)]. *)
Definition fullNaN (n : nat) : ndarray :=
  Array [Array (replicate n (Array (replicate n (Scalar None))))].

(** The fields of [PhotonTransferCurveExtractConfig] read below. *)
Record PhotonTransferCurveExtractConfig : Type := {
  maximumRangeCovariancesAstier : nat;
  minMeanSignal : gmap string Q;
  maxMeanSignal : gmap string Q;
  nSigmaClipPtc : Q
}.

(** [minMeanSignalDict[ampName]] and [maxMeanSignalDict[ampName]] as the
    loop over [ampNames] fills them, from the default [dflt]. *)
Definition meanSignalBound (dflt : Q) (cfg : gmap string Q) (ampName : string) : Q :=
  match cfg !! "ALL_AMPS" with
  | Some v => v
  | None => match cfg !! ampName with
            | Some v => v
            | None => dflt
            end
  end.

(** What [setAmpValues] receives for one amplifier. *)
Record ampValues : Type := {
  rawMean : float;
  rawVar : float;
  ampExpIdMask : bool;
  covArray : ndarray
}.

(** The two mask decisions of the loop body. *)
Definition expIdMaskOf (muDiff varDiff : float) (covIsNone : bool)
    (minSignal maxSignal : Q) : bool :=
  let expIdMask := true in
  let expIdMask :=
    if isnan muDiff || isnan varDiff || covIsNone then false else expIdMask in
  if leNaN muDiff minSignal || geNaN muDiff maxSignal then false else expIdMask.

(** [covArray *= varFactor**2; covArray[0, 0] /= varFactor].  (A zero
    [varFactor] divides by zero in the source; [Qdiv] gives 0.) *)
Definition sigmaClipCorrectCov (varFactor : Q) (covArray : ndarray)
    : outcome ndarray :=
  let covArray := ndMap (fmap (fun x => x * (varFactor * varFactor))%Q) covArray in
  match ndAlterAt [0; 0] (ndMap (fmap (fun x => x / varFactor)%Q)) covArray with
  | Some a => Return a
  | None => Raise IndexError
  end.

Section Extract.

(** The rows [measureMeanVarCov] returns as [covAstier]. *)
Variable CovRows : Type.

(** [sigmaClipCorrection] of [lsst.cp.pipe.utils] and [makeCovArray] of
    [astierCovPtcFit], neither of which is among the source files.  Of
    [makeCovArray] only the first component of the result, the covariance
    array, is used here. *)
Variable sigmaClipCorrection : Q -> Q.
Variable makeCovArray : float -> float -> CovRows -> nat -> ndarray.

(** The statements of the loop body from the call of
    [measureMeanVarCov], whose three results are the arguments, to the
    call of [setAmpValues]. *)
Definition ampBody (config : PhotonTransferCurveExtractConfig)
    (ampName : string) (muDiff varDiff : float) (covAstier : option CovRows)
    : outcome ampValues :=
  let minSignal := meanSignalBound 0 (minMeanSignal config) ampName in
  let maxSignal := meanSignalBound 1000000 (maxMeanSignal config) ampName in
  let varFactor := (sigmaClipCorrection (nSigmaClipPtc config)
                    * sigmaClipCorrection (nSigmaClipPtc config))%Q in
  let varDiff := fmap (fun v => v * varFactor)%Q varDiff in
  let expIdMask :=
    expIdMaskOf muDiff varDiff (bool_decide (covAstier = None)) minSignal maxSignal in
  let covArray :=
    match covAstier with
    | Some rows =>
        makeCovArray muDiff varDiff rows (maximumRangeCovariancesAstier config)
    | None => fullNaN (maximumRangeCovariancesAstier config)
    end in
  covArray ← sigmaClipCorrectCov varFactor covArray;
  Return {| rawMean := muDiff; rawVar := varDiff;
            ampExpIdMask := expIdMask; covArray := covArray |}.

End Extract.

End Ptc.

(** ** Vocabulary of the statements *)

(** Distance of an index of the tiled array from its centre. *)
Definition lag (a len : nat) : nat := if a <? len then len - a else a - len.

(** Every entry of the array is zero. *)
Definition allZero (m : matrix) : Prop :=
  Forall (Forall (fun x => (x == 0)%Q)) m.

(** The Chebyshev sequence of relaxation parameters, in the words of the
    specification: 1 at the start, [1/(1 - rho^2/2)] after the first step,
    [1/(1 - rho^2*omega/4)] from the previous value afterwards. *)
Fixpoint chebyshevOmega (rho : Q) (k : nat) : Q :=
  match k with
  | 0 => 1%Q
  | S k' =>
      match k' with
      | 0 => (1 / (1 - rho * rho / 2))%Q
      | S _ => (1 / (1 - rho * rho * chebyshevOmega rho k' / 4))%Q
      end
  end.

(** The state of the loop after [k] passes through its body, none of which
    left the loop; [None] if one of them did. *)
Fixpoint sorIterate (source : matrix) (rhoSpe inError eLevel : Q) (k : nat)
    (st : sorState) : option sorState :=
  match k with
  | 0 => Some st
  | S k' =>
      match sorIterate source rhoSpe inError eLevel k' st with
      | Some st' =>
          match sorStep source rhoSpe inError eLevel st' with
          | Continue st'' => Some st''
          | Break _ => None
          end
      | None => None
      end
  end.

(** The arrays [func] and [resid] after [k] half-steps, of which the one
    with number [j] (counted from 0) is run with the relaxation parameter
    [omegaAt j]. *)
Fixpoint relaxed (source : matrix) (omegaAt : nat -> Q) (k : nat) : matrix * matrix :=
  match k with
  | 0 => (func (sorInit source), resid (sorInit source))
  | S k' =>
      let fr := relaxed source omegaAt k' in
      halfStep source (omegaAt k') k' fr.1 fr.2
  end.

(** Rational values for [np.cos(np.pi/n)]: Bhaskara's approximation
    [(pi^2 - 4x^2)/(pi^2 + x^2)] at [x = pi/n], which is exact for [n = 2]
    (0) and [n = 3] (1/2), and the exact value -1 for [n = 1]. *)
Definition cosPiOverQ (n : nat) : Q :=
  if n =? 1 then -1
  else ((inject_Z (Z.of_nat (n * n)) - 4) / (inject_Z (Z.of_nat (n * n)) + 1))%Q.

(** The arithmetic mean, a sigma-clipped mean that clips nothing. *)
Definition plainMean (nSigma : Q) (values : list Q) : Q :=
  (sumQ values / inject_Z (Z.of_nat (length values)))%Q.

(** A dataset with one amplifier that holds one unmasked sample at gain 1,
    and the union of two datasets with different amplifiers. *)
Definition onePtc (ampName : string) (xcorr : matrix) (mean var : Q)
    : PhotonTransferCurveDataset :=
  {| expIdMask := {[ ampName := [true] ]};
     finalMeans := {[ ampName := [mean] ]};
     finalVars := {[ ampName := [var] ]};
     covariances := {[ ampName := [xcorr] ]};
     gain := {[ ampName := 1%Q ]};
     aMatrix := ∅ |}.

Definition joinPtc (a b : PhotonTransferCurveDataset) : PhotonTransferCurveDataset :=
  {| expIdMask := expIdMask a ∪ expIdMask b;
     finalMeans := finalMeans a ∪ finalMeans b;
     finalVars := finalVars a ∪ finalVars b;
     covariances := covariances a ∪ covariances b;
     gain := gain a ∪ gain b;
     aMatrix := aMatrix a ∪ aMatrix b |}.

(** The default configuration with the level, the exclusion list and the
    iteration budget replaced. *)
Definition configWith (lvl : Level) (ignored : list string) (maxIter : Z)
    : BrighterFatterKernelSolveConfig :=
  {| level := lvl;
     ignoreAmpsForAveraging := ignored;
     xcorrCheckRejectLevel := xcorrCheckRejectLevel defaultConfig;
     nSigmaClip := nSigmaClip defaultConfig;
     forceZeroSum := forceZeroSum defaultConfig;
     useAmatrix := useAmatrix defaultConfig;
     maxIterSuccessiveOverRelaxation := maxIter;
     eLevelSuccessiveOverRelaxation := eLevelSuccessiveOverRelaxation defaultConfig |}.

(** The element [a[path]] of an n-dimensional array is the finite number
    [q]. *)
Definition ndEntryIs (a : Ptc.ndarray) (path : list nat) (q : Q) : Prop :=
  match Ptc.ndGet path a with
  | Some (Ptc.Scalar (Some v)) => (v == q)%Q
  | _ => False
  end.

(** ** Vocabulary of further statements *)

(** [t[k:, k:]]: the rows and columns of [t] from index [k] on. *)
Definition lowerRight (k : nat) (t : matrix) : matrix := map (drop k) (drop k t).

(** A sample [(xcorr, flux, var)] passes the self-term check of [run]:
    [q[0][0] > 0.0] is false. *)
Definition passesSelfTerm (gain : Q) (sample : matrix * Q * Q) : bool :=
  negb (Qltb 0 (selfTerm gain sample.1.1 sample.1.2)).

(** The dataset in which the sample at index [i] of one amplifier is
    replaced by another covariance, mean and variance. *)
Definition setSample (inputPtc : PhotonTransferCurveDataset) (ampName : string)
    (i : nat) (xcorr : matrix) (mean var : Q) : PhotonTransferCurveDataset :=
  {| expIdMask := expIdMask inputPtc;
     finalMeans := alter (fun l => <[i := mean]> l) ampName (finalMeans inputPtc);
     finalVars := alter (fun l => <[i := var]> l) ampName (finalVars inputPtc);
     covariances := alter (fun l => <[i := xcorr]> l) ampName (covariances inputPtc);
     gain := gain inputPtc;
     aMatrix := aMatrix inputPtc |}.

(** Two arrays have the same shape: as many rows, and as many entries in
    each row. *)
Definition sameShape (a b : matrix) : Prop := map length a = map length b.

(** ** The loop over the flat pairs of [PhotonTransferCurveExtractTask.run] *)

Module PtcRun.
Import Ptc.

(** [detectorMeasurementRegion]. *)
Inductive Region : Type := RegionAmp | RegionFull.

(** The configuration fields that the loop over the pairs reads, beside
    those of [PhotonTransferCurveExtractConfig] above. *)
Record ExtractRunConfig : Type := {
  extractConfig : PhotonTransferCurveExtractConfig;
  covAstierRealSpace : bool;
  detectorMeasurementRegion : Region;
  numEdgeSuspect : Z;
  edgeMaskLevel : string
}.

(** An outcome of the earlier kind, or the [RuntimeError] that [run] raises
    itself. *)
Inductive runOutcome (A : Type) : Type :=
  | Outcome (o : outcome A)
  | RuntimeError (message : string).
Arguments Outcome {A} o.
Arguments RuntimeError {A} message.

Definition runBind {A B : Type} (m : runOutcome A) (f : A -> runOutcome B)
    : runOutcome B :=
  match m with
  | Outcome (Return a) => f a
  | Outcome (Raise e) => Outcome (Raise e)
  | Outcome OutOfFuel => Outcome OutOfFuel
  | RuntimeError message => RuntimeError message
  end.

(** Rounding to the nearest integer, a tie to the even one. *)
Definition roundHalfEven (m : Q) : Z :=
  let f := Qfloor m in
  let r := (m - inject_Z f)%Q in
  if Qltb r (1 # 2) then f
  else if Qltb (1 # 2) r then (f + 1)%Z
  else if Z.even f then f else (f + 1)%Z.

(** The binary exponent of a number that is not zero: the [e] with
    [2^e <= |q| < 2^(e+1)]. *)
Definition exponentOf (q : Q) : Z :=
  if Qle_bool 1 (Qabs q) then Z.log2 (Qfloor (Qabs q))
  else (- Z.log2_up (Qceiling (/ Qabs q)))%Z.

(** The float64 nearest to a number: 53 significant bits, rounded to
    nearest, a tie to the even significand.  This is the value of the true
    division [a/b] of two Python integers and of an int64 converted to
    float64.  (Overflow and subnormal numbers are left out: the quotient of
    a 64-bit integer by 1000 is neither.) *)
Definition toFloat64 (q : Q) : Q :=
  if Qeq_bool q 0 then 0%Q
  else
    let ulp := (2 ^ (exponentOf q - 52))%Q in
    (inject_Z (roundHalfEven (q / ulp)) * ulp)%Q.

(** What [np.array(inputDims)] holds for the id [d] when it is compared
    with a Python integer (the id itself) and with a Python float (the
    int64 array is converted to float64). *)
Definition asInt64 (d : Z) : Q := inject_Z d.
Definition asFloat64 (d : Z) : Q := toFloat64 (inject_Z d).

(** [np.where(x == np.array(inputDims))[0]]: the indices, counted from
    [k], at which the array, its entries converted by [conv], holds the
    number [x]. *)
Fixpoint whereEq (conv : Z -> Q) (k : nat) (x : Q) (inputDims : list Z) : list nat :=
  match inputDims with
  | [] => []
  | d :: rest =>
      if Qeq_bool x (conv d) then k :: whereEq conv (S k) x rest
      else whereEq conv (S k) x rest
  end.

(** The chain of seven tests that finds [datasetIndex] for the exposure id
    of the first flat of a pair.  [expId1/1000] is a true division, whose
    float64 result is compared with the ids converted to float64;
    [expId1//100] and [expId1//10] are floor divisions, and the third,
    fifth and seventh test floor-divide the array of indices. *)
Definition datasetIndex (expId1 : Z) (inputDims : list Z) : runOutcome nat :=
  let quotient := toFloat64 (inject_Z expId1 / 1000) in
  match whereEq asInt64 0 (inject_Z expId1) inputDims with
  | i :: _ => Outcome (Return i)
  | [] =>
  match whereEq asFloat64 0 quotient inputDims with
  | i :: _ => Outcome (Return i)
  | [] =>
  match map (fun i => i / 1000) (whereEq asFloat64 0 quotient inputDims) with
  | i :: _ => Outcome (Return i)
  | [] =>
  match whereEq asInt64 0 (inject_Z (expId1 / 100)) inputDims with
  | i :: _ => Outcome (Return i)
  | [] =>
  match map (fun i => i / 100) (whereEq asInt64 0 (inject_Z (expId1 / 100)) inputDims) with
  | i :: _ => Outcome (Return i)
  | [] =>
  match whereEq asInt64 0 (inject_Z (expId1 / 10)) inputDims with
  | i :: _ => Outcome (Return i)
  | [] =>
  match map (fun i => i / 10) (whereEq asInt64 0 (inject_Z (expId1 / 10)) inputDims) with
  | i :: _ => Outcome (Return i)
  | [] => RuntimeError "Cannot find appropriate datasetIndex!"
  end end end end end end end.

(** An integer that float64 holds exactly, as every integer below [2^53]
    in absolute value is. *)
Definition exactInFloat64 (z : Z) : Prop := (Z.abs z < 2 ^ 53)%Z.

(** The first position of the list at which [P] holds. *)
Definition firstIndex (P : Z -> bool) (inputDims : list Z) : option nat :=
  fst <$> list_find (fun d => P d = true) inputDims.

(** The dataset of one flat pair, and an entry of the output list. *)
Record partialDataset : Type := {
  rawExpTime : Q;
  inputExpIdPair : Z * Z;
  ampData : gmap string ampValues
}.
Inductive ptcDataset : Type :=
  | DummyPtc
  | PartialPtc (d : partialDataset).

(** [l[i] = x] on a Python list. *)
Definition listSet {A : Type} (l : list A) (i : nat) (x : A) : outcome (list A) :=
  if i <? length l then Return (<[i := x]> l) else Raise IndexError.

Section ExtractRun.

(** Exposures and what the afw library gives for them. *)
Variable Exposure : Type.
Variable getExposureId : Exposure -> Z.
Variable getAmpNames : Exposure -> list string.

(** [isrTask.maskEdges(exp, numEdgePixels=n, maskPlane="SUSPECT",
    level=edgeMaskLevel)], which changes the mask of the exposure. *)
Variable maskEdges : Z -> string -> Exposure -> Exposure.

(** [measureMeanVarCov(exp1, exp2, region=..., covAstierRealSpace=...)]
    for the region of one amplifier ([Some ampName]) or the full image
    ([None]).  Its result is made of statistics of the afw library. *)
Variable CovRows : Type.
Variable measureMeanVarCov :
  Exposure -> Exposure -> option string -> bool -> float * float * option CovRows.

Variable sigmaClipCorrection : Q -> Q.

(** [makeCovArray] on the rows built for amplifier number [ampNumber],
    exposure time [expTime] and amplifier name [ampName]. *)
Variable makeCovArray :
  nat -> Q -> string -> float -> float -> CovRows -> nat -> ndarray.

(** The body of [for ampNumber, amp in enumerate(detector)]. *)
Definition ampLoopStep (config : ExtractRunConfig) (exp1 exp2 : Exposure)
    (expTime : Q) (data : gmap string ampValues) (amp : nat * string)
    : outcome (gmap string ampValues) :=
  let '(ampNumber, ampName) := amp in
  let region :=
    match detectorMeasurementRegion config with
    | RegionAmp => Some ampName
    | RegionFull => None
    end in
  let '(muDiff, varDiff, covAstier) :=
    measureMeanVarCov exp1 exp2 region (covAstierRealSpace config) in
  values ← ampBody CovRows sigmaClipCorrection (makeCovArray ampNumber expTime ampName)
              (extractConfig config) ampName muDiff varDiff covAstier;
  Return (<[ampName := values]> data).

(** [enumerate(l)]. *)
Definition enumerate0 {A : Type} (l : list A) : list (nat * A) :=
  zip (seq 0 (length l)) l.

(** The body of [for expTime in inputExp]. *)
Definition pairStep (config : ExtractRunConfig) (ampNames : list string)
    (inputDims : list Z) (out : list ptcDataset) (bucket : Q * list Exposure)
    : runOutcome (list ptcDataset) :=
  let '(expTime, exposures) := bucket in
  if length exposures =? 1 then Outcome (Return out)
  else
    match exposures with
    | exp1 :: exp2 :: _ =>
        let exp1 := if (0 <? numEdgeSuspect config)%Z
                    then maskEdges (numEdgeSuspect config) (edgeMaskLevel config) exp1
                    else exp1 in
        let exp2 := if (0 <? numEdgeSuspect config)%Z
                    then maskEdges (numEdgeSuspect config) (edgeMaskLevel config) exp2
                    else exp2 in
        let expId1 := getExposureId exp1 in
        let expId2 := getExposureId exp2 in
        runBind (Outcome (forM (ampLoopStep config exp1 exp2 expTime) ∅
                            (enumerate0 ampNames)))
          (fun data =>
             let partialPtcDataset :=
               PartialPtc {| rawExpTime := expTime;
                             inputExpIdPair := (expId1, expId2);
                             ampData := data |} in
             runBind (datasetIndex expId1 inputDims)
               (fun index => Outcome (listSet out index partialPtcDataset)))
    | _ => Outcome (Raise IndexError)  (* exposures[0] or exposures[1] *)
    end.

(** A [for] loop whose body may raise either way. *)
Fixpoint forRun {S A : Type} (body : S -> A -> runOutcome S) (st : S) (l : list A)
    : runOutcome S :=
  match l with
  | [] => Outcome (Return st)
  | a :: l' => runBind (body st a) (fun st' => forRun body st' l')
  end.

(** [run]: [inputExp] is the dict from exposure time to the flats taken
    with it, in its iteration order. *)
Definition extractRun (config : ExtractRunConfig)
    (inputExp : list (Q * list Exposure)) (inputDims : list Z)
    : runOutcome (list ptcDataset) :=
  match inputExp with
  | (_, first :: _) :: _ =>
      let ampNames := getAmpNames first in
      let partialPtcDatasetList := replicate (length inputDims) DummyPtc in
      forRun (pairStep config ampNames inputDims) partialPtcDatasetList inputExp
  | _ => Outcome (Raise IndexError)  (* list(inputExp.values())[0][0] *)
  end.

End ExtractRun.

End PtcRun.

(** [m'] is [m] with every entry multiplied by [c]. *)
Definition scaledBy (c : Q) (m m' : matrix) : Prop :=
  Forall2 (Forall2 (fun x y => (y == c * x)%Q)) m m'.

(** The gain of an amplifier and the samples [(xcorr, flux, var)] that the
    loop of [run] iterates over for it: the unmasked entries of the dataset,
    means and variances converted to electrons. *)
Definition ampSamples (inputPtc : PhotonTransferCurveDataset) (ampName : string)
    : outcome (Q * list (matrix * Q * Q)) :=
  mask ← dictGet (expIdMask inputPtc) ampName;
  gain ← dictGet (gain inputPtc) ampName;
  means ← dictGet (finalMeans inputPtc) ampName;
  fluxes ← npBoolIndex means mask;
  vars ← dictGet (finalVars inputPtc) ampName;
  variances ← npBoolIndex vars mask;
  covs ← dictGet (covariances inputPtc) ampName;
  stack ← npArray covs;
  xCorrList ← npBoolIndex stack mask;
  Return (gain,
          zip3 xCorrList (map (fun flux => flux * gain)%Q fluxes)
               (map (fun variance => variance * gain * gain)%Q variances)).

(** Every sample that the loop of [run] reads for the amplifier has a flux
    (in electrons) that is not zero, so that [q /= -2.0*(flux**2)] divides
    numbers by a non-zero number. *)
Definition nonzeroFluxes (inputPtc : PhotonTransferCurveDataset)
    (ampName : string) : Prop :=
  forall gain samples,
    ampSamples inputPtc ampName = Return (gain, samples) ->
    Forall (fun s => ~ (s.1.2 == 0)%Q) samples.

(** An amplifier whose covariances, the masked ones included, are all
    [n] x [n], whose samples have non-zero fluxes, and of which one sample
    at least passes the self-term check. *)
Definition usableAmp (n : nat) (inputPtc : PhotonTransferCurveDataset)
    (ampName : string) : Prop :=
  exists gain samples covs,
    covariances inputPtc !! ampName = Some covs /\
    Forall (wf n n) covs /\
    ampSamples inputPtc ampName = Return (gain, samples) /\
    Forall (fun s => ~ (s.1.2 == 0)%Q) samples /\
    Exists (fun s => passesSelfTerm gain s = true) samples.

(* ================================================================== *)
(** * Part II: properties *)
(* ================================================================== *)

(** ** Reading and writing arrays *)

Lemma wf_mset r c m i j v : wf r c m -> wf r c (mset m i j v).
Proof.
  intros [Hl Hr]. split.
  - unfold mset. by rewrite length_alter.
  - unfold mset. apply Forall_lookup. intros k row Hk.
    rewrite list_lookup_alter in Hk.
    rewrite Forall_lookup in Hr.
    destruct (decide (i = k)) as [->|].
    + destruct (m !! k) as [row0|] eqn:E; simplify_eq/=.
      rewrite length_insert. eauto.
    + eauto.
Qed.

Lemma mget_mset_ne m i j v a b : (a, b) <> (i, j) -> mget (mset m i j v) a b = mget m a b.
Proof.
  intros Hne. unfold mget, mset. rewrite list_lookup_alter.
  destruct (decide (i = a)) as [->|]; [|done].
  destruct (m !! a) as [row|]; simpl; [|done].
  rewrite list_lookup_insert_ne; [done|]. congruence.
Qed.

Lemma mget_mset_eq r c m i j v : wf r c m -> i < r -> j < c -> mget (mset m i j v) i j = v.
Proof.
  intros [Hl Hr] Hi Hj. unfold mget, mset. rewrite list_lookup_alter.
  rewrite decide_True by done.
  destruct (lookup_lt_is_Some_2 m i) as [row Hrow]; [lia|].
  rewrite Hrow. simpl.
  rewrite Forall_lookup in Hr. specialize (Hr _ _ Hrow).
  rewrite list_lookup_insert_eq by lia. done.
Qed.

Lemma wf_zeros r c : wf r c (zeros r c).
Proof.
  split.
  - unfold zeros. by rewrite length_replicate.
  - unfold zeros. apply Forall_replicate. by rewrite length_replicate.
Qed.

Lemma mget_zeros r c a b : mget (zeros r c) a b = 0%Q.
Proof.
  unfold mget, zeros.
  destruct (replicate r (replicate c 0%Q) !! a) as [row|] eqn:E; [|done].
  apply lookup_replicate in E as [-> _].
  destruct (replicate c 0%Q !! b) as [x|] eqn:E2; [|done].
  by apply lookup_replicate in E2 as [-> _].
Qed.

(** ** [_tileArray]: every cell of the output in terms of the input *)

Lemma mget_mset r c m i j v a b :
  wf r c m -> i < r -> j < c ->
  mget (mset m i j v) a b = if (a =? i) && (b =? j) then v else mget m a b.
Proof.
  intros Hwf Hi Hj.
  destruct (Nat.eqb_spec a i) as [->|Ha]; simpl.
  - destruct (Nat.eqb_spec b j) as [->|Hb].
    + eapply mget_mset_eq; eauto.
    + apply mget_mset_ne. congruence.
  - apply mget_mset_ne. congruence.
Qed.

Lemma wf_tileCell q len out ij : wf (2 * len + 1) (2 * len + 1) out ->
  wf (2 * len + 1) (2 * len + 1) (tileCell q len out ij).
Proof. destruct ij as [i j]. intros. unfold tileCell. by repeat apply wf_mset. Qed.

Lemma mget_tileCell q len out i j a b :
  wf (2 * len + 1) (2 * len + 1) out -> i <= len -> j <= len ->
  mget (tileCell q len out (i, j)) a b =
    if (a <=? 2 * len) && (b <=? 2 * len) && (lag a len =? i) && (lag b len =? j)
    then mget q i j else mget out a b.
Proof.
  intros Hwf Hi Hj. unfold tileCell, lag.
  repeat (erewrite mget_mset; [|repeat apply wf_mset; eassumption|lia|lia]).
  repeat match goal with
         | |- context [?x <? ?y] => destruct (Nat.ltb_spec x y)
         | |- context [?x <=? ?y] => destruct (Nat.leb_spec x y)
         | |- context [?x =? ?y] => destruct (Nat.eqb_spec x y)
         end; simpl; try reflexivity; exfalso; lia.
Qed.

Lemma wf_tile_fold q len cells : forall out,
  wf (2 * len + 1) (2 * len + 1) out ->
  wf (2 * len + 1) (2 * len + 1) (foldl (tileCell q len) out cells).
Proof. induction cells as [|c cells IH]; simpl; intros; [done|]. by apply IH, wf_tileCell. Qed.

Lemma mget_tile_fold q len cells : forall out a b,
  wf (2 * len + 1) (2 * len + 1) out ->
  Forall (fun ij => fst ij <= len /\ snd ij <= len) cells ->
  a <= 2 * len -> b <= 2 * len ->
  mget (foldl (tileCell q len) out cells) a b =
    if bool_decide ((lag a len, lag b len) ∈ cells)
    then mget q (lag a len) (lag b len) else mget out a b.
Proof.
  induction cells as [|[i j] cells IH]; cbn [foldl]; intros out a b Hwf Hc Ha Hb.
  - done.
  - apply Forall_cons in Hc as [[Hi Hj] Hc]. cbn [fst snd] in *.
    rewrite IH; auto using wf_tileCell.
    rewrite mget_tileCell by done.
    destruct (Nat.leb_spec a (2 * len)); [|lia].
    destruct (Nat.leb_spec b (2 * len)); [|lia]. simpl.
    case_bool_decide as Hin.
    + rewrite bool_decide_true; [done|]. by right.
    + destruct (Nat.eqb_spec (lag a len) i) as [Ei|Ei]; simpl.
      * destruct (Nat.eqb_spec (lag b len) j) as [Ej|Ej].
        -- rewrite bool_decide_true; [by subst|]. subst. by left.
        -- rewrite bool_decide_false; [done|].
           intros [?|?]%elem_of_cons; simplify_eq.
      * rewrite bool_decide_false; [done|].
        intros [?|?]%elem_of_cons; simplify_eq.
Qed.

Lemma elem_of_nest i j rows cols : (i, j) ∈ nest rows cols <-> i ∈ rows /\ j ∈ cols.
Proof. unfold nest. rewrite !list_elem_of_In. apply in_prod_iff. Qed.

Lemma elem_of_pyRange k start stop : k ∈ pyRange start stop <-> start <= k < stop.
Proof. unfold pyRange. rewrite list_elem_of_In, in_seq. lia. Qed.

Lemma tileArray_spec q n :
  wf n n q -> 0 < n ->
  exists t, tileArray q = Return t /\ wf (2 * n - 1) (2 * n - 1) t /\
    forall a b, a < 2 * n - 1 -> b < 2 * n - 1 ->
      mget t a b = mget q (lag a (n - 1)) (lag b (n - 1)).
Proof.
  intros Hwf Hn. destruct n as [|len]; [lia|].
  unfold tileArray. destruct Hwf as [Hl Hr].
  assert (shape1 q = S len) as H1.
  { unfold shape1. destruct q as [|row q]; [done|]. by apply Forall_cons in Hr as [? _]. }
  unfold shape0. rewrite H1, Hl, Nat.eqb_refl. simpl negb. cbv iota.
  eexists. split; [reflexivity|].
  replace (2 * S len - 1) with (2 * len + 1) by lia.
  replace (S len - 1) with len by lia.
  split.
  - apply wf_tile_fold, wf_zeros.
  - intros a b Ha Hb. rewrite mget_tile_fold.
    + rewrite bool_decide_true; [done|].
      apply elem_of_nest. rewrite !elem_of_pyRange. unfold lag.
      destruct (Nat.ltb_spec a len), (Nat.ltb_spec b len); lia.
    + apply wf_zeros.
    + apply Forall_forall. intros [i j] [Hi Hj]%elem_of_nest.
      apply elem_of_pyRange in Hi, Hj. simpl. lia.
    + lia.
    + lia.
Qed.

(** C7. For a square quarter-matrix of side [n >= 1], [_tileArray] returns a
    [(2n-1) x (2n-1)] array that is unchanged by mirroring its columns about
    the centre column and by mirroring its rows about the centre row, and
    whose centre cell is the [[0, 0]] cell of the input. *)
Theorem tileArray_mirror_symmetric (quarter : matrix) (n : nat) :
  wf n n quarter -> 0 < n ->
  exists tiled, tileArray quarter = Return tiled /\
    wf (2 * n - 1) (2 * n - 1) tiled /\
    (forall a b, a < 2 * n - 1 -> b < 2 * n - 1 ->
       mget tiled a (2 * n - 2 - b) = mget tiled a b /\
       mget tiled (2 * n - 2 - a) b = mget tiled a b) /\
    mget tiled (n - 1) (n - 1) = mget quarter 0 0.
Proof.
  intros Hwf Hn.
  destruct (tileArray_spec quarter n Hwf Hn) as (tiled & Hrun & Hshape & Hcell).
  exists tiled. split; [exact Hrun|]. split; [exact Hshape|]. split.
  - intros a b Ha Hb. split.
    + rewrite !Hcell by lia. f_equal. unfold lag.
      destruct (Nat.ltb_spec (2 * n - 2 - b) (n - 1)), (Nat.ltb_spec b (n - 1)); lia.
    + rewrite !Hcell by lia. f_equal. unfold lag.
      destruct (Nat.ltb_spec (2 * n - 2 - a) (n - 1)), (Nat.ltb_spec a (n - 1)); lia.
  - rewrite Hcell by lia. unfold lag. rewrite Nat.ltb_irrefl.
    by replace (n - 1 - (n - 1)) with 0 by lia.
Qed.

Lemma tileArray_mirror_symmetric_witness :
  let quarter := [[1; 2]; [3; 4]]%Q in
  exists tiled, tileArray quarter = Return tiled /\
    wf (2 * 2 - 1) (2 * 2 - 1) tiled /\
    (forall a b, a < 2 * 2 - 1 -> b < 2 * 2 - 1 ->
       mget tiled a (2 * 2 - 2 - b) = mget tiled a b /\
       mget tiled (2 * 2 - 2 - a) b = mget tiled a b) /\
    mget tiled (2 - 1) (2 - 1) = mget quarter 0 0.
Proof.
  intros quarter. apply (tileArray_mirror_symmetric quarter 2).
  - split; [reflexivity | repeat constructor].
  - lia.
Defined.

(** ** Sums *)

Lemma sumQ_insert (l : list Q) j v : j < length l ->
  (sumQ (<[j := v]> l) == sumQ l - default 0 (l !! j) + v)%Q.
Proof.
  revert j. induction l as [|x l IH]; intros [|j] Hj; simpl in *; try lia.
  - ring.
  - rewrite IH by lia. ring.
Qed.

Lemma matSum_mset r c (m : matrix) i j v : wf r c m -> i < r -> j < c ->
  (matSum (mset m i j v) == matSum m - mget m i j + v)%Q.
Proof.
  intros [Hl Hr]. revert i r Hl.
  induction m as [|row m IH]; intros [|i] r Hl Hi Hj; simpl in *; try lia.
  - apply Forall_cons in Hr as [Hrow _].
    unfold matSum, mset, mget. simpl.
    rewrite sumQ_insert by lia. ring.
  - apply Forall_cons in Hr as [_ Hr].
    unfold matSum, mset, mget in *. simpl.
    rewrite (IH Hr i (length m)) by lia. ring.
Qed.

Lemma shape1_wf r c (m : matrix) : wf r c m -> 0 < r -> shape1 m = c.
Proof.
  intros [Hl Hr] Hpos. destruct m as [|row m]; simpl in *; [lia|].
  by apply Forall_cons in Hr as [? _].
Qed.

Lemma shape1_wf_square n (m : matrix) : wf n n m -> shape1 m = n.
Proof.
  intros Hwf. destruct n as [|n].
  - destruct Hwf as [Hl _]. by destruct m.
  - eapply shape1_wf; [done|lia].
Qed.

Lemma hasShape_wf r c (m : matrix) : wf r c m -> hasShape r c m = true.
Proof.
  intros [Hl Hr]. unfold hasShape. apply andb_true_intro. split.
  - by apply Nat.eqb_eq.
  - apply forallb_forall. intros row Hin. apply Nat.eqb_eq.
    rewrite Forall_forall in Hr. apply Hr. by apply list_elem_of_In.
Qed.

Lemma wf_zeros_like r c (m : matrix) : wf r c m -> wf r c (zeros_like m).
Proof.
  intros [Hl Hr]. split.
  - unfold zeros_like. by rewrite length_map.
  - unfold zeros_like. apply Forall_map. eapply Forall_impl; [exact Hr|].
    intros row Hrow. simpl. by rewrite length_map.
Qed.

Lemma wf_pad1 n (m : matrix) : wf n n m -> wf (n + 2) (n + 2) (pad1 m).
Proof.
  intros Hwf. pose proof (shape1_wf_square _ _ Hwf) as Hs.
  destruct Hwf as [Hl Hr]. unfold pad1. rewrite Hs. split.
  - simpl. rewrite length_app, length_map. simpl. lia.
  - apply Forall_cons. split; [by rewrite length_replicate|].
    apply Forall_app. split.
    + apply Forall_map. eapply Forall_impl; [exact Hr|].
      intros row Hrow. simpl in *. rewrite length_app. simpl. lia.
    + apply Forall_singleton. by rewrite length_replicate.
Qed.

Lemma wf_foldl_cells {A} r c (step : matrix -> A -> matrix) (cells : list A) :
  (forall m x, wf r c m -> wf r c (step m x)) ->
  forall m, wf r c m -> wf r c (foldl step m cells).
Proof.
  intros Hstep. induction cells as [|x cells IH]; cbn [foldl]; intros; [done|].
  by apply IH, Hstep.
Qed.

(** ** [averageCorrelations] *)

Section AverageCorrelations.

Variable meanClip : Q -> list Q -> Q.

Lemma averageCorrelations_returns config (xCorrList : list matrix) n :
  xCorrList <> [] -> Forall (wf n n) xCorrList ->
  exists meanXcorr, wf (n + 2) (n + 2) meanXcorr /\
    averageCorrelations meanClip config xCorrList =
      Return (mset meanXcorr ((n + 2 - 1) / 2) ((n + 2 - 1) / 2)
                (mget meanXcorr ((n + 2 - 1) / 2) ((n + 2 - 1) / 2) - matSum meanXcorr)%Q).
Proof.
  intros Hne Hall. destruct xCorrList as [|x0 rest]; [done|].
  pose proof (Forall_inv Hall) as Hx0.
  assert (shape0 x0 = n) as H0 by apply Hx0.
  pose proof (shape1_wf_square _ _ Hx0) as H1.
  unfold averageCorrelations. rewrite H0, H1.
  assert (forallb (hasShape n n) (x0 :: rest) = true) as ->.
  { apply forallb_forall. intros x Hin. apply hasShape_wf.
    rewrite Forall_forall in Hall. apply Hall. by apply list_elem_of_In. }
  rewrite Nat.eqb_refl, orb_true_r. cbn [negb].
  set (cells := nest _ _).
  set (mean := foldl _ _ cells).
  assert (wf n n mean) as Hmean.
  { apply wf_foldl_cells; [|by apply wf_zeros_like].
    intros m [i j] Hm. by apply wf_mset. }
  exists (pad1 mean). split; [by apply wf_pad1|].
  assert (shape0 (pad1 mean) = n + 2) as -> by apply (wf_pad1 _ _ Hmean).
  done.
Qed.



End AverageCorrelations.


(** ** Shapes through the relaxation *)

Lemma wf_relaxCell r c source omega fr ij :
  wf r c (fst fr) -> wf r c (snd fr) ->
  wf r c (fst (relaxCell source omega fr ij)) /\
  wf r c (snd (relaxCell source omega fr ij)).
Proof.
  destruct fr as [f rs], ij as [i j]. simpl. intros Hf Hr.
  split; by apply wf_mset.
Qed.

Lemma wf_relax_fold r c source omega cells : forall fr,
  wf r c (fst fr) -> wf r c (snd fr) ->
  wf r c (fst (foldl (relaxCell source omega) fr cells)) /\
  wf r c (snd (foldl (relaxCell source omega) fr cells)).
Proof.
  induction cells as [|ij cells IH]; cbn [foldl]; intros fr Hf Hr; [done|].
  destruct (wf_relaxCell r c source omega fr ij Hf Hr). by apply IH.
Qed.

Lemma wf_halfStep r c source omega k f rs :
  wf r c f -> wf r c rs ->
  wf r c (fst (halfStep source omega k f rs)) /\
  wf r c (snd (halfStep source omega k f rs)).
Proof.
  intros Hf Hr. unfold halfStep.
  destruct (k mod 2 =? 0);
    apply wf_relax_fold; by apply wf_relax_fold.
Qed.

Lemma wf_sorInit n source :
  wf n n source ->
  wf (n + 2) (n + 2) (func (sorInit source)) /\
  wf (n + 2) (n + 2) (resid (sorInit source)).
Proof.
  intros Hwf. pose proof (shape1_wf_square _ _ Hwf) as H1.
  assert (shape0 source = n) as H0 by apply Hwf.
  unfold sorInit. rewrite H0, H1. simpl. split; [apply wf_zeros|].
  apply wf_foldl_cells; [|apply wf_zeros].
  intros m [i j] Hm. by apply wf_mset.
Qed.

Lemma length_slice1 {A} (l : list A) : length (slice1 l) = length l - 2.
Proof. unfold slice1. rewrite length_take, length_drop. lia. Qed.

Lemma Forall_slice1 {A} (P : A -> Prop) (l : list A) :
  Forall P l -> Forall P (slice1 l).
Proof. intros. unfold slice1. by apply Forall_take, Forall_drop. Qed.

Lemma wf_interior n (m : matrix) : wf (n + 2) (n + 2) m -> wf n n (interior m).
Proof.
  intros [Hl Hr]. unfold interior. split.
  - rewrite length_map, length_slice1. lia.
  - apply Forall_map, Forall_slice1.
    eapply Forall_impl; [exact Hr|]. intros row Hrow. simpl in *.
    rewrite length_slice1. lia.
Qed.

(** ** The [while] loop *)

Section Loop.

Variables (source : matrix) (rhoSpe inError eLevel : Q) (maxIter : Z).

Lemma sorStep_cases st :
  (exists st', sorStep source rhoSpe inError eLevel st = Break st' /\
     nIter st' = nIter st /\ omega st' = omega st /\ is_Some (outError st') /\
     Qltb (matAbsSum (resid st')) (inError * eLevel) = true /\
     (func st', resid st') = halfStep source (omega st) (nIter st) (func st) (resid st)) \/
  (exists st', sorStep source rhoSpe inError eLevel st = Continue st' /\
     nIter st' = nIter st + 1 /\ is_Some (outError st') /\
     omega st' = (if nIter st =? 0 then 1 / (1 - rhoSpe * rhoSpe / 2)
                  else 1 / (1 - rhoSpe * rhoSpe * omega st / 4))%Q /\
     (func st', resid st') = halfStep source (omega st) (nIter st) (func st) (resid st)).
Proof.
  unfold sorStep.
  destruct (halfStep source (omega st) (nIter st) (func st) (resid st)) as [f' r'].
  destruct (Qltb (matAbsSum r') (inError * eLevel)) eqn:Hlt.
  - left. eexists. split; [reflexivity|]. simpl. eauto.
  - right. eexists. split; [reflexivity|]. simpl. eauto.
Qed.

(** With a budget of [maxIter*2 - nIter] passes the loop returns, in a state
    that satisfies every invariant of the loop body. *)
Lemma sorLoop_returns (P : sorState -> Prop) :
  (forall st st', P st ->
     (func st', resid st') = halfStep source (omega st) (nIter st) (func st) (resid st) ->
     P st') ->
  forall fuel st,
    P st -> (maxIter * 2 <= Z.of_nat (nIter st) + Z.of_nat fuel)%Z ->
    exists st', sorLoop fuel source rhoSpe inError eLevel maxIter st = Return st' /\
      P st' /\
      nIter st <= nIter st' /\
      (Z.of_nat (nIter st') <= Z.max (Z.of_nat (nIter st)) (maxIter * 2))%Z /\
      ((Z.of_nat (nIter st) < maxIter * 2)%Z -> is_Some (outError st')).
Proof.
  intros Hstep. induction fuel as [|fuel IH]; intros st HP Hfuel; cbn [sorLoop].
  - destruct (Z.ltb_spec (Z.of_nat (nIter st)) (maxIter * 2)); [lia|].
    exists st. repeat split; try done; lia.
  - destruct (Z.ltb_spec (Z.of_nat (nIter st)) (maxIter * 2)) as [Hlt|Hge].
    + destruct (sorStep_cases st) as [(st' & -> & Hn & _ & Ho & _ & Hhalf)
                                     |(st' & -> & Hn & Ho & _ & Hhalf)].
      * exists st'. repeat split; eauto; lia.
      * destruct (IH st') as (st'' & Hrun & HP'' & Hle & Hmax & _); eauto; [lia|].
        exists st''. repeat split; eauto; try lia. 
        intros _. 
        destruct (Z.ltb_spec (Z.of_nat (nIter st')) (maxIter * 2)) as [Hlt'|Hge'].
        -- destruct (IH st') as (st3 & Hrun3 & _ & _ & _ & Hsome); eauto; [lia|].
           rewrite Hrun in Hrun3. injection Hrun3 as <-. by apply Hsome.
        -- destruct fuel; cbn [sorLoop] in Hrun;
           destruct (Z.ltb_spec (Z.of_nat (nIter st')) (maxIter * 2)); try lia;
           by injection Hrun as <-.
    + exists st. repeat split; try done; lia.
Qed.

(** The fuel [successiveOverRelax] gives the loop always suffices, for every
    source and budget. *)
Lemma sorLoop_enough_fuel :
  exists st, sorLoop (Z.to_nat (maxIter * 2)) source rhoSpe inError eLevel maxIter
               (sorInit source) = Return st.
Proof.
  destruct (sorLoop_returns (fun _ => True))
    with (fuel := Z.to_nat (maxIter * 2)) (st := sorInit source)
    as (st & Hrun & _); [done|done|simpl; lia|].
  by exists st.
Qed.

End Loop.

(** ** The solver returns *)

Section SolverReturns.

Variable cosPiOver : nat -> Q.

Lemma half_to_nat_double (m : Z) : Z.to_nat (m * 2) / 2 = Z.to_nat m.
Proof.
  destruct (Z.le_gt_cases 0 m).
  - replace (Z.to_nat (m * 2)) with (Z.to_nat m * 2) by lia.
    by rewrite Nat.div_mul.
  - replace (Z.to_nat (m * 2)) with 0 by lia.
    replace (Z.to_nat m) with 0 by lia. done.
Qed.

Lemma successiveOverRelax_returns config source n maxIter eLevel :
  wf n n source -> 0 < n -> (0 < effMaxIter config maxIter)%Z ->
  let budget := effMaxIter config maxIter in
  exists st msg,
    sorLoop (Z.to_nat (budget * 2)) source (cosPiOver n)
      (matAbsSum (resid (sorInit source))) (effELevel config eLevel) budget
      (sorInit source) = Return st /\
    (Z.of_nat (nIter st) <= budget * 2)%Z /\
    successiveOverRelax cosPiOver config source maxIter eLevel
      = Return (interior (func st), msg) /\
    wf n n (interior (func st)) /\
    (msg = WarnSorFailure (nIter st / 2) \/ msg = InfoSorSuccess (nIter st / 2)).
Proof.
  intros Hwf Hn Hbudget budget.
  pose proof (shape1_wf_square _ _ Hwf) as H1.
  assert (shape0 source = n) as H0 by apply Hwf.
  destruct (wf_sorInit n source Hwf) as [Hf0 Hr0].
  destruct (sorLoop_returns source (cosPiOver n) (matAbsSum (resid (sorInit source)))
              (effELevel config eLevel) budget
              (fun st => wf (n + 2) (n + 2) (func st) /\ wf (n + 2) (n + 2) (resid st)))
    with (fuel := Z.to_nat (budget * 2)) (st := sorInit source)
    as (st & Hrun & [Hf Hr] & _ & Hmax & Hsome).
  - intros st st' [Hf Hr] Hhalf.
    pose proof (wf_halfStep (n + 2) (n + 2) source (omega st) (nIter st) _ _ Hf Hr) as Hw.
    rewrite <- Hhalf in Hw. exact Hw.
  - done.
  - simpl. lia.
  - destruct Hsome as [oe Hoe]; [simpl; lia|].
    simpl in Hmax.
    exists st, (if (Z.of_nat (nIter st) >=? budget * 2)%Z
                then WarnSorFailure (nIter st / 2) else InfoSorSuccess (nIter st / 2)).
    split; [exact Hrun|]. split; [lia|].
    unfold successiveOverRelax. rewrite H0, H1, Nat.eqb_refl.
    destruct (Nat.eqb_spec n 0); [lia|]. cbn [negb mbind outcome_bind].
    fold budget. rewrite Hrun. cbn [mbind outcome_bind]. rewrite Hoe.
    split; [|split; [by apply wf_interior|]].
    + by destruct (Z.of_nat (nIter st) >=? budget * 2)%Z.
    + destruct (Z.of_nat (nIter st) >=? budget * 2)%Z; eauto.
Qed.

End SolverReturns.

(** C9 (as amended). For a non-empty square source and a positive iteration
    budget, the loop of [successiveOverRelax] finishes within [2*maxIter]
    passes, each one half-step (it never runs out of that fuel), and the
    solver returns the interior of [func], of the shape of the source,
    after logging either the failure warning or the success message: it does
    not raise, converged or not. *)
Theorem successiveOverRelax_terminates (cosPiOver : nat -> Q) config
    (source : matrix) n maxIter eLevel :
  wf n n source -> 0 < n -> (0 < effMaxIter config maxIter)%Z ->
  exists st solution msg,
    sorLoop (Z.to_nat (effMaxIter config maxIter * 2)) source (cosPiOver n)
      (matAbsSum (resid (sorInit source))) (effELevel config eLevel)
      (effMaxIter config maxIter) (sorInit source) = Return st /\
    (Z.of_nat (nIter st) <= effMaxIter config maxIter * 2)%Z /\
    successiveOverRelax cosPiOver config source maxIter eLevel
      = Return (solution, msg) /\
    solution = interior (func st) /\
    wf n n solution /\
    (msg = WarnSorFailure (nIter st / 2) \/ msg = InfoSorSuccess (nIter st / 2)).
Proof.
  intros Hwf Hn Hbudget.
  destruct (successiveOverRelax_returns cosPiOver config source n maxIter eLevel
              Hwf Hn Hbudget) as (st & msg & Hloop & Hle & Hrun & Hshape & Hmsg).
  exists st, (interior (func st)), msg. auto 10.
Qed.

Lemma successiveOverRelax_terminates_witness :
  let source := [[0; 0; 0]; [0; 1; 0]; [0; 0; 0]]%Q in
  exists st solution msg,
    sorLoop (Z.to_nat (effMaxIter defaultConfig (Some 2%Z) * 2)) source (cosPiOverQ 3)
      (matAbsSum (resid (sorInit source))) (effELevel defaultConfig None)
      (effMaxIter defaultConfig (Some 2%Z)) (sorInit source) = Return st /\
    (Z.of_nat (nIter st) <= effMaxIter defaultConfig (Some 2%Z) * 2)%Z /\
    successiveOverRelax cosPiOverQ defaultConfig source (Some 2%Z) None
      = Return (solution, msg) /\
    solution = interior (func st) /\
    wf 3 3 solution /\
    (msg = WarnSorFailure (nIter st / 2) \/ msg = InfoSorSuccess (nIter st / 2)).
Proof.
  intros source.
  apply (successiveOverRelax_terminates cosPiOverQ defaultConfig source 3 (Some 2%Z) None).
  - split; [reflexivity | repeat constructor].
  - lia.
  - reflexivity.
Defined.

(** C9, counterexample to the claim as stated: the empty array is square
    (its two dimensions are 0), and on it the solver raises
    [ZeroDivisionError] when it computes [np.pi/source.shape[0]]; with a
    budget that is not positive the loop body never runs and the log call
    after the loop reads the unbound [outError]. *)
Lemma successiveOverRelax_raises :
  wf 0 0 [] /\
  successiveOverRelax cosPiOverQ defaultConfig [] None None = Raise ZeroDivisionError /\
  successiveOverRelax cosPiOverQ defaultConfig [[1%Q]] (Some (-1)%Z) None
    = Raise (UnboundLocalError "outError").
Proof. split; [by split|]. split; reflexivity. Qed.

(** ** The relaxation parameter *)

Section Omega.

Variables (source : matrix) (rhoSpe inError eLevel : Q).

(** After [k] passes through the loop body, none of which left the loop,
    [omega] is the [k]-th value of the Chebyshev sequence. *)
Lemma sorIterate_omega k st :
  sorIterate source rhoSpe inError eLevel k (sorInit source) = Some st ->
  nIter st = k /\ omega st = chebyshevOmega rhoSpe k.
Proof.
  revert st. induction k as [|k IH]; intros st Hrun.
  - injection Hrun as <-. done.
  - cbn [sorIterate] in Hrun.
    destruct (sorIterate source rhoSpe inError eLevel k (sorInit source))
      as [st'|] eqn:Hk; [|done].
    destruct (IH st' eq_refl) as [Hn Ho].
    destruct (sorStep_cases source rhoSpe inError eLevel st')
      as [(st2 & Hs & _)|(st2 & Hs & Hn2 & _ & Ho2 & _)];
      rewrite Hs in Hrun; [done|].
    injection Hrun as <-. split; [lia|].
    rewrite Ho2, Hn, Ho. by destruct k.
Qed.

(** The loop itself: in every state it passes through, [omega] is the
    Chebyshev value of [nIter], and the arrays are those of [nIter]
    half-steps run with the successive Chebyshev values.  When the loop is
    left by [break], one more half-step has run than [nIter] counts. *)
Lemma sorLoop_schedule maxIter : forall fuel st st',
  omega st = chebyshevOmega rhoSpe (nIter st) ->
  (func st, resid st) = relaxed source (chebyshevOmega rhoSpe) (nIter st) ->
  sorLoop fuel source rhoSpe inError eLevel maxIter st = Return st' ->
  omega st' = chebyshevOmega rhoSpe (nIter st') /\
  (((maxIter * 2 <= Z.of_nat (nIter st'))%Z /\
    (func st', resid st') = relaxed source (chebyshevOmega rhoSpe) (nIter st')) \/
   ((Z.of_nat (nIter st') < maxIter * 2)%Z /\
    (func st', resid st') = relaxed source (chebyshevOmega rhoSpe) (nIter st' + 1))).
Proof.
  induction fuel as [|fuel IH]; intros st st' Ho Hfr; cbn [sorLoop];
    destruct (Z.ltb_spec (Z.of_nat (nIter st)) (maxIter * 2)) as [Hlt|Hge]; try done;
    try (intros [= <-]; split; [done|]; left; by split).
  assert (halfStep source (omega st) (nIter st) (func st) (resid st)
          = relaxed source (chebyshevOmega rhoSpe) (nIter st + 1)) as Hnext.
  { rewrite Nat.add_1_r. cbn [relaxed]. by rewrite <- Hfr, Ho. }
  destruct (sorStep_cases source rhoSpe inError eLevel st)
    as [(st1 & -> & Hn & Ho1 & _ & _ & Hhalf)|(st1 & -> & Hn & _ & Ho1 & Hhalf)].
  - intros [= <-]. split; [by rewrite Ho1, Hn|]. right.
    split; [lia|]. by rewrite Hhalf, Hn.
  - apply IH.
    + rewrite Ho1, Hn, Ho, Nat.add_1_r. by destruct (nIter st).
    + by rewrite Hhalf, Hn.
Qed.

End Omega.

(** C4 (as amended). Whenever [successiveOverRelax] returns, with
    [rho = np.cos(np.pi/source.shape[0])]: the relaxation parameter follows
    the Chebyshev sequence for [rho] (1 at the start, [1/(1 - rho^2/2)] after
    the first step, [1/(1 - rho^2*omega/4)] from its previous value
    afterwards) and is recomputed after every half-step that does not end
    the loop.  The arrays the loop ends with are those of [k] half-steps, of
    which number [j] (from 0) was run with the [j]-th value of the sequence,
    and [omega] ends as the value of index [nIter]; [k] is [nIter] when the
    loop ended by its condition, and [nIter + 1] when it ended by [break]. *)
Theorem omega_chebyshev_per_half_step (cosPiOver : nat -> Q) config
    (source : matrix) maxIter eLevel solution msg :
  successiveOverRelax cosPiOver config source maxIter eLevel = Return (solution, msg) ->
  let rho := cosPiOver (shape0 source) in
  exists st k,
    sorLoop (Z.to_nat (effMaxIter config maxIter * 2)) source rho
      (matAbsSum (resid (sorInit source))) (effELevel config eLevel)
      (effMaxIter config maxIter) (sorInit source) = Return st /\
    omega st = chebyshevOmega rho (nIter st) /\
    (func st, resid st) = relaxed source (chebyshevOmega rho) k /\
    solution = interior (func st) /\
    ((msg = WarnSorFailure (nIter st / 2) /\ k = nIter st) \/
     (msg = InfoSorSuccess (nIter st / 2) /\ k = nIter st + 1)).
Proof.
  intros Hrun rho. unfold successiveOverRelax in Hrun.
  destruct (negb (shape0 source =? shape1 source)); [done|].
  destruct (shape0 source =? 0); [done|]. cbn [mbind outcome_bind mret outcome_ret] in Hrun.
  fold rho in Hrun.
  destruct (sorLoop _ source rho _ _ _ (sorInit source)) as [st| |] eqn:Hloop;
    cbn [mbind outcome_bind] in Hrun; try done.
  destruct (sorLoop_schedule source rho (matAbsSum (resid (sorInit source)))
              (effELevel config eLevel) (effMaxIter config maxIter)
              (Z.to_nat (effMaxIter config maxIter * 2)) (sorInit source) st)
    as [Ho Hexit]; [reflexivity | reflexivity | exact Hloop |].
  destruct (outError st); [|done].
  destruct Hexit as [[Hend Hfr]|[Hmid Hfr]].
  - destruct (Z.geb_spec (Z.of_nat (nIter st)) (effMaxIter config maxIter * 2)); [|lia].
    injection Hrun as <- <-. exists st, (nIter st). auto 10.
  - destruct (Z.geb_spec (Z.of_nat (nIter st)) (effMaxIter config maxIter * 2)); [lia|].
    injection Hrun as <- <-. exists st, (nIter st + 1). auto 10.
Qed.

Lemma omega_chebyshev_per_half_step_witness :
  let source := [[0; 0; 0]; [0; 1; 0]; [0; 0; 0]]%Q in
  let rho := cosPiOverQ (shape0 source) in
  exists solution msg,
    successiveOverRelax cosPiOverQ defaultConfig source (Some 1%Z) None
      = Return (solution, msg) /\
    exists st k,
      sorLoop (Z.to_nat (effMaxIter defaultConfig (Some 1%Z) * 2)) source rho
        (matAbsSum (resid (sorInit source))) (effELevel defaultConfig None)
        (effMaxIter defaultConfig (Some 1%Z)) (sorInit source) = Return st /\
      omega st = chebyshevOmega rho (nIter st) /\
      (func st, resid st) = relaxed source (chebyshevOmega rho) k /\
      solution = interior (func st) /\
      ((msg = WarnSorFailure (nIter st / 2) /\ k = nIter st) \/
       (msg = InfoSorSuccess (nIter st / 2) /\ k = nIter st + 1)).
Proof.
  intros source rho. eexists. eexists.
  split; [vm_compute; reflexivity|].
  eapply (omega_chebyshev_per_half_step cosPiOverQ defaultConfig source (Some 1%Z) None).
  vm_compute. reflexivity.
Defined.

(** C4, counterexample to the claim as stated: on a 3 x 3 unit impulse, with
    [rho = cos(pi/3) = 1/2], the second half-step of the first red-black
    sweep already runs with [omega = 8/7], not with the 1 of the first
    half-step: [omega] changes inside a pair of half-steps. *)
Lemma omega_changes_within_pair :
  let source := [[0; 0; 0]; [0; 1; 0]; [0; 0; 0]]%Q in
  exists st1,
    sorIterate source (cosPiOverQ 3) 1 (1 # 1000) 1 (sorInit source) = Some st1 /\
    nIter st1 = 1 /\
    (omega (sorInit source) == 1)%Q /\ (omega st1 == 8 # 7)%Q /\
    ~ (omega st1 == omega (sorInit source))%Q.
Proof.
  intros source. eexists. split; [vm_compute; reflexivity|].
  split; [reflexivity|]. split; [reflexivity|]. split; [reflexivity|].
  intros H. vm_compute in H. discriminate H.
Qed.

(** ** A source that is zero everywhere *)

Lemma mget_allZero (m : matrix) i j : allZero m -> (mget m i j == 0)%Q.
Proof.
  intros Hz. unfold mget.
  destruct (m !! i) as [row|] eqn:Hi; [|reflexivity].
  destruct (row !! j) as [x|] eqn:Hj; [|reflexivity]. simpl.
  unfold allZero in Hz. rewrite Forall_lookup in Hz.
  specialize (Hz _ _ Hi). rewrite Forall_lookup in Hz. exact (Hz _ _ Hj).
Qed.

Lemma allZero_mset (m : matrix) i j v : allZero m -> (v == 0)%Q -> allZero (mset m i j v).
Proof.
  intros Hz Hv. unfold allZero, mset. apply Forall_alter; [exact Hz|].
  intros row _ Hrow. by apply Forall_insert.
Qed.

Lemma allZero_zeros r c : allZero (zeros r c).
Proof.
  unfold allZero, zeros. apply Forall_replicate, Forall_replicate. reflexivity.
Qed.

Lemma sumQ_zero (l : list Q) : Forall (fun x => (x == 0)%Q) l -> (sumQ l == 0)%Q.
Proof.
  induction 1 as [|x l Hx _ IH]; simpl; [reflexivity|].
  rewrite Hx, IH. ring.
Qed.

Lemma matAbsSum_allZero (m : matrix) : allZero m -> (matAbsSum m == 0)%Q.
Proof.
  intros Hz. unfold matAbsSum, matSum, mmap. apply sumQ_zero.
  apply Forall_map, Forall_map. eapply Forall_impl; [exact Hz|].
  intros row Hrow. simpl. apply sumQ_zero, Forall_map.
  eapply Forall_impl; [exact Hrow|]. intros x Hx. simpl. by rewrite Hx.
Qed.

Lemma allZero_interior (m : matrix) : allZero m -> allZero (interior m).
Proof.
  intros Hz. unfold allZero, interior. apply Forall_map, Forall_slice1.
  eapply Forall_impl; [exact Hz|]. intros row Hrow. by apply Forall_slice1.
Qed.

Section ZeroSource.

Variable source : matrix.
Hypothesis source_zero : allZero source.

Lemma residual0_zero f i j : allZero f -> (residual0 f source i j == 0)%Q.
Proof using source_zero.
  intros Hf. unfold residual0.
  rewrite !(mget_allZero f) by done. rewrite (mget_allZero source) by done. ring.
Qed.

Lemma residual_zero f i j : allZero f -> (residual f source i j == 0)%Q.
Proof using source_zero.
  intros Hf. unfold residual.
  rewrite !(mget_allZero f) by done. rewrite (mget_allZero source) by done. ring.
Qed.

Lemma allZero_relax_fold w cells : forall fr,
  allZero (fst fr) -> allZero (snd fr) ->
  allZero (fst (foldl (relaxCell source w) fr cells)) /\
  allZero (snd (foldl (relaxCell source w) fr cells)).
Proof using source_zero.
  induction cells as [|[i j] cells IH]; cbn [foldl]; intros [f rs] Hf Hr; [done|].
  simpl in Hf, Hr. apply IH; simpl.
  - apply allZero_mset; [done|].
    rewrite (mget_allZero f) by done.
    rewrite (mget_allZero (mset rs i j _)).
    + ring.
    + apply allZero_mset; [done|]. by apply residual_zero.
  - apply allZero_mset; [done|]. by apply residual_zero.
Qed.

Lemma allZero_halfStep w k f rs :
  allZero f -> allZero rs ->
  allZero (fst (halfStep source w k f rs)) /\
  allZero (snd (halfStep source w k f rs)).
Proof using source_zero.
  intros Hf Hr. unfold halfStep.
  destruct (k mod 2 =? 0); apply allZero_relax_fold; by apply allZero_relax_fold.
Qed.

Lemma allZero_sorInit :
  allZero (func (sorInit source)) /\ allZero (resid (sorInit source)).
Proof using source_zero.
  unfold sorInit. simpl. split; [apply allZero_zeros|].
  generalize (nest (pyRange 1 (shape0 (zeros (shape0 source + 2) (shape1 source + 2)) - 1))
                   (pyRange 1 (shape1 (zeros (shape0 source + 2) (shape1 source + 2)) - 1))).
  intros cells.
  assert (forall rs, allZero rs ->
            allZero (foldl (initCell (zeros (shape0 source + 2) (shape1 source + 2)) source)
                       rs cells)) as H.
  { induction cells as [|[i j] cells IH]; cbn [foldl]; intros rs Hrs; [done|].
    apply IH. apply allZero_mset; [done|]. apply residual0_zero, allZero_zeros. }
  apply H, allZero_zeros.
Qed.

(** The convergence test [outError < inError*eLevel] fails when both sums
    are zero. *)
Lemma Qltb_zero x y e : (x == 0)%Q -> (y == 0)%Q -> Qltb x (y * e) = false.
Proof.
  intros Hx Hy. unfold Qltb. apply negb_false_iff, Qle_bool_iff.
  rewrite Hx, Hy. ring_simplify. apply Qle_refl.
Qed.

Variables (rhoSpe inError eLevel : Q) (maxIter : Z).
Hypothesis inError_zero : (inError == 0)%Q.

Lemma sorLoop_zero_source : forall fuel st,
  allZero (func st) -> allZero (resid st) ->
  (Z.of_nat (nIter st) + Z.of_nat fuel = maxIter * 2)%Z ->
  exists st', sorLoop fuel source rhoSpe inError eLevel maxIter st = Return st' /\
    allZero (func st') /\
    (Z.of_nat (nIter st') = maxIter * 2)%Z /\
    (0 < fuel -> is_Some (outError st')).
Proof using source_zero inError_zero.
  induction fuel as [|fuel IH]; intros st Hf Hr Hfuel; cbn [sorLoop].
  - destruct (Z.ltb_spec (Z.of_nat (nIter st)) (maxIter * 2)); [lia|].
    exists st. repeat split; try done; lia.
  - destruct (Z.ltb_spec (Z.of_nat (nIter st)) (maxIter * 2)); [|lia].
    pose proof (allZero_halfStep (omega st) (nIter st) _ _ Hf Hr) as [Hf' Hr'].
    destruct (sorStep_cases source rhoSpe inError eLevel st)
      as [(st' & Hs & _ & _ & _ & Hlt & Hhalf)|(st' & Hs & Hn & Ho & _ & Hhalf)].
    + rewrite <- Hhalf in Hr'. simpl in Hr'.
      rewrite Qltb_zero in Hlt; [done| |done]. by apply matAbsSum_allZero.
    + rewrite Hs. rewrite <- Hhalf in Hf', Hr'. simpl in Hf', Hr'.
      destruct (IH st' Hf' Hr') as (st'' & Hrun & Hz & Hend & Hsome); [lia|].
      exists st''. repeat split; try done.
      intros _. destruct fuel as [|fuel']; [|apply Hsome; lia].
      cbn [sorLoop] in Hrun.
      destruct (Z.ltb_spec (Z.of_nat (nIter st')) (maxIter * 2)); [lia|].
      by injection Hrun as <-.
Qed.

End ZeroSource.

(** C10 (as amended). On a non-empty square source that is zero everywhere,
    with a positive iteration budget: the initial residual sum [inError] is 0, the
    convergence test never succeeds, so the loop runs all [2*maxIter]
    half-steps; the solver logs the failure warning and returns an array of
    the shape of the source that is zero everywhere. *)
Theorem successiveOverRelax_zero_source (cosPiOver : nat -> Q) config
    (source : matrix) n maxIter eLevel :
  wf n n source -> 0 < n -> allZero source ->
  (0 < effMaxIter config maxIter)%Z ->
  (matAbsSum (resid (sorInit source)) == 0)%Q /\
  exists st solution,
    sorLoop (Z.to_nat (effMaxIter config maxIter * 2)) source (cosPiOver n)
      (matAbsSum (resid (sorInit source))) (effELevel config eLevel)
      (effMaxIter config maxIter) (sorInit source) = Return st /\
    (Z.of_nat (nIter st) = effMaxIter config maxIter * 2)%Z /\
    successiveOverRelax cosPiOver config source maxIter eLevel
      = Return (solution, WarnSorFailure (Z.to_nat (effMaxIter config maxIter))) /\
    wf n n solution /\ allZero solution.
Proof.
  intros Hwf Hn Hzero Hbudget.
  destruct (allZero_sorInit source Hzero) as [Hf0 Hr0].
  pose proof (matAbsSum_allZero _ Hr0) as Hin.
  split; [exact Hin|].
  destruct (successiveOverRelax_returns cosPiOver config source n maxIter eLevel
              Hwf Hn Hbudget) as (st & msg & Hloop & _ & Hrun & Hshape & Hmsg).
  destruct (sorLoop_zero_source source Hzero (cosPiOver n)
              (matAbsSum (resid (sorInit source))) (effELevel config eLevel)
              (effMaxIter config maxIter) Hin
              (Z.to_nat (effMaxIter config maxIter * 2)) (sorInit source) Hf0 Hr0)
    as (st' & Hloop' & Hz & Hend & _); [simpl; lia|].
  rewrite Hloop in Hloop'. injection Hloop' as <-.
  exists st, (interior (func st)). split; [exact Hloop|]. split; [exact Hend|].
  split; [|split; [exact Hshape | by apply allZero_interior]].
  rewrite Hrun. f_equal. f_equal.
  assert (nIter st / 2 = Z.to_nat (effMaxIter config maxIter)) as Hhalf.
  { replace (nIter st) with (Z.to_nat (effMaxIter config maxIter * 2)) by lia.
    apply half_to_nat_double. }
  assert (msg = WarnSorFailure (nIter st / 2)) as ->; [|by rewrite Hhalf].
  revert Hrun. unfold successiveOverRelax.
  assert (shape0 source = n) as -> by apply Hwf.
  rewrite (shape1_wf_square _ _ Hwf), Nat.eqb_refl.
  destruct (Nat.eqb_spec n 0); [lia|]. cbn [negb mbind outcome_bind].
  rewrite Hloop. cbn [mbind outcome_bind].
  destruct (outError st); [|done].
  destruct (Z.geb_spec (Z.of_nat (nIter st)) (effMaxIter config maxIter * 2)); [|lia].
  by intros [= <-].
Qed.

Lemma successiveOverRelax_zero_source_witness :
  let source := [[0; 0]; [0; 0]]%Q in
  (matAbsSum (resid (sorInit source)) == 0)%Q /\
  exists st solution,
    sorLoop (Z.to_nat (effMaxIter defaultConfig (Some 3%Z) * 2)) source (cosPiOverQ 2)
      (matAbsSum (resid (sorInit source))) (effELevel defaultConfig None)
      (effMaxIter defaultConfig (Some 3%Z)) (sorInit source) = Return st /\
    (Z.of_nat (nIter st) = effMaxIter defaultConfig (Some 3%Z) * 2)%Z /\
    successiveOverRelax cosPiOverQ defaultConfig source (Some 3%Z) None
      = Return (solution, WarnSorFailure (Z.to_nat (effMaxIter defaultConfig (Some 3%Z)))) /\
    wf 2 2 solution /\ allZero solution.
Proof.
  intros source.
  apply (successiveOverRelax_zero_source cosPiOverQ defaultConfig source 2 (Some 3%Z) None).
  - split; [reflexivity | repeat constructor].
  - lia.
  - repeat constructor.
  - reflexivity.
Defined.

(** C10, counterexample to the claim as stated: the empty array is zero
    everywhere, and on it the solver raises [ZeroDivisionError] instead of
    returning; on the 2 x 2 array of zeros with an iteration budget of 0 the
    loop body never runs, no half-step is made and the log call reads the
    unbound [outError]. *)
Lemma zero_source_raises :
  allZero [] /\
  successiveOverRelax cosPiOverQ defaultConfig [] None None = Raise ZeroDivisionError /\
  allZero [[0; 0]; [0; 0]]%Q /\
  successiveOverRelax cosPiOverQ (configWith AMP [] 0) [[0; 0]; [0; 0]]%Q None None
    = Raise (UnboundLocalError "outError").
Proof.
  split; [constructor|]. split; [reflexivity|].
  split; [repeat constructor|]. reflexivity.
Qed.

(** ** The loop over the samples of one amplifier *)

Lemma Qltb_lt x y : Qltb x y = true <-> (x < y)%Q.
Proof.
  unfold Qltb. rewrite negb_true_iff, <- not_true_iff_false, Qle_bool_iff.
  split; [apply Qnot_le_lt | apply Qlt_not_le].
Qed.

Lemma sampleStep_self_term_positive config ampName gain st xcorrNum
    (xcorr : matrix) flux var :
  2 <= shape0 xcorr -> 2 <= shape1 xcorr ->
  (0 < selfTerm gain xcorr flux)%Q ->
  sampleStep config ampName gain st (xcorrNum, (xcorr, flux, var)) =
    Return {| scaledCorrList := scaledCorrList st;
              lastScaled := lastScaled st;
              sampleLog := sampleLog st ++ [WarnSelfTermSkipped ampName xcorrNum] |}.
Proof.
  intros H0 H1 Hpos. unfold sampleStep.
  assert (shape0 (rescale gain xcorr) = shape0 xcorr) as ->.
  { unfold rescale, mmap, shape0. by rewrite !length_map. }
  assert (shape1 (rescale gain xcorr) = shape1 xcorr) as ->.
  { unfold rescale, mmap, shape1. destruct xcorr; simpl; [done|]. by rewrite !length_map. }
  destruct (Nat.leb_spec 2 (shape0 xcorr)); [|lia].
  destruct (Nat.leb_spec 2 (shape1 xcorr)); [|lia]. simpl.
  apply Qltb_lt in Hpos. by rewrite Hpos.
Qed.

Lemma sampleStep_accepts config ampName gain st xcorrNum (xcorr : matrix) flux var st' :
  sampleStep config ampName gain st (xcorrNum, (xcorr, flux, var)) = Return st' ->
  scaledCorrList st' = scaledCorrList st \/
  ((selfTerm gain xcorr flux <= 0)%Q /\
   exists t, tileArray (normalised gain xcorr flux) = Return t /\
     scaledCorrList st' = scaledCorrList st ++ [t]).
Proof.
  unfold sampleStep.
  destruct (negb _); [done|].
  destruct (Qltb 0 (selfTerm gain xcorr flux)) eqn:Hself.
  - intros [= <-]. by left.
  - destruct (tileArray (normalised gain xcorr flux)) as [t| |]; cbn [mbind outcome_bind]; try done.
    destruct (gtNaN _ _).
    + intros [= <-]. by left.
    + intros [= <-]. right. split.
      * apply Qnot_lt_le. intros Hlt%Qltb_lt. congruence.
      * by exists t.
Qed.

(** C2 (as amended). Whatever the samples of an amplifier are, every array
    in the accepted list [scaledCorrList] is the tiled, normalised array of a
    sample whose zero-lag entry after subtracting [2*flux] is not positive:
    a sample for which that entry is strictly positive is never accepted.
    (An entry of exactly 0 passes this check.) *)
Theorem self_term_rejection config ampName gain
    (samples : list (matrix * Q * Q)) st0 st :
  forM (sampleStep config ampName gain) st0 (enumerate1 samples) = Return st ->
  exists accepted,
    scaledCorrList st = scaledCorrList st0 ++ accepted /\
    Forall (fun t => exists xcorr flux var,
              (xcorr, flux, var) ∈ samples /\
              (selfTerm gain xcorr flux <= 0)%Q /\
              tileArray (normalised gain xcorr flux) = Return t) accepted.
Proof.
  unfold enumerate1. generalize (seq 1 (length samples)) as nums.
  intros nums.
  assert (forall l : list (nat * (matrix * Q * Q)),
            (forall p, p ∈ l -> snd p ∈ samples) ->
            forall st0 st,
              forM (sampleStep config ampName gain) st0 l = Return st ->
              exists accepted,
                scaledCorrList st = scaledCorrList st0 ++ accepted /\
                Forall (fun t => exists xcorr flux var,
                          (xcorr, flux, var) ∈ samples /\
                          (selfTerm gain xcorr flux <= 0)%Q /\
                          tileArray (normalised gain xcorr flux) = Return t) accepted) as Hgen.
  { clear. induction l as [|[num [[xcorr flux] var]] l IH]; intros Hin st0 st Hrun.
    - injection Hrun as <-. exists []. by rewrite app_nil_r.
    - cbn [forM] in Hrun.
      destruct (sampleStep config ampName gain st0 (num, (xcorr, flux, var)))
        as [st1| |] eqn:Hstep; cbn [mbind outcome_bind] in Hrun; try done.
      destruct (IH (fun p Hp => Hin p (list_elem_of_further _ _ _ Hp)) st1 st Hrun)
        as (acc & Hacc & Hall).
      destruct (sampleStep_accepts _ _ _ _ _ _ _ _ _ Hstep)
        as [Hsame|(Hle & t & Ht & Happ)].
      + exists acc. by rewrite Hacc, Hsame.
      + exists (t :: acc). split.
        * by rewrite Hacc, Happ, <- app_assoc.
        * apply Forall_cons. split; [|done].
          exists xcorr, flux, var. split; [|done].
          apply (Hin (num, (xcorr, flux, var))). by left. }
  apply Hgen. intros [num s] Hp. simpl. by apply elem_of_zip_r in Hp.
Qed.

Lemma self_term_rejection_witness :
  let samples := [([[2; 0]; [0; 0]], 1, 2); ([[1; 1]; [1; 3]], 2, 3)]%Q in
  let st0 := {| scaledCorrList := []; lastScaled := None; sampleLog := [] |} in
  exists st,
    forM (sampleStep defaultConfig "C00" 1) st0 (enumerate1 samples) = Return st /\
    exists accepted,
      scaledCorrList st = scaledCorrList st0 ++ accepted /\
      Forall (fun t => exists xcorr flux var,
                (xcorr, flux, var) ∈ samples /\
                (selfTerm 1 xcorr flux <= 0)%Q /\
                tileArray (normalised 1 xcorr flux) = Return t) accepted.
Proof.
  intros samples st0. eexists. split; [vm_compute; reflexivity|].
  apply (self_term_rejection defaultConfig "C00" 1 samples st0).
  vm_compute. reflexivity.
Defined.

(** C2, counterexample to the claim as stated: with gain 1, flux 1 and the
    covariance [[1, 1], [1, 1]] the zero-lag entry after subtracting
    [2*flux] is exactly 0; the check [q[0][0] > 0.0] lets the sample pass, its
    triangle ratio is 1, and it ends up in the accepted list. *)
Lemma self_term_zero_is_accepted :
  let xcorr := [[1; 1]; [1; 1]]%Q in
  let st0 := {| scaledCorrList := []; lastScaled := None; sampleLog := [] |} in
  (selfTerm 1 xcorr 1 == 0)%Q /\
  exists st tiled,
    forM (sampleStep defaultConfig "C00" 1) st0 (enumerate1 [(xcorr, 1%Q, 1%Q)])
      = Return st /\
    tileArray (normalised 1 xcorr 1) = Return tiled /\
    scaledCorrList st = [tiled].
Proof.
  intros xcorr st0. split; [reflexivity|].
  eexists. eexists. split; [vm_compute; reflexivity|]. split; vm_compute; reflexivity.
Qed.

(** ** [run]: amplifiers whose samples are all rejected *)

(** C3, the code at the failing input.  One amplifier with one sample whose
    self term is positive ([2*2 - 2*1 = 2]): the sample is skipped before
    [scaled] is ever assigned, the accepted list is empty, and
    [np.zeros_like(np.pad(scaled, ((1, 1))))] reads the unbound local. *)
Theorem run_all_rejected_raises (meanClip : Q -> list Q -> Q) (cosPiOver : nat -> Q) :
  run meanClip cosPiOver defaultConfig
      (onePtc "C00" [[2; 0]; [0; 0]]%Q 1 2)
      {| detName := "R22_S11"; ampNames := ["C00"] |}
    = Raise (UnboundLocalError "scaled").
Proof. reflexivity. Qed.

(** The same amplifier after one that produced a tiled array: [scaled]
    still holds the array of the earlier amplifier, and the zero kernel is
    emitted with the warning, as intended. *)
Lemma run_all_rejected_later_amp :
  exists bfk log,
    run plainMean cosPiOverQ (configWith AMP [] 1)
        (joinPtc (onePtc "C00" [[1; 1]; [1; 1]]%Q 1 2)
                 (onePtc "C01" [[2; 0]; [0; 0]]%Q 1 2))
        {| detName := "R22_S11"; ampNames := ["C00"; "C01"] |}
      = Return (bfk, log) /\
    ampKernels bfk !! "C01" = Some (zeros 5 5) /\
    WarnAllRejected "C01" ∈ log.
Proof.
  eexists. eexists. split; [vm_compute; reflexivity|].
  split; [vm_compute; reflexivity|].
  apply list_elem_of_In. vm_compute. tauto.
Qed.

(** ** [run]: the detector kernel *)

(** [run] never reads [ignoreAmpsForAveraging]. *)
Lemma run_independent_of_ignored (meanClip : Q -> list Q -> Q)
    (cosPiOver : nat -> Q) lvl ignored maxIter inputPtc detector :
  run meanClip cosPiOver (configWith lvl ignored maxIter) inputPtc detector
  = run meanClip cosPiOver (configWith lvl [] maxIter) inputPtc detector.
Proof. reflexivity. Qed.

(** C8, the code at the failing input.  Level [DETECTOR], amplifier [C00]
    in the exclusion list: its accepted sample is pooled into
    [detectorCorrList], and the detector kernel is computed from it. *)
Theorem detector_pool_has_ignored_amp :
  let config := configWith DETECTOR ["C00"] 1 in
  let inputPtc := onePtc "C00" [[1; 1]; [1; 1]]%Q 1 2 in
  "C00" ∈ ignoreAmpsForAveraging config /\
  exists st tiled bfk log,
    forM (ampStep plainMean cosPiOverQ config inputPtc) runInit ["C00"] = Return st /\
    tileArray (normalised 1 [[1; 1]; [1; 1]]%Q 1) = Return tiled /\
    detectorCorrList st = [tiled] /\
    run plainMean cosPiOverQ config inputPtc
        {| detName := "R22_S11"; ampNames := ["C00"] |} = Return (bfk, log) /\
    is_Some (detKernels bfk !! "R22_S11").
Proof.
  intros config inputPtc. split; [by left|].
  eexists. eexists. eexists. eexists.
  split; [vm_compute; reflexivity|].
  split; [vm_compute; reflexivity|].
  split; [vm_compute; reflexivity|].
  split; [vm_compute; reflexivity|].
  vm_compute. eauto.
Qed.

(** ** The flux acceptance window and the sigma-clip correction *)

Module PtcFacts.
Import Ptc.

(** A finite mean signal on either bound of the window is masked, whatever
    the other inputs are. *)
Lemma expIdMaskOf_on_bound (muDiff : Q) (varDiff : float) covIsNone
    (minSignal maxSignal : Q) :
  (muDiff == minSignal)%Q \/ (muDiff == maxSignal)%Q ->
  expIdMaskOf (Some muDiff) varDiff covIsNone minSignal maxSignal = false.
Proof.
  intros Hb. unfold expIdMaskOf, leNaN, geNaN.
  assert (Qle_bool muDiff minSignal || Qle_bool maxSignal muDiff = true) as ->; [|done].
  apply orb_true_iff.
  destruct Hb as [Hb|Hb]; [left|right]; apply Qle_bool_iff; rewrite Hb; apply Qle_refl.
Qed.

(** A finite mean signal strictly inside the window, with a finite variance
    and a covariance list, is kept. *)
Lemma expIdMaskOf_inside (muDiff varDiff minSignal maxSignal : Q) :
  (minSignal < muDiff)%Q -> (muDiff < maxSignal)%Q ->
  expIdMaskOf (Some muDiff) (Some varDiff) false minSignal maxSignal = true.
Proof.
  intros Hlo Hhi. unfold expIdMaskOf, leNaN, geNaN. simpl.
  assert (Qle_bool muDiff minSignal = false) as ->.
  { apply not_true_iff_false. rewrite Qle_bool_iff. by apply Qlt_not_le. }
  assert (Qle_bool maxSignal muDiff = false) as ->.
  { apply not_true_iff_false. rewrite Qle_bool_iff. by apply Qlt_not_le. }
  done.
Qed.

(** C5, the code at the failing input.  With the window [500, 1000000] set
    for all amplifiers, a pair with a finite variance and a covariance list
    is masked when its mean signal is exactly 500 and when it is exactly
    1000000; it is kept at 501. *)
Theorem flux_window_excludes_its_bounds :
  let minSignal := meanSignalBound 0 {[ "ALL_AMPS" := 500%Q ]} "C00" in
  let maxSignal := meanSignalBound 1000000 {[ "ALL_AMPS" := 1000000%Q ]} "C00" in
  expIdMaskOf (Some 500%Q) (Some 250%Q) false minSignal maxSignal = false /\
  expIdMaskOf (Some 1000000%Q) (Some 250%Q) false minSignal maxSignal = false /\
  expIdMaskOf (Some 501%Q) (Some 250%Q) false minSignal maxSignal = true.
Proof. repeat split; vm_compute; reflexivity. Qed.

(** C6, the code at the failing input.  The covariance array has the shape
    (1, 2, 2) that the loop body gives it ([np.full((1, n, n), np.nan)]; the
    array of [makeCovArray] is indexed by mean signal first).  With
    [varFactor = 2], [covArray[0, 0]] is the row of lag [i = 0]: both of its
    entries end with one power of the factor, the entry of lag (0, 1)
    included, and only the row of lag [i = 1] carries the square. *)
Theorem zero_lag_row_corrected_once :
  let covArray :=
    Array [Array [Array [Scalar (Some 10%Q); Scalar (Some 1%Q)];
                  Array [Scalar (Some 2%Q); Scalar (Some 3%Q)]]] in
  exists corrected,
    sigmaClipCorrectCov 2 covArray = Return corrected /\
    ndEntryIs corrected [0; 0; 0] (10 * 2) /\
    ndEntryIs corrected [0; 0; 1] (1 * 2) /\
    ~ ndEntryIs corrected [0; 0; 1] (1 * (2 * 2)) /\
    ndEntryIs corrected [0; 1; 0] (2 * (2 * 2)) /\
    ndEntryIs corrected [0; 1; 1] (3 * (2 * 2)).
Proof.
  intros covArray. eexists. split; [vm_compute; reflexivity|].
  repeat split; try (vm_compute; reflexivity).
  intros H. vm_compute in H. discriminate H.
Qed.

(** On a 2-D array the same two statements would correct the single entry
    of lag (0, 0) once and every other entry twice. *)
Lemma two_dimensional_correction :
  let covArray :=
    Array [Array [Scalar (Some 10%Q); Scalar (Some 1%Q)];
           Array [Scalar (Some 2%Q); Scalar (Some 3%Q)]] in
  exists corrected,
    sigmaClipCorrectCov 2 covArray = Return corrected /\
    ndEntryIs corrected [0; 0] (10 * 2) /\
    ndEntryIs corrected [0; 1] (1 * (2 * 2)) /\
    ndEntryIs corrected [1; 0] (2 * (2 * 2)) /\
    ndEntryIs corrected [1; 1] (3 * (2 * 2)).
Proof.
  intros covArray. eexists. split; [vm_compute; reflexivity|].
  repeat split; vm_compute; reflexivity.
Qed.

End PtcFacts.

Lemma mget_lookup (m : matrix) i j row x :
  m !! i = Some row -> row !! j = Some x -> mget m i j = x.
Proof. intros Hi Hj. unfold mget. by rewrite Hi, Hj. Qed.

Lemma matrix_ext r c (a b : matrix) :
  wf r c a -> wf r c b ->
  (forall i j, i < r -> j < c -> mget a i j = mget b i j) -> a = b.
Proof.
  intros [Hla Hra] [Hlb Hrb] Hcells.
  apply list_eq_same_length with r; [done|done|].
  intros i rowa rowb Hi Ha Hb.
  rewrite Forall_lookup in Hra. rewrite Forall_lookup in Hrb.
  pose proof (Hra _ _ Ha) as Hca. pose proof (Hrb _ _ Hb) as Hcb. simpl in *.
  apply list_eq_same_length with c; [done|done|].
  intros j x y Hj Hx Hy.
  specialize (Hcells i j Hi Hj).
  by rewrite (mget_lookup a i j rowa x), (mget_lookup b i j rowb y) in Hcells.
Qed.

Lemma mget_lowerRight k (t : matrix) i j :
  mget (lowerRight k t) i j = mget t (k + i) (k + j).
Proof.
  unfold mget, lowerRight. rewrite list_lookup_fmap, lookup_drop.
  destruct (t !! (k + i)) as [row|]; simpl; [|done].
  by rewrite lookup_drop.
Qed.

Lemma wf_lowerRight r c k (t : matrix) :
  wf r c t -> wf (r - k) (c - k) (lowerRight k t).
Proof.
  intros [Hl Hr]. unfold lowerRight. split.
  - by rewrite length_map, length_drop, Hl.
  - apply Forall_map, Forall_drop. eapply Forall_impl; [exact Hr|].
    intros row Hrow. simpl in *. by rewrite length_drop, Hrow.
Qed.

(** Every cell of the tiled array: [output[a, b]] is the input at the
    distances of [a] and [b] from the centre index [n - 1]. *)
Theorem tileArray_cells (quarter : matrix) (n : nat) :
  wf n n quarter -> 0 < n ->
  exists tiled, tileArray quarter = Return tiled /\
    wf (2 * n - 1) (2 * n - 1) tiled /\
    forall a b, a < 2 * n - 1 -> b < 2 * n - 1 ->
      mget tiled a b = mget quarter (lag a (n - 1)) (lag b (n - 1)).
Proof. apply tileArray_spec. Qed.

(** The lower right quadrant of the tiled array, from the centre on, is the
    input quarter-image. *)
Theorem tileArray_quadrant (quarter : matrix) (n : nat) :
  wf n n quarter -> 0 < n ->
  exists tiled, tileArray quarter = Return tiled /\
    lowerRight (n - 1) tiled = quarter.
Proof.
  intros Hwf Hn.
  destruct (tileArray_spec quarter n Hwf Hn) as (tiled & Hrun & Hshape & Hcell).
  exists tiled. split; [exact Hrun|].
  apply (matrix_ext n n); [|exact Hwf|].
  - replace n with (2 * n - 1 - (n - 1)) at 1 2 by lia. by apply wf_lowerRight.
  - intros i j Hi Hj. rewrite mget_lowerRight, Hcell by lia.
    unfold lag.
    destruct (Nat.ltb_spec (n - 1 + i) (n - 1)), (Nat.ltb_spec (n - 1 + j) (n - 1)); try lia.
    f_equal; lia.
Qed.

(** When [_tileArray] fails. *)
Theorem tileArray_errors r c (in_array : matrix) :
  wf r c in_array ->
  (0 < r -> r <> c -> tileArray in_array = Raise AssertionError) /\
  (in_array = [] -> tileArray in_array = Raise ValueError) /\
  (0 < r -> r = c -> exists tiled, tileArray in_array = Return tiled).
Proof.
  intros Hwf. repeat split.
  - intros Hr Hne. unfold tileArray.
    rewrite (shape1_wf r c _ Hwf Hr).
    assert (shape0 in_array = r) as -> by apply Hwf.
    by destruct (Nat.eqb_spec r c).
  - by intros ->.
  - intros Hr ->.
    destruct (tileArray_spec in_array c Hwf Hr) as (tiled & Hrun & _). eauto.
Qed.

Lemma tileArray_cells_witness :
  let quarter := [[1; 2]; [3; 4]]%Q in
  exists tiled, tileArray quarter = Return tiled /\
    wf (2 * 2 - 1) (2 * 2 - 1) tiled /\
    forall a b, a < 2 * 2 - 1 -> b < 2 * 2 - 1 ->
      mget tiled a b = mget quarter (lag a (2 - 1)) (lag b (2 - 1)).
Proof.
  intros quarter. apply (tileArray_cells quarter 2).
  - split; [reflexivity | repeat constructor].
  - lia.
Defined.

Lemma tileArray_quadrant_witness :
  let quarter := [[1; 2; 3]; [4; 5; 6]; [7; 8; 9]]%Q in
  exists tiled, tileArray quarter = Return tiled /\
    lowerRight (3 - 1) tiled = quarter.
Proof.
  intros quarter. apply (tileArray_quadrant quarter 3).
  - split; [reflexivity | repeat constructor].
  - lia.
Defined.

Lemma tileArray_errors_witness :
  let in_array := [[1; 2; 3]; [4; 5; 6]]%Q in
  (0 < 2 -> 2 <> 3 -> tileArray in_array = Raise AssertionError) /\
  (in_array = [] -> tileArray in_array = Raise ValueError) /\
  (0 < 2 -> 2 = 3 -> exists tiled, tileArray in_array = Return tiled).
Proof.
  intros in_array. apply (tileArray_errors 2 3 in_array).
  split; [reflexivity | repeat constructor].
Defined.

(** ** Further properties of [averageCorrelations] *)

(** A loop that writes each of its cells once, with a value that depends
    on the cell alone. *)
Lemma mget_write_fold r c (val : nat -> nat -> Q) (cells : list (nat * nat)) :
  Forall (fun ij => fst ij < r /\ snd ij < c) cells ->
  forall (m : matrix) a b, wf r c m ->
    mget (foldl (fun m ij => mset m (fst ij) (snd ij) (val (fst ij) (snd ij))) m cells) a b
    = if bool_decide ((a, b) ∈ cells) then val a b else mget m a b.
Proof.
  induction cells as [|[i j] cells IH]; cbn [foldl]; intros Hc m a b Hwf; [done|].
  apply Forall_cons in Hc as [[Hi Hj] Hc]. cbn [fst snd] in *.
  rewrite IH by (done || by apply wf_mset).
  case_bool_decide as Hin.
  - rewrite bool_decide_true; [done|]. by right.
  - rewrite (mget_mset r c) by done.
    destruct (Nat.eqb_spec a i) as [->|Ha]; simpl.
    + destruct (Nat.eqb_spec b j) as [->|Hb].
      * rewrite bool_decide_true; [done|]. by left.
      * rewrite bool_decide_false; [done|].
        intros [?|?]%elem_of_cons; simplify_eq.
    + rewrite bool_decide_false; [done|].
      intros [?|?]%elem_of_cons; simplify_eq.
Qed.

Lemma foldl_pointwise {A B} (f g : A -> B -> A) (l : list B) :
  (forall a b, f a b = g a b) -> forall a, foldl f a l = foldl g a l.
Proof.
  intros Hfg. induction l as [|b l IH]; intros a; cbn [foldl]; [done|].
  by rewrite Hfg, IH.
Qed.

Lemma mget_zeros_like (m : matrix) a b : mget (zeros_like m) a b = 0%Q.
Proof.
  unfold mget, zeros_like. rewrite list_lookup_fmap.
  destruct (m !! a) as [row|]; simpl; [|done].
  rewrite list_lookup_fmap. by destruct (row !! b).
Qed.

Lemma mget_pad1_inner (m : matrix) i j : mget (pad1 m) (S i) (S j) = mget m i j.
Proof.
  unfold mget, pad1. rewrite lookup_cons.
  destruct (decide (i < length m)) as [Hi|Hi].
  - rewrite lookup_app_l by (by rewrite length_map).
    rewrite list_lookup_fmap.
    destruct (lookup_lt_is_Some_2 m i Hi) as [row Hrow]. rewrite Hrow. simpl.
    destruct (decide (j < length row)) as [Hj|Hj].
    + by rewrite lookup_app_l.
    + rewrite (lookup_ge_None_2 row j) by lia.
      destruct (decide (j = length row)) as [->|].
      * by rewrite list_lookup_middle.
      * rewrite lookup_ge_None_2; [done|]. rewrite length_app. simpl. lia.
  - rewrite (lookup_ge_None_2 m i) by lia.
    destruct (decide (i = length m)) as [->|].
    + rewrite lookup_app_r by (by rewrite length_map).
      rewrite length_map, Nat.sub_diag. simpl.
      destruct (replicate (shape1 m + 2) 0%Q !! S j) as [x|] eqn:E; [|done].
      by apply lookup_replicate in E as [-> _].
    + rewrite lookup_ge_None_2; [done|]. rewrite length_app, length_map. simpl. lia.
Qed.

Lemma mget_pad1_frame n (m : matrix) a b :
  wf n n m -> a = 0 \/ a = n + 1 \/ b = 0 \/ b = n + 1 -> mget (pad1 m) a b = 0%Q.
Proof.
  intros Hwf Hab.
  destruct a as [|a].
  { unfold mget, pad1. simpl.
    destruct (replicate (shape1 m + 2) 0%Q !! b) as [x|] eqn:E; [|done].
    by apply lookup_replicate in E as [-> _]. }
  destruct b as [|b].
  { unfold mget, pad1. rewrite lookup_cons.
    destruct ((map (fun row => 0%Q :: row ++ [0%Q]) m ++ [replicate (shape1 m + 2) 0%Q]) !! a)
      as [row|] eqn:E; [|done].
    apply lookup_app_Some in E as [E|[_ E]].
    - rewrite list_lookup_fmap in E. destruct (m !! a); by simplify_eq/=.
    - apply list_lookup_singleton_Some in E as [_ <-].
      destruct (replicate (shape1 m + 2) 0%Q !! 0) as [x|] eqn:E2; [|done].
      by apply lookup_replicate in E2 as [-> _]. }
  rewrite mget_pad1_inner.
  destruct Hwf as [Hl Hr]. unfold mget.
  destruct (m !! a) as [row|] eqn:E; [|done].
  rewrite Forall_lookup in Hr. pose proof (Hr _ _ E) as Hrow. simpl in Hrow.
  apply lookup_lt_Some in E.
  rewrite lookup_ge_None_2; [done|]. lia.
Qed.

Section AverageCells.

Variable meanClip : Q -> list Q -> Q.

(** Away from the centre, the cell [[i + 1, j + 1]] of the padded kernel is
    the clipped mean of the cells [[j, i]] of the inputs (the stack is
    transposed before it is averaged) and the frame of the padding is
    zero. *)
Theorem averageCorrelations_cells config (xCorrList : list matrix) n :
  xCorrList <> [] -> Forall (wf n n) xCorrList ->
  exists kernel, averageCorrelations meanClip config xCorrList = Return kernel /\
    (forall i j, i < n -> j < n -> (S i, S j) <> ((n + 1) / 2, (n + 1) / 2) ->
       mget kernel (S i) (S j)
       = meanClip (nSigmaClip config) (map (fun x => mget x j i) xCorrList)) /\
    (forall a b, a = 0 \/ a = n + 1 \/ b = 0 \/ b = n + 1 ->
       (a, b) <> ((n + 1) / 2, (n + 1) / 2) -> mget kernel a b = 0%Q).
Proof.
  intros Hne Hall. destruct xCorrList as [|x0 rest]; [done|].
  pose proof (Forall_inv Hall) as Hx0.
  assert (shape0 x0 = n) as H0 by apply Hx0.
  pose proof (shape1_wf_square _ _ Hx0) as H1.
  unfold averageCorrelations. rewrite H0, H1.
  assert (forallb (hasShape n n) (x0 :: rest) = true) as ->.
  { apply forallb_forall. intros x Hin. apply hasShape_wf.
    rewrite Forall_forall in Hall. apply Hall. by apply list_elem_of_In. }
  rewrite Nat.eqb_refl, orb_true_r. cbn [negb].
  pose proof (wf_zeros_like _ _ _ Hx0) as Hz.
  assert (shape0 (zeros_like x0) = n) as -> by apply Hz.
  rewrite (shape1_wf_square _ _ Hz).
  set (cells := nest (pyRange 0 n) (pyRange 0 n)).
  set (val := fun i j => meanClip (nSigmaClip config) (map (fun x => mget x j i) (x0 :: rest))).
  assert (forall m, foldl (averageCell meanClip (nSigmaClip config) (x0 :: rest)) m cells
                    = foldl (fun m ij => mset m (fst ij) (snd ij) (val (fst ij) (snd ij))) m cells)
    as Hfold.
  { apply foldl_pointwise. by intros m' [i j]. }
  rewrite Hfold.
  set (mean := foldl _ (zeros_like x0) cells).
  assert (wf n n mean) as Hmean.
  { apply wf_foldl_cells; [|done]. intros m [i j] Hm. by apply wf_mset. }
  assert (shape0 (pad1 mean) = n + 2) as -> by apply (wf_pad1 _ _ Hmean).
  replace (n + 2 - 1) with (n + 1) by lia.
  eexists. split; [reflexivity|]. split.
  - intros i j Hi Hj Hc. rewrite mget_mset_ne by done.
    rewrite mget_pad1_inner. unfold mean.
    rewrite (mget_write_fold n n) by
      (done || (apply Forall_forall; intros [i' j'] [Hi' Hj']%elem_of_nest;
                apply elem_of_pyRange in Hi', Hj'; simpl; lia)).
    rewrite bool_decide_true; [done|].
    apply elem_of_nest. rewrite !elem_of_pyRange. lia.
  - intros a b Hab Hc. rewrite mget_mset_ne by done.
    by apply (mget_pad1_frame n).
Qed.

End AverageCells.

Lemma averageCorrelations_cells_witness :
  let xCorrList := [[[1; 2]; [3; 4]]; [[5; 6]; [7; 8]]]%Q in
  exists kernel, averageCorrelations plainMean defaultConfig xCorrList = Return kernel /\
    (forall i j, i < 2 -> j < 2 -> (S i, S j) <> ((2 + 1) / 2, (2 + 1) / 2) ->
       mget kernel (S i) (S j)
       = plainMean (nSigmaClip defaultConfig) (map (fun x => mget x j i) xCorrList)) /\
    (forall a b, a = 0 \/ a = 2 + 1 \/ b = 0 \/ b = 2 + 1 ->
       (a, b) <> ((2 + 1) / 2, (2 + 1) / 2) -> mget kernel a b = 0%Q).
Proof.
  intros xCorrList. apply (averageCorrelations_cells plainMean defaultConfig xCorrList 2).
  - discriminate.
  - repeat constructor.
Defined.

(** ** Further properties of the loop over the samples *)

Lemma Qabs_sumQ (l : list Q) : (Qabs (sumQ l) <= sumQ (map Qabs l))%Q.
Proof.
  induction l as [|x l IH]; simpl; [apply Qle_refl|].
  eapply Qle_trans; [apply Qabs_triangle|]. by apply Qplus_le_r.
Qed.

Lemma sumQ_le (l k : list Q) :
  Forall2 Qle l k -> (sumQ l <= sumQ k)%Q.
Proof.
  induction 1 as [|x y l k Hxy _ IH]; simpl; [apply Qle_refl|].
  by apply Qplus_le_compat.
Qed.

Lemma Qabs_matSum (m : matrix) : (Qabs (matSum m) <= matAbsSum m)%Q.
Proof.
  unfold matAbsSum, matSum, mmap.
  eapply Qle_trans; [apply Qabs_sumQ|].
  apply sumQ_le. rewrite !map_map.
  induction m as [|row m IH]; simpl; constructor; [apply Qabs_sumQ | exact IH].
Qed.

Lemma matAbsSum_nonneg (m : matrix) : (0 <= matAbsSum m)%Q.
Proof. eapply Qle_trans; [apply Qabs_nonneg | apply Qabs_matSum]. Qed.

(** The triangle ratio is at most 1, so a rejection level of 1 or more
    (the default is 2) rejects nothing. *)
Lemma triangle_check_passes (scaled : matrix) (rejectLevel : Q) :
  (1 <= rejectLevel)%Q -> gtNaN (xcorrCheckOf scaled) rejectLevel = false.
Proof.
  intros Hlevel. unfold xcorrCheckOf.
  destruct (Qeq_bool (matAbsSum scaled) 0) eqn:Hzero; [done|].
  apply Qeq_bool_neq in Hzero. simpl.
  apply not_true_iff_false. rewrite Qltb_lt. apply Qle_not_lt.
  eapply Qle_trans; [|exact Hlevel].
  apply Qle_shift_div_r.
  - destruct (Qle_lt_or_eq _ _ (matAbsSum_nonneg scaled)) as [Hlt|Heq]; [done|].
    exfalso. apply Hzero. by symmetry.
  - rewrite Qmult_1_l. apply Qabs_matSum.
Qed.

Lemma wf_mmap r c f (m : matrix) : wf r c m -> wf r c (mmap f m).
Proof.
  intros [Hl Hr]. unfold mmap. split.
  - by rewrite length_map.
  - apply Forall_map. eapply Forall_impl; [exact Hr|].
    intros row Hrow. simpl in *. by rewrite length_map.
Qed.

Lemma wf_normalised n gain (xcorr : matrix) flux :
  wf n n xcorr -> wf n n (normalised gain xcorr flux).
Proof.
  intros Hwf. unfold normalised, selfSubtracted, rescale.
  by apply wf_mmap, wf_mset, wf_mmap, wf_mmap.
Qed.

Lemma sampleStep_spec config ampName gain st xcorrNum (xcorr : matrix) flux var n :
  (1 <= xcorrCheckRejectLevel config)%Q -> 2 <= n -> wf n n xcorr ->
  exists st', sampleStep config ampName gain st (xcorrNum, (xcorr, flux, var)) = Return st' /\
    if passesSelfTerm gain (xcorr, flux, var)
    then exists tiled, tileArray (normalised gain xcorr flux) = Return tiled /\
           scaledCorrList st' = scaledCorrList st ++ [tiled]
    else scaledCorrList st' = scaledCorrList st.
Proof.
  intros Hlevel Hn Hwf. unfold sampleStep, passesSelfTerm.
  pose proof (wf_mmap n n (fun x => x * 2)%Q _
                (wf_mmap n n (fun x => x * gain * gain)%Q _ Hwf)) as Hq.
  fold (rescale gain xcorr) in Hq.
  assert (shape0 (rescale gain xcorr) = n) as -> by apply Hq.
  rewrite (shape1_wf_square _ _ Hq).
  destruct (Nat.leb_spec 2 n); [|lia]. simpl.
  destruct (Qltb 0 (selfTerm gain xcorr flux)); simpl.
  - eexists. split; [reflexivity|]. done.
  - destruct (tileArray_spec (normalised gain xcorr flux) n) as (tiled & -> & _);
      [by apply wf_normalised | lia |].
    cbn [mbind outcome_bind]. rewrite triangle_check_passes by done.
    eexists. split; [reflexivity|]. simpl. eauto.
Qed.

Lemma sample_loop_spec config ampName gain (samples : list (matrix * Q * Q)) n st0 :
  (1 <= xcorrCheckRejectLevel config)%Q -> 2 <= n ->
  Forall (fun s => wf n n s.1.1) samples ->
  exists st tiles,
    forM (sampleStep config ampName gain) st0 (enumerate1 samples) = Return st /\
    scaledCorrList st = scaledCorrList st0 ++ tiles /\
    Forall2 (fun s tiled => tileArray (normalised gain s.1.1 s.1.2) = Return tiled)
      (filter (fun s => passesSelfTerm gain s) samples) tiles.
Proof.
  intros Hlevel Hn Hall.
  assert (forall (l : list (nat * (matrix * Q * Q))) st0,
            Forall (fun s => wf n n s.1.1) l.*2 ->
            exists st tiles,
              forM (sampleStep config ampName gain) st0 l = Return st /\
              scaledCorrList st = scaledCorrList st0 ++ tiles /\
              Forall2 (fun s tiled => tileArray (normalised gain s.1.1 s.1.2) = Return tiled)
                (filter (fun s => passesSelfTerm gain s) l.*2) tiles) as Hgen.
  { clear st0 Hall. induction l as [|[num [[xcorr flux] var]] l IH]; intros st0 Hl.
    - exists st0, []. rewrite app_nil_r. repeat split. constructor.
    - apply Forall_cons in Hl as [Hx Hl]. simpl in Hx.
      destruct (sampleStep_spec config ampName gain st0 num xcorr flux var n Hlevel Hn Hx)
        as (st1 & Hstep & Hacc).
      destruct (IH st1 Hl) as (st & tiles & Hrun & Hlist & Htiles).
      cbn [forM]. rewrite Hstep. cbn [mbind outcome_bind].
      cbn [fmap list_fmap snd]. rewrite filter_cons.
      destruct (passesSelfTerm gain (xcorr, flux, var)) eqn:Hp.
      + destruct Hacc as (tiled & Htile & Happ).
        exists st, (tiled :: tiles). split; [exact Hrun|]. split.
        * by rewrite Hlist, Happ, <- app_assoc.
        * rewrite decide_True by done. by constructor.
      + exists st, tiles. split; [exact Hrun|]. split.
        * by rewrite Hlist, Hacc.
        * rewrite decide_False; [done|]. by intros [].  }
  unfold enumerate1.
  destruct (Hgen (zip (seq 1 (length samples)) samples) st0) as (st & tiles & H1 & H2 & H3).
  - rewrite snd_zip; [done|]. by rewrite length_seq.
  - exists st, tiles. rewrite snd_zip in H3; [done|]. by rewrite length_seq.
Qed.



(** The triangle ratio [|sum|/sum|.|] lies between 0 and 1 whenever it is a
    number, so with [xcorrCheckRejectLevel >= 1] (the default is 2) the
    triangle-inequality check rejects no sample. *)
Theorem triangle_check_never_rejects (scaled : matrix) (rejectLevel : Q) :
  (1 <= rejectLevel)%Q ->
  gtNaN (xcorrCheckOf scaled) rejectLevel = false /\
  forall ratio, xcorrCheckOf scaled = Some ratio -> (0 <= ratio <= 1)%Q.
Proof.
  intros Hlevel. split; [by apply triangle_check_passes|].
  intros ratio. unfold xcorrCheckOf.
  destruct (Qeq_bool (matAbsSum scaled) 0) eqn:Hzero; [done|].
  apply Qeq_bool_neq in Hzero. intros [= <-].
  assert (0 < matAbsSum scaled)%Q as Hpos.
  { destruct (Qle_lt_or_eq _ _ (matAbsSum_nonneg scaled)) as [Hlt|Heq]; [done|].
    exfalso. apply Hzero. by symmetry. }
  split.
  - apply Qle_shift_div_l; [done|]. rewrite Qmult_0_l. apply Qabs_nonneg.
  - apply Qle_shift_div_r; [done|]. rewrite Qmult_1_l. apply Qabs_matSum.
Qed.

Lemma triangle_check_never_rejects_witness :
  let scaled := [[1; -2]; [3; -4]]%Q in
  gtNaN (xcorrCheckOf scaled) 2 = false /\
  forall ratio, xcorrCheckOf scaled = Some ratio -> (0 <= ratio <= 1)%Q.
Proof.
  intros scaled. apply (triangle_check_never_rejects scaled 2). discriminate.
Defined.

(** ** Further properties of [BrighterFatterKernelSolveTask.run] *)

(** Case analysis of a bind that returns. *)
Lemma bind_Return {A B} (m : outcome A) (f : A -> outcome B) b :
  m ≫= f = Return b -> exists a, m = Return a /\ f a = Return b.
Proof. destruct m as [a| |]; cbn; [eauto|done|done]. Qed.

Section RunFacts.

Variable meanClip : Q -> list Q -> Q.
Variable cosPiOver : nat -> Q.

(** The two ways in which the body of the loop over the amplifiers
    returns: the fallback with a kernel of zeros, or a solved kernel. *)
Lemma ampStep_cases config inputPtc st ampName st' :
  ampStep meanClip cosPiOver config inputPtc st ampName = Return st' ->
  (postKernel st' = postKernel st /\
   detectorCorrList st' = detectorCorrList st /\
   bfkMeanXCorrs st' = bfkMeanXCorrs st /\
   exists stale, bfkAmpKernels st' = <[ampName := zeros_like (pad1 stale)]> (bfkAmpKernels st)) \/
  (exists accepted preKernel post msg,
     accepted <> [] /\
     successiveOverRelax cosPiOver config preKernel None None = Return (post, msg) /\
     postKernel st' = Some post /\
     detectorCorrList st' =
       (if Level_eqb (level config) DETECTOR
        then detectorCorrList st ++ accepted else detectorCorrList st) /\
     bfkMeanXCorrs st' = <[ampName := preKernel]> (bfkMeanXCorrs st) /\
     bfkAmpKernels st' = <[ampName := post]> (bfkAmpKernels st)).
Proof.
  unfold ampStep. intros Hrun.
  repeat (apply bind_Return in Hrun as (? & _ & Hrun)).
  destruct (length (scaledCorrList _) =? 0) eqn:Hlen.
  - destruct (lastScaled _) as [stale|]; [|done].
    injection Hrun as <-. left. simpl. eauto.
  - apply bind_Return in Hrun as (preKernel & Hpre & Hrun).
    apply bind_Return in Hrun as ([post msg] & Hsor & Hrun).
    injection Hrun as <-. right. simpl.
    eexists _, preKernel, post, msg. repeat split; try done.
    intros Hnil. rewrite Hnil in Hlen. done.
Qed.

#[local] Set Warnings "-clear-no-such-hyp".

Lemma ampLoop_invariant config inputPtc (amps : list string) : forall st st',
  forM (ampStep meanClip cosPiOver config inputPtc) st amps = Return st' ->
  dom (bfkAmpKernels st') = dom (bfkAmpKernels st) ∪ list_to_set amps /\
  dom (bfkMeanXCorrs st') ⊆ dom (bfkMeanXCorrs st) ∪ list_to_set amps /\
  (bfkMeanXCorrs st <> ∅ \/ (postKernel st = None /\ detectorCorrList st = []) ->
   bfkMeanXCorrs st' <> ∅ \/ (postKernel st' = None /\ detectorCorrList st' = [])).
Proof.
  induction amps as [|a amps IH]; intros st st' Hrun.
  - injection Hrun as <-. split; [set_solver|]. split; [set_solver|]. done.
  - cbn [forM] in Hrun. apply bind_Return in Hrun as (st1 & Hstep & Hrun).
    destruct (IH _ _ Hrun) as (Hdom & Hsub & Hinv).
    apply ampStep_cases in Hstep
      as [(Hpost & Hdet & Hmean & stale & Hamp)
         |(acc & pre & post & msg & _ & _ & Hpost & Hdet & Hmean & Hamp)].
    + rewrite Hamp, dom_insert_L in Hdom. rewrite Hmean in Hsub.
      split; [set_solver|]. split; [set_solver|].
      intros HI. apply Hinv. rewrite Hmean, Hpost, Hdet. exact HI.
    + rewrite Hamp, dom_insert_L in Hdom. rewrite Hmean, dom_insert_L in Hsub.
      split; [set_solver|]. split; [set_solver|].
      intros _. apply Hinv. left. rewrite Hmean. apply insert_non_empty.
Qed.

(** Whenever [run] returns, some amplifier has a measured kernel: a
    calibration made of fallback kernels of zeros alone is never returned. *)
Theorem run_returns_measured_kernel config inputPtc detector bfk log :
  run meanClip cosPiOver config inputPtc detector = Return (bfk, log) ->
  meanXCorrs bfk <> ∅.
Proof.
  unfold run. intros Hrun.
  apply bind_Return in Hrun as (st & Hloop & Hrun).
  destruct (ampLoop_invariant _ _ _ _ _ Hloop) as (_ & _ & Hinv).
  destruct Hinv as [Hne|[Hpost Hdet]]; [by right| |].
  - apply bind_Return in Hrun as ([[post dets] lg] & _ & Hrun).
    destruct post; [|done]. by injection Hrun as <- _.
  - exfalso. destruct (Level_eqb (level config) DETECTOR).
    + rewrite Hdet in Hrun. done.
    + rewrite Hpost in Hrun. done.
Qed.

(** Whenever [run] returns, [ampKernels] has an entry for exactly the
    amplifiers of the detector, [meanXCorrs] only for amplifiers of the
    detector, and [detKernels] holds the one kernel of the detector at level
    DETECTOR and nothing at level AMP. *)
Theorem run_kernel_keys config inputPtc detector bfk log :
  run meanClip cosPiOver config inputPtc detector = Return (bfk, log) ->
  dom (ampKernels bfk) = list_to_set (ampNames detector) /\
  dom (meanXCorrs bfk) ⊆ list_to_set (ampNames detector) /\
  dom (detKernels bfk) =
    (if Level_eqb (level config) DETECTOR then {[ detName detector ]} else ∅).
Proof.
  unfold run. intros Hrun.
  apply bind_Return in Hrun as (st & Hloop & Hrun).
  destruct (ampLoop_invariant _ _ _ _ _ Hloop) as (Hdom & Hsub & _).
  simpl in Hdom, Hsub. rewrite dom_empty_L in Hdom, Hsub.
  apply bind_Return in Hrun as ([[post dets] lg] & Hdet & Hrun).
  destruct post; [|done]. injection Hrun as <- _. simpl.
  split; [set_solver|]. split; [set_solver|].
  destruct (Level_eqb (level config) DETECTOR).
  - apply bind_Return in Hdet as (pre & _ & Hdet).
    apply bind_Return in Hdet as ([p msg] & _ & Hdet).
    injection Hdet as _ <- _. by rewrite dom_singleton_L.
  - injection Hdet as _ <- _. by rewrite dom_empty_L.
Qed.

End RunFacts.

Lemma run_returns_measured_kernel_witness :
  exists bfk log,
    run plainMean cosPiOverQ (configWith AMP [] 1)
        (onePtc "C00" [[1; 1]; [1; 1]]%Q 1 2)
        {| detName := "R22_S11"; ampNames := ["C00"] |} = Return (bfk, log) /\
    meanXCorrs bfk <> ∅.
Proof.
  eexists. eexists. split; [vm_compute; reflexivity|].
  eapply (run_returns_measured_kernel plainMean cosPiOverQ (configWith AMP [] 1)
            (onePtc "C00" [[1; 1]; [1; 1]]%Q 1 2)
            {| detName := "R22_S11"; ampNames := ["C00"] |}).
  vm_compute. reflexivity.
Defined.

Lemma run_kernel_keys_witness :
  let config := configWith DETECTOR [] 1 in
  let detector := {| detName := "R22_S11"; ampNames := ["C00"] |} in
  exists bfk log,
    run plainMean cosPiOverQ config (onePtc "C00" [[1; 1]; [1; 1]]%Q 1 2) detector
      = Return (bfk, log) /\
    dom (ampKernels bfk) = list_to_set (ampNames detector) /\
    dom (meanXCorrs bfk) ⊆ list_to_set (ampNames detector) /\
    dom (detKernels bfk) =
      (if Level_eqb (level config) DETECTOR then {[ detName detector ]} else ∅).
Proof.
  intros config detector. eexists. eexists. split; [vm_compute; reflexivity|].
  eapply (run_kernel_keys plainMean cosPiOverQ config
            (onePtc "C00" [[1; 1]; [1; 1]]%Q 1 2) detector).
  vm_compute. reflexivity.
Defined.

(** ** Further properties of [successiveOverRelax] *)

Section LoopExit.

Variables (source : matrix) (rhoSpe inError eLevel : Q) (maxIter : Z).

Lemma sorStep_outError st :
  match sorStep source rhoSpe inError eLevel st with
  | Break st' =>
      outError st' = Some (matAbsSum (resid st')) /\
      Qltb (matAbsSum (resid st')) (inError * eLevel) = true /\
      nIter st' = nIter st
  | Continue st' =>
      outError st' = Some (matAbsSum (resid st')) /\
      Qltb (matAbsSum (resid st')) (inError * eLevel) = false /\
      nIter st' = nIter st + 1
  end.
Proof.
  unfold sorStep.
  destruct (halfStep source (omega st) (nIter st) (func st) (resid st)) as [f' r'].
  by destruct (Qltb (matAbsSum r') (inError * eLevel)) eqn:Hlt.
Qed.

(** How the loop is left: not at all entered, by [break] after a half-step
    that met the convergence test, or by its condition after a half-step
    that did not, with the budget used up exactly. *)
Lemma sorLoop_exit : forall fuel st st',
  sorLoop fuel source rhoSpe inError eLevel maxIter st = Return st' ->
  (st' = st /\ (maxIter * 2 <= Z.of_nat (nIter st))%Z) \/
  (outError st' = Some (matAbsSum (resid st')) /\
   ((Qltb (matAbsSum (resid st')) (inError * eLevel) = true /\
     (Z.of_nat (nIter st') < maxIter * 2)%Z) \/
    (Qltb (matAbsSum (resid st')) (inError * eLevel) = false /\
     (Z.of_nat (nIter st') = maxIter * 2)%Z))).
Proof.
  induction fuel as [|fuel IH]; intros st st'; cbn [sorLoop];
    destruct (Z.ltb_spec (Z.of_nat (nIter st)) (maxIter * 2)) as [Hlt|Hge];
    try done; try (intros [= <-]; left; split; [done|lia]).
  pose proof (sorStep_outError st) as Hstep.
  destruct (sorStep source rhoSpe inError eLevel st) as [st1|st1].
  - destruct Hstep as (Ho & Hq & Hn). intros [= <-]. right.
    split; [done|]. left. split; [done|lia].
  - destruct Hstep as (Ho & Hq & Hn). intros Hrun.
    destruct (IH _ _ Hrun) as [[-> Hend]|Hlater]; [|by right].
    right. split; [done|]. right. split; [done|lia].
Qed.

End LoopExit.

(** The message of the solver tells how the loop ended.  The failure
    warning is logged exactly when the last half-step did not meet
    [outError < inError*eLevel], and then all [2*maxIter] half-steps were
    run and [maxIter] iterations are reported; the success message exactly
    when the last half-step met it, with fewer than [maxIter] iterations
    reported. *)
Theorem successiveOverRelax_message (cosPiOver : nat -> Q) config
    (source : matrix) maxIter eLevel solution msg :
  successiveOverRelax cosPiOver config source maxIter eLevel = Return (solution, msg) ->
  let budget := effMaxIter config maxIter in
  let threshold := (matAbsSum (resid (sorInit source)) * effELevel config eLevel)%Q in
  exists st lastError,
    sorLoop (Z.to_nat (budget * 2)) source (cosPiOver (shape0 source))
      (matAbsSum (resid (sorInit source))) (effELevel config eLevel) budget
      (sorInit source) = Return st /\
    solution = interior (func st) /\
    outError st = Some lastError /\
    ((msg = InfoSorSuccess (nIter st / 2) /\ (lastError < threshold)%Q /\
      (Z.of_nat (nIter st / 2) < budget)%Z) \/
     (msg = WarnSorFailure (Z.to_nat budget) /\ ~ (lastError < threshold)%Q /\
      (Z.of_nat (nIter st) = budget * 2)%Z)).
Proof.
  intros Hrun budget threshold. unfold successiveOverRelax in Hrun.
  destruct (negb (shape0 source =? shape1 source)); [done|].
  apply bind_Return in Hrun as (rho & Hrho & Hrun).
  destruct (shape0 source =? 0); [done|]. injection Hrho as <-.
  apply bind_Return in Hrun as (st & Hloop & Hrun).
  fold budget in Hloop, Hrun.
  destruct (outError st) as [e|] eqn:He; [|done].
  exists st, e. split; [exact Hloop|].
  destruct (sorLoop_exit _ _ _ _ _ _ _ _ Hloop) as [[-> _]|[Ho Hexit]]; [done|].
  rewrite He in Ho. injection Ho as ->.
  destruct Hexit as [[Hq Hn]|[Hq Hn]].
  - destruct (Z.geb_spec (Z.of_nat (nIter st)) (budget * 2)); [lia|].
    injection Hrun as <- <-. split; [done|]. split; [done|]. left.
    split; [done|]. split; [by apply Qltb_lt|].
    pose proof (Nat.Div0.div_lt_upper_bound (nIter st) 2 (Z.to_nat budget)) as Hdiv.
    lia.
  - destruct (Z.geb_spec (Z.of_nat (nIter st)) (budget * 2)); [|lia].
    injection Hrun as <- <-. split; [done|]. split; [done|]. right.
    split.
    + f_equal. replace (nIter st) with (Z.to_nat (budget * 2)) by lia.
      apply half_to_nat_double.
    + split; [|done]. intros Hlt%Qltb_lt. unfold threshold in Hlt. congruence.
Qed.

Lemma successiveOverRelax_message_witness :
  let source := [[0; 0; 0]; [0; 1; 0]; [0; 0; 0]]%Q in
  let budget := effMaxIter defaultConfig (Some 1%Z) in
  let threshold := (matAbsSum (resid (sorInit source)) * effELevel defaultConfig None)%Q in
  exists solution msg,
    successiveOverRelax cosPiOverQ defaultConfig source (Some 1%Z) None
      = Return (solution, msg) /\
    exists st lastError,
      sorLoop (Z.to_nat (budget * 2)) source (cosPiOverQ (shape0 source))
        (matAbsSum (resid (sorInit source))) (effELevel defaultConfig None) budget
        (sorInit source) = Return st /\
      solution = interior (func st) /\
      outError st = Some lastError /\
      ((msg = InfoSorSuccess (nIter st / 2) /\ (lastError < threshold)%Q /\
        (Z.of_nat (nIter st / 2) < budget)%Z) \/
       (msg = WarnSorFailure (Z.to_nat budget) /\ ~ (lastError < threshold)%Q /\
        (Z.of_nat (nIter st) = budget * 2)%Z)).
Proof.
  intros source budget threshold. eexists. eexists.
  split; [vm_compute; reflexivity|].
  eapply (successiveOverRelax_message cosPiOverQ defaultConfig source (Some 1%Z) None).
  vm_compute. reflexivity.
Defined.

(** ** Masked samples *)

Lemma npBoolIndex_insert_masked {A} (values : list A) (mask : list bool) i x :
  mask !! i = Some false ->
  npBoolIndex (<[i := x]> values) mask = npBoolIndex values mask.
Proof.
  intros Hi. unfold npBoolIndex. rewrite length_insert.
  destruct ((length mask =? 0) || (length values =? length mask)); [|done].
  f_equal. f_equal.
  revert mask i Hi. induction values as [|v values IH]; intros [|b mask] [|i] Hi;
    simpl in *; try done.
  - injection Hi as ->. by rewrite !filter_cons_False by (simpl; congruence).
  - rewrite !filter_cons. simpl. rewrite (IH mask i Hi). done.
Qed.

Lemma hasShape_sameShape r c (a b : matrix) :
  sameShape a b -> hasShape r c a = hasShape r c b.
Proof.
  unfold sameShape, hasShape. intros H.
  assert (length a = length b) as ->.
  { by rewrite <- (length_map length a), H, length_map. }
  f_equal. revert b H. induction a as [|ra a IH]; intros [|rb b] H; try done.
  injection H as Hr H. simpl. by rewrite Hr, (IH b H).
Qed.

Lemma shape_sameShape (a b : matrix) :
  sameShape a b -> shape0 a = shape0 b /\ shape1 a = shape1 b.
Proof.
  unfold sameShape, shape0, shape1. intros H. split.
  - by rewrite <- (length_map length a), H, length_map.
  - destruct a, b; try done. by injection H.
Qed.

Lemma forallb_insert {A} (P : A -> bool) (l : list A) i x old :
  l !! i = Some old -> P x = P old -> forallb P (<[i := x]> l) = forallb P l.
Proof.
  revert i. induction l as [|y l IH]; intros [|i] Hi HP; simpl in *; try done.
  - injection Hi as ->. by rewrite HP.
  - by rewrite (IH i Hi HP).
Qed.

(** Replacing a masked array of the list by one of the same shape changes
    neither whether [np.array] accepts the list nor the selection. *)
Lemma npArray_insert_masked {B} (covs : list matrix) (mask : list bool) i xcorr
    (k : list matrix -> outcome B) :
  mask !! i = Some false ->
  (forall old, covs !! i = Some old -> sameShape old xcorr) ->
  (npArray (<[i := xcorr]> covs) ≫= fun stack => npBoolIndex stack mask ≫= k)
  = (npArray covs ≫= fun stack => npBoolIndex stack mask ≫= k).
Proof.
  intros Hi Hshape.
  destruct (covs !! i) as [old|] eqn:Hold.
  - specialize (Hshape old eq_refl).
    destruct (shape_sameShape _ _ Hshape) as [H0 H1].
    assert (npArray (<[i := xcorr]> covs)
            = match npArray covs with
              | Return _ => Return (<[i := xcorr]> covs)
              | other => other
              end) as ->.
    { unfold npArray. destruct covs as [|x0 rest]; [done|].
      assert (forall r c, forallb (hasShape r c) (<[i := xcorr]> (x0 :: rest))
                          = forallb (hasShape r c) (x0 :: rest)) as Hall.
      { intros r c. apply (forallb_insert _ _ _ _ old Hold).
        symmetry. by apply hasShape_sameShape. }
      destruct i as [|j].
      - injection Hold as ->. specialize (Hall (shape0 xcorr) (shape1 xcorr)).
        cbn [insert list_insert] in *. rewrite Hall, <- H0, <- H1.
        by destruct (forallb (hasShape (shape0 old) (shape1 old)) (old :: rest)).
      - specialize (Hall (shape0 x0) (shape1 x0)).
        cbn [insert list_insert] in *. rewrite Hall.
        by destruct (forallb (hasShape (shape0 x0) (shape1 x0)) (x0 :: rest)). }
    destruct (npArray covs) as [stack| |] eqn:Hstack; cbn [mbind outcome_bind]; try done.
    assert (stack = covs) as ->.
    { unfold npArray in Hstack. destruct covs; [by injection Hstack|].
      destruct (forallb _ _); [by injection Hstack|done]. }
    by rewrite npBoolIndex_insert_masked.
  - rewrite list_insert_ge; [done|]. by apply lookup_ge_None.
Qed.

Lemma dictGet_alter_masked {A B} (m : gmap string (list A)) key key' i x
    (mask : list bool) (k : list A -> outcome B) :
  (key = key' -> mask !! i = Some false) ->
  (dictGet (alter (fun l => <[i := x]> l) key m) key' ≫=
     fun values => npBoolIndex values mask ≫= k)
  = (dictGet m key' ≫= fun values => npBoolIndex values mask ≫= k).
Proof.
  intros Hmask. unfold dictGet.
  destruct (decide (key = key')) as [<-|Hne].
  - rewrite lookup_alter_eq. destruct (m !! key) as [l|]; simpl; [|done].
    cbn [mbind outcome_bind]. by rewrite npBoolIndex_insert_masked by auto.
  - by rewrite lookup_alter_ne.
Qed.

Lemma dictGet_alter_masked_stack {B} (m : gmap string (list matrix)) key key' i xcorr
    (mask : list bool) (k : list matrix -> outcome B) :
  (key = key' -> mask !! i = Some false) ->
  (forall covs old, key = key' -> m !! key = Some covs -> covs !! i = Some old ->
     sameShape old xcorr) ->
  (dictGet (alter (fun l => <[i := xcorr]> l) key m) key' ≫=
     fun covs => npArray covs ≫= fun stack => npBoolIndex stack mask ≫= k)
  = (dictGet m key' ≫=
     fun covs => npArray covs ≫= fun stack => npBoolIndex stack mask ≫= k).
Proof.
  intros Hmask Hshape. unfold dictGet.
  destruct (decide (key = key')) as [<-|Hne].
  - rewrite lookup_alter_eq. destruct (m !! key) as [l|] eqn:Hl; simpl; [|done].
    cbn [mbind outcome_bind]. apply npArray_insert_masked; [auto|].
    intros old. by apply Hshape.
  - by rewrite lookup_alter_ne.
Qed.

Section Masked.

Variable meanClip : Q -> list Q -> Q.
Variable cosPiOver : nat -> Q.

Lemma ampStep_setSample_masked config inputPtc ampName mask i xcorr mean var st a :
  expIdMask inputPtc !! ampName = Some mask -> mask !! i = Some false ->
  (forall covs old, covariances inputPtc !! ampName = Some covs ->
     covs !! i = Some old -> sameShape old xcorr) ->
  ampStep meanClip cosPiOver config (setSample inputPtc ampName i xcorr mean var) st a
  = ampStep meanClip cosPiOver config inputPtc st a.
Proof.
  intros Hm Hi Hshape. unfold ampStep. cbn [setSample expIdMask gain finalMeans finalVars
                                      covariances aMatrix].
  destruct (dictGet (expIdMask inputPtc) a) as [mask'| |] eqn:Hm';
    cbn [mbind outcome_bind]; try done.
  assert (ampName = a -> mask' !! i = Some false) as Hmask.
  { intros ->. unfold dictGet in Hm'. rewrite Hm in Hm'. by injection Hm' as <-. }
  destruct (dictGet (gain inputPtc) a) as [g| |]; cbn [mbind outcome_bind]; try done.
  rewrite dictGet_alter_masked by done.
  destruct (dictGet (finalMeans inputPtc) a) as [means| |]; cbn [mbind outcome_bind]; try done.
  destruct (npBoolIndex means mask') as [fluxes| |]; cbn [mbind outcome_bind]; try done.
  rewrite dictGet_alter_masked by done.
  destruct (dictGet (finalVars inputPtc) a) as [vars| |]; cbn [mbind outcome_bind]; try done.
  destruct (npBoolIndex vars mask') as [variances| |]; cbn [mbind outcome_bind]; try done.
  rewrite dictGet_alter_masked_stack; [done|done|].
  intros covs old _. apply Hshape.
Qed.

Lemma forM_pointwise {S A} (f g : S -> A -> outcome S) (l : list A) :
  (forall st a, f st a = g st a) -> forall st, forM f st l = forM g st l.
Proof.
  intros Hfg. induction l as [|a l IH]; intros st; cbn [forM]; [done|].
  rewrite Hfg. destruct (g st a); cbn [mbind outcome_bind]; auto.
Qed.

(** A sample whose entry in [expIdMask] is false influences [run] through
    the shape of its covariance alone: replacing its mean and its variance
    by any numbers and its covariance by any array of the same shape changes
    nothing, neither the kernels nor the log nor an exception. *)
Theorem run_ignores_masked_sample config inputPtc detector ampName mask i xcorr mean var :
  expIdMask inputPtc !! ampName = Some mask -> mask !! i = Some false ->
  (forall covs old, covariances inputPtc !! ampName = Some covs ->
     covs !! i = Some old -> sameShape old xcorr) ->
  run meanClip cosPiOver config (setSample inputPtc ampName i xcorr mean var) detector
  = run meanClip cosPiOver config inputPtc detector.
Proof.
  intros Hm Hi Hshape. unfold run.
  rewrite (forM_pointwise _ (ampStep meanClip cosPiOver config inputPtc)); [done|].
  intros st a. by eapply ampStep_setSample_masked.
Qed.

End Masked.

Lemma run_ignores_masked_sample_witness :
  let inputPtc :=
    {| expIdMask := {[ "C00" := [true; false] ]};
       finalMeans := {[ "C00" := [1; 5]%Q ]};
       finalVars := {[ "C00" := [2; 7]%Q ]};
       covariances := {[ "C00" := [[[1; 1]; [1; 1]]; [[9; 9]; [9; 9]]]%Q ]};
       gain := {[ "C00" := 1%Q ]};
       aMatrix := ∅ |} in
  let detector := {| detName := "R22_S11"; ampNames := ["C00"] |} in
  run plainMean cosPiOverQ (configWith AMP [] 1)
      (setSample inputPtc "C00" 1 [[0; 0]; [0; 0]]%Q 3 4) detector
  = run plainMean cosPiOverQ (configWith AMP [] 1) inputPtc detector.
Proof.
  intros inputPtc detector.
  apply (run_ignores_masked_sample plainMean cosPiOverQ (configWith AMP [] 1)
           inputPtc detector "C00" [true; false] 1).
  - reflexivity.
  - reflexivity.
  - intros covs old Hc Ho. vm_compute in Hc. injection Hc as <-.
    vm_compute in Ho. injection Ho as <-. reflexivity.
Defined.

(** The shape does matter: [np.array(xCorrList)] is built from all the
    covariances before the mask is applied, so a masked covariance of
    another shape makes [run] raise. *)
Lemma run_masked_shape_matters :
  let inputPtc :=
    {| expIdMask := {[ "C00" := [true; false] ]};
       finalMeans := {[ "C00" := [1; 5]%Q ]};
       finalVars := {[ "C00" := [2; 7]%Q ]};
       covariances := {[ "C00" := [[[1; 1]; [1; 1]]; [[9; 9]; [9; 9]]]%Q ]};
       gain := {[ "C00" := 1%Q ]};
       aMatrix := ∅ |} in
  let detector := {| detName := "R22_S11"; ampNames := ["C00"] |} in
  run plainMean cosPiOverQ (configWith AMP [] 1)
      (setSample inputPtc "C00" 1 [[0; 0; 0]; [0; 0; 0]]%Q 3 4) detector
  = Raise ValueError.
Proof. vm_compute. reflexivity. Qed.

(** ** The loop over the flat pairs *)

Module PtcRunFacts.
Import Ptc PtcRun.

(** ** Rounding to float64 *)

Lemma Qltb_ge x y : Qltb x y = false <-> (y <= x)%Q.
Proof. unfold Qltb. by rewrite negb_false_iff, Qle_bool_iff. Qed.

Lemma Qltb_comp x x' y y' : (x == x')%Q -> (y == y')%Q -> Qltb x y = Qltb x' y'.
Proof. intros Hx Hy. unfold Qltb. by rewrite Hx, Hy. Qed.

Lemma roundHalfEven_error m : (Qabs (inject_Z (roundHalfEven m) - m) <= 1 # 2)%Q.
Proof.
  unfold roundHalfEven.
  pose proof (Qfloor_le m) as Hlo. pose proof (Qlt_floor m) as Hhi.
  rewrite inject_Z_plus in Hhi. change (inject_Z 1) with 1%Q in Hhi.
  apply Qabs_Qle_condition.
  destruct (Qltb (m - inject_Z (Qfloor m)) (1 # 2)) eqn:H1.
  - apply Qltb_lt in H1. split; lra.
  - apply Qltb_ge in H1.
    destruct (Qltb (1 # 2) (m - inject_Z (Qfloor m))) eqn:H2.
    + apply Qltb_lt in H2. rewrite inject_Z_plus. change (inject_Z 1) with 1%Q.
      split; lra.
    + apply Qltb_ge in H2. destruct (Z.even (Qfloor m)).
      * split; lra.
      * rewrite inject_Z_plus. change (inject_Z 1) with 1%Q. split; lra.
Qed.

Lemma roundHalfEven_comp m m' : (m == m')%Q -> roundHalfEven m = roundHalfEven m'.
Proof.
  intros H. unfold roundHalfEven. rewrite (Qfloor_comp _ _ H).
  rewrite (Qltb_comp (m - _) (m' - inject_Z (Qfloor m')) (1 # 2) (1 # 2))
    by (try rewrite H; reflexivity).
  rewrite (Qltb_comp (1 # 2) (1 # 2) (m - _) (m' - inject_Z (Qfloor m')))
    by (try rewrite H; reflexivity).
  reflexivity.
Qed.

Lemma roundHalfEven_int z : roundHalfEven (inject_Z z) = z.
Proof.
  unfold roundHalfEven. rewrite Qfloor_Z.
  assert (Qltb (inject_Z z - inject_Z z) (1 # 2) = true) as ->; [|done].
  apply Qltb_lt. lra.
Qed.

Lemma exponentOf_comp q q' : (q == q')%Q -> exponentOf q = exponentOf q'.
Proof.
  intros H. unfold exponentOf.
  assert (Qabs q == Qabs q')%Q as Ha by (by rewrite H).
  assert (Qle_bool 1 (Qabs q) = Qle_bool 1 (Qabs q')) as -> by (by rewrite Ha).
  rewrite (Qfloor_comp _ _ Ha).
  assert (/ Qabs q == / Qabs q')%Q as Hi by (by rewrite Ha).
  by rewrite (Qceiling_comp _ _ Hi).
Qed.

Lemma toFloat64_comp q q' : (q == q')%Q -> (toFloat64 q == toFloat64 q')%Q.
Proof.
  intros H. unfold toFloat64.
  assert (Qeq_bool q 0 = Qeq_bool q' 0) as -> by (by rewrite H).
  destruct (Qeq_bool q' 0); [reflexivity|].
  rewrite (exponentOf_comp _ _ H).
  rewrite (roundHalfEven_comp (q / _) (q' / 2 ^ (exponentOf q' - 52))); [reflexivity|].
  by rewrite H.
Qed.

(** An exponent is below every power of two that bounds the number. *)
Lemma exponentOf_upper q k :
  (1 <= k)%Z -> (Qabs q < inject_Z (2 ^ k))%Q -> (exponentOf q <= k - 1)%Z.
Proof.
  intros Hk Hq. unfold exponentOf.
  destruct (Qle_bool 1 (Qabs q)) eqn:H1.
  - apply Qle_bool_iff in H1.
    pose proof (Qfloor_resp_le _ _ H1) as Hf. change (Qfloor 1) with 1%Z in Hf.
    pose proof (Qfloor_le (Qabs q)) as Hlo.
    assert (Qfloor (Qabs q) < 2 ^ k)%Z as Hlt.
    { rewrite Zlt_Qlt. eapply Qle_lt_trans; [exact Hlo|exact Hq]. }
    apply Z.log2_lt_pow2 in Hlt; lia.
  - pose proof (Z.log2_up_nonneg (Qceiling (/ Qabs q))). lia.
Qed.

(** The rounding error is at most half a unit in the last place. *)
Lemma toFloat64_error q :
  ~ (q == 0)%Q ->
  (Qabs (toFloat64 q - q) <= 2 ^ (exponentOf q - 52) * (1 # 2))%Q.
Proof.
  intros Hq. unfold toFloat64.
  destruct (Qeq_bool q 0) eqn:H0; [by apply Qeq_bool_iff in H0|].
  set (u := (2 ^ (exponentOf q - 52))%Q).
  assert (0 < u)%Q as Hu by (by apply Qpower_0_lt).
  pose proof (roundHalfEven_error (q / u)) as Herr.
  assert (inject_Z (roundHalfEven (q / u)) * u - q
          == (inject_Z (roundHalfEven (q / u)) - q / u) * u)%Q as ->.
  { field. lra. }
  rewrite Qabs_Qmult, (Qabs_pos u) by lra.
  rewrite (Qmult_comm _ (1 # 2)). apply Qmult_le_compat_r; lra.
Qed.

(** Integers below [2^53] are float64 numbers. *)
Lemma toFloat64_int d :
  (Z.abs d < 2 ^ 53)%Z -> (toFloat64 (inject_Z d) == inject_Z d)%Q.
Proof.
  intros Hd. unfold toFloat64.
  destruct (Qeq_bool (inject_Z d) 0) eqn:H0; [symmetry; by apply Qeq_bool_iff|].
  assert (d <> 0%Z) as Hne by (intros ->; done).
  assert (exponentOf (inject_Z d) = Z.log2 (Z.abs d)) as ->.
  { unfold exponentOf. change (Qabs (inject_Z d)) with (inject_Z (Z.abs d)).
    rewrite Qfloor_Z.
    assert (Qle_bool 1 (inject_Z (Z.abs d)) = true) as ->; [|done].
    apply Qle_bool_iff. change 1%Q with (inject_Z 1). rewrite <- Zle_Qle. lia. }
  set (e := Z.log2 (Z.abs d)).
  assert (0 <= e < 53)%Z as He.
  { split; [apply Z.log2_nonneg|]. apply Z.log2_lt_pow2; lia. }
  assert (2 ^ (e - 52) == / inject_Z (2 ^ (52 - e)))%Q as Hulp.
  { replace (e - 52)%Z with (- (52 - e))%Z by lia.
    rewrite Qpower_opp, Zpower_Qpower by lia. reflexivity. }
  assert (0 < inject_Z (2 ^ (52 - e)))%Q as Hpos.
  { change 0%Q with (inject_Z 0). rewrite <- Zlt_Qlt. apply Z.pow_pos_nonneg; lia. }
  rewrite (roundHalfEven_comp _ (inject_Z (d * 2 ^ (52 - e)))).
  - rewrite roundHalfEven_int, Hulp, inject_Z_mult. field. lra.
  - rewrite Hulp, inject_Z_mult. field. lra.
Qed.

(** Below [2^53] the float64 test [n/1000 == d] holds exactly when
    [n = 1000*d]: both sides of the comparison are rounded, the integer
    without error and the quotient by less than a thousandth. *)
Lemma toFloat64_div1000 (n d : Z) :
  (Z.abs n < 2 ^ 53)%Z -> (Z.abs d < 2 ^ 53)%Z ->
  Qeq_bool (toFloat64 (inject_Z n / 1000)) (toFloat64 (inject_Z d)) = (1000 * d =? n)%Z.
Proof.
  intros Hn Hd. destruct (Z.eqb_spec (1000 * d) n) as [<-|Hne].
  - apply Qeq_bool_iff. apply toFloat64_comp.
    rewrite inject_Z_mult. field.
  - apply not_true_iff_false. intros H%Qeq_bool_iff.
    rewrite (toFloat64_int d Hd) in H.
    set (q := (inject_Z n / 1000)%Q) in *.
    assert (inject_Z (1000 * d - n) == 1000 * (inject_Z d - q))%Q as Hdiff.
    { unfold q, Z.sub. rewrite inject_Z_plus, inject_Z_opp, inject_Z_mult. field. }
    assert (Qabs (inject_Z d - q) < 1 # 1000)%Q as Hclose.
    { destruct (Qeq_dec q 0) as [Hq0|Hq0].
      - assert (toFloat64 q == 0)%Q as Hz.
        { rewrite (toFloat64_comp _ _ Hq0). reflexivity. }
        rewrite <- H, Hz, Hq0. reflexivity.
      - rewrite <- H. eapply Qle_lt_trans; [by apply toFloat64_error|].
        assert (exponentOf q <= 43)%Z as He.
        { apply (exponentOf_upper q 44); [lia|].
          unfold q. unfold Qdiv. rewrite Qabs_Qmult.
          change (Qabs (inject_Z n)) with (inject_Z (Z.abs n)).
          change (Qabs (/ 1000)) with (1 # 1000)%Q.
          assert (inject_Z (Z.abs n) < inject_Z (2 ^ 53))%Q as Hb by (by rewrite <- Zlt_Qlt).
          change (inject_Z (2 ^ 53)) with (9007199254740992 # 1)%Q in Hb.
          change (inject_Z (2 ^ 44)) with (17592186044416 # 1)%Q. lra. }
        assert (2 ^ (exponentOf q - 52) <= 2 ^ (-9))%Q as Hu.
        { apply Qpower_le_compat_l; [lia|]. lra. }
        change (2 ^ (-9))%Q with (1 # 512)%Q in Hu. lra. }
    apply Qabs_Qlt_condition in Hclose.
    assert (-1 < inject_Z (1000 * d - n) < 1)%Q as [Hlo Hhi] by (rewrite Hdiff; lra).
    change (-1)%Q with (inject_Z (-1)) in Hlo. change 1%Q with (inject_Z 1) in Hhi.
    rewrite <- Zlt_Qlt in Hlo, Hhi. lia.
Qed.

Lemma firstIndex_cons P d (rest : list Z) :
  firstIndex P (d :: rest) = if P d then Some 0 else S <$> firstIndex P rest.
Proof.
  unfold firstIndex. cbn [list_find].
  destruct (P d) eqn:HP.
  - by rewrite decide_True.
  - rewrite decide_False by congruence.
    destruct (list_find (fun d0 => P d0 = true) rest) as [[i x]|]; done.
Qed.

Lemma firstIndex_pointwise P P' (inputDims : list Z) :
  (forall d, P d = P' d) -> firstIndex P inputDims = firstIndex P' inputDims.
Proof.
  intros HP. induction inputDims as [|d rest IH]; [done|].
  by rewrite !firstIndex_cons, HP, IH.
Qed.

Lemma firstIndex_on_list P P' (inputDims : list Z) :
  Forall (fun d => P d = P' d) inputDims ->
  firstIndex P inputDims = firstIndex P' inputDims.
Proof.
  induction 1 as [|d rest Hd _ IH]; [done|].
  by rewrite !firstIndex_cons, Hd, IH.
Qed.

Lemma whereEq_head conv k x (inputDims : list Z) :
  head (whereEq conv k x inputDims)
  = (fun i => k + i) <$> firstIndex (fun d => Qeq_bool x (conv d)) inputDims.
Proof.
  revert k. induction inputDims as [|d rest IH]; intros k; [done|].
  rewrite firstIndex_cons. cbn [whereEq].
  destruct (Qeq_bool x (conv d)).
  - simpl. f_equal. lia.
  - rewrite IH. destruct (firstIndex _ rest); simpl; [|done]. f_equal. lia.
Qed.

Lemma whereEq_match {A} conv x (inputDims : list Z) (some : nat -> A) (none : A) :
  match whereEq conv 0 x inputDims with i :: _ => some i | [] => none end
  = match firstIndex (fun d => Qeq_bool x (conv d)) inputDims with
    | Some i => some i
    | None => none
    end.
Proof.
  pose proof (whereEq_head conv 0 x inputDims) as Hh.
  destruct (whereEq conv 0 x inputDims) as [|i l];
    destruct (firstIndex _ inputDims); simpl in Hh; try done.
  by injection Hh as ->.
Qed.

Lemma whereEq_nil conv x (inputDims : list Z) :
  firstIndex (fun d => Qeq_bool x (conv d)) inputDims = None ->
  whereEq conv 0 x inputDims = [].
Proof.
  intros Hf. pose proof (whereEq_head conv 0 x inputDims) as Hh.
  rewrite Hf in Hh. by destruct (whereEq conv 0 x inputDims).
Qed.

Lemma Qeq_bool_inject (a b : Z) : Qeq_bool (inject_Z a) (asInt64 b) = (b =? a)%Z.
Proof.
  unfold asInt64. destruct (Z.eqb_spec b a) as [->|Hne].
  - apply Qeq_bool_iff. reflexivity.
  - apply not_true_iff_false. rewrite Qeq_bool_iff. unfold Qeq. simpl. lia.
Qed.

(** The chain with its duplicates removed: four tests decide, the second of
    which compares float64 numbers. *)
Lemma datasetIndex_chain (expId1 : Z) (inputDims : list Z) :
  datasetIndex expId1 inputDims =
    match firstIndex (fun d => d =? expId1)%Z inputDims with
    | Some i => Outcome (Return i)
    | None =>
    match firstIndex (fun d => Qeq_bool (toFloat64 (inject_Z expId1 / 1000)) (asFloat64 d))
            inputDims with
    | Some i => Outcome (Return i)
    | None =>
    match firstIndex (fun d => d =? expId1 / 100)%Z inputDims with
    | Some i => Outcome (Return i)
    | None =>
    match firstIndex (fun d => d =? expId1 / 10)%Z inputDims with
    | Some i => Outcome (Return i)
    | None => RuntimeError "Cannot find appropriate datasetIndex!"
    end end end end.
Proof.
  unfold datasetIndex. cbv zeta.
  rewrite !whereEq_match.
  rewrite (firstIndex_pointwise _ (fun d => d =? expId1)%Z)
    by (intros; apply Qeq_bool_inject).
  destruct (firstIndex (fun d => d =? expId1)%Z inputDims); [done|].
  destruct (firstIndex (fun d => Qeq_bool _ (asFloat64 d)) inputDims) eqn:H2; [done|].
  rewrite (whereEq_nil _ _ _ H2). cbn [map].
  rewrite (firstIndex_pointwise _ (fun d => d =? expId1 / 100)%Z)
    by (intros; apply Qeq_bool_inject).
  destruct (firstIndex (fun d => d =? expId1 / 100)%Z inputDims) eqn:H3; [done|].
  rewrite (whereEq_nil asInt64 (inject_Z (expId1 / 100)) inputDims); cycle 1.
  { rewrite (firstIndex_pointwise _ (fun d => d =? expId1 / 100)%Z)
      by (intros; apply Qeq_bool_inject). exact H3. }
  cbn [map].
  rewrite (firstIndex_pointwise _ (fun d => d =? expId1 / 10)%Z)
    by (intros; apply Qeq_bool_inject).
  destruct (firstIndex (fun d => d =? expId1 / 10)%Z inputDims) eqn:H4; [done|].
  rewrite (whereEq_nil asInt64 (inject_Z (expId1 / 10)) inputDims); [done|].
  rewrite (firstIndex_pointwise _ (fun d => d =? expId1 / 10)%Z)
    by (intros; apply Qeq_bool_inject). exact H4.
Qed.

Lemma datasetIndex_spec (expId1 : Z) (inputDims : list Z) :
  exactInFloat64 expId1 -> Forall exactInFloat64 inputDims ->
  datasetIndex expId1 inputDims =
    match firstIndex (fun d => d =? expId1)%Z inputDims with
    | Some i => Outcome (Return i)
    | None =>
    match firstIndex (fun d => 1000 * d =? expId1)%Z inputDims with
    | Some i => Outcome (Return i)
    | None =>
    match firstIndex (fun d => d =? expId1 / 100)%Z inputDims with
    | Some i => Outcome (Return i)
    | None =>
    match firstIndex (fun d => d =? expId1 / 10)%Z inputDims with
    | Some i => Outcome (Return i)
    | None => RuntimeError "Cannot find appropriate datasetIndex!"
    end end end end.
Proof.
  intros Hid Hdims. rewrite datasetIndex_chain.
  rewrite (firstIndex_on_list (fun d => Qeq_bool _ (asFloat64 d))
             (fun d => 1000 * d =? expId1)%Z); [done|].
  eapply Forall_impl; [exact Hdims|]. intros d Hd. by apply toFloat64_div1000.
Qed.

(** For exposure ids below [2^53], which float64 holds exactly:
    [datasetIndex] is the first position of [inputDims] that holds
    [expId1]; failing that, the first that holds exactly a thousandth of
    it; failing that, the first that holds it floor-divided by 100, then by
    10; and [RuntimeError] if there is none.  The three tests on
    floor-divided indices never decide. *)
Theorem datasetIndex_first_match (expId1 : Z) (inputDims : list Z) :
  exactInFloat64 expId1 -> Forall exactInFloat64 inputDims ->
  datasetIndex expId1 inputDims =
    match firstIndex (fun d => d =? expId1)%Z inputDims with
    | Some i => Outcome (Return i)
    | None =>
    match firstIndex (fun d => 1000 * d =? expId1)%Z inputDims with
    | Some i => Outcome (Return i)
    | None =>
    match firstIndex (fun d => d =? expId1 / 100)%Z inputDims with
    | Some i => Outcome (Return i)
    | None =>
    match firstIndex (fun d => d =? expId1 / 10)%Z inputDims with
    | Some i => Outcome (Return i)
    | None => RuntimeError "Cannot find appropriate datasetIndex!"
    end end end end.
Proof. apply datasetIndex_spec. Qed.

(** Beyond [2^53] the second test is not exact: the quotient
    9007199254740993.001 and the id 9007199254740994 are the same float64. *)
Lemma datasetIndex_rounds_large_ids :
  datasetIndex 9007199254740993001 [9007199254740994%Z] = Outcome (Return 0).
Proof. vm_compute. reflexivity. Qed.

Lemma firstIndex_lt P (inputDims : list Z) i :
  firstIndex P inputDims = Some i -> i < length inputDims.
Proof.
  unfold firstIndex. destruct (list_find _ inputDims) as [[j d]|] eqn:Hf; [|done].
  intros [= <-]. apply list_find_Some in Hf as (Hj & _). by apply lookup_lt_Some in Hj.
Qed.

Lemma datasetIndex_in_range expId1 (inputDims : list Z) i :
  datasetIndex expId1 inputDims = Outcome (Return i) -> i < length inputDims.
Proof.
  rewrite datasetIndex_chain.
  repeat match goal with
         | |- context [firstIndex ?P inputDims] =>
             let H := fresh "H" in
             destruct (firstIndex P inputDims) eqn:H;
             [intros [= <-]; by apply firstIndex_lt in H|]
         end.
  done.
Qed.

Section ExtractFacts.

Variable Exposure : Type.
Variable getExposureId : Exposure -> Z.
Variable getAmpNames : Exposure -> list string.
Variable maskEdges : Z -> string -> Exposure -> Exposure.
Variable CovRows : Type.
Variable measureMeanVarCov :
  Exposure -> Exposure -> option string -> bool -> float * float * option CovRows.
Variable sigmaClipCorrection : Q -> Q.
Variable makeCovArray :
  nat -> Q -> string -> float -> float -> CovRows -> nat -> ndarray.

Let step := pairStep Exposure getExposureId maskEdges CovRows measureMeanVarCov
              sigmaClipCorrection makeCovArray.
Let runOf := extractRun Exposure getExposureId getAmpNames maskEdges CovRows
               measureMeanVarCov sigmaClipCorrection makeCovArray.

Lemma pairStep_length config ampNames inputDims out bucket out' :
  length out = length inputDims ->
  step config ampNames inputDims out bucket = Outcome (Return out') ->
  length out' = length inputDims.
Proof.
  intros Hlen. unfold step, pairStep. destruct bucket as [expTime exposures].
  destruct (length exposures =? 1); [by intros [= <-]|].
  destruct exposures as [|exp1 [|exp2 rest]]; try done.
  destruct (forM _ _ _) as [data| |]; cbn [runBind]; try done.
  destruct (datasetIndex _ inputDims) as [[i| |]|] eqn:Hidx; cbn [runBind]; try done.
  unfold listSet. apply datasetIndex_in_range in Hidx.
  destruct (Nat.ltb_spec i (length out)); [|lia].
  intros [= <-]. by rewrite length_insert.
Qed.

Lemma forRun_length config ampNames inputDims buckets : forall out out',
  length out = length inputDims ->
  forRun (step config ampNames inputDims) out buckets = Outcome (Return out') ->
  length out' = length inputDims.
Proof.
  induction buckets as [|b buckets IH]; intros out out' Hlen; cbn [forRun].
  - by intros [= <-].
  - destruct (step config ampNames inputDims out b) as [[out1| |]|] eqn:Hstep;
      cbn [runBind]; try done.
    apply IH. by eapply pairStep_length.
Qed.

(** Whenever the loop over the flat pairs returns, its output list has one
    entry for each input exposure id: as many as [inputDims]. *)
Theorem extractRun_output_length config inputExp inputDims out :
  runOf config inputExp inputDims = Outcome (Return out) ->
  length out = length inputDims.
Proof using Type.
  unfold runOf, extractRun.
  destruct inputExp as [|[t [|first rest]] buckets]; try done.
  apply forRun_length. by rewrite length_replicate.
Qed.

Lemma forRun_skip {S A} (body : S -> A -> runOutcome S) (l1 l2 : list A) x :
  (forall st, body st x = Outcome (Return st)) ->
  forall st, forRun body st (l1 ++ x :: l2) = forRun body st (l1 ++ l2).
Proof.
  intros Hx. induction l1 as [|a l1 IH]; intros st; cbn [forRun app].
  - by rewrite Hx.
  - destruct (body st a) as [[st1| |]|]; cbn [runBind]; auto.
Qed.

(** An exposure time with a single flat, anywhere but first in the
    iteration order, changes nothing: the result is that of the input
    without it. *)
Theorem extractRun_drops_single config firstBucket before expTime exposure after inputDims :
  runOf config (firstBucket :: before ++ (expTime, [exposure]) :: after) inputDims
  = runOf config (firstBucket :: before ++ after) inputDims.
Proof using Type.
  unfold runOf, extractRun.
  destruct firstBucket as [t [|first rest]]; [done|].
  rewrite !app_comm_cons. apply forRun_skip. intros st. done.
Qed.

End ExtractFacts.

End PtcRunFacts.

Lemma extractRun_output_length_witness :
  let config :=
    {| PtcRun.extractConfig :=
         {| Ptc.maximumRangeCovariancesAstier := 1;
            Ptc.minMeanSignal := {[ "ALL_AMPS" := 0%Q ]};
            Ptc.maxMeanSignal := {[ "ALL_AMPS" := 1000000%Q ]};
            Ptc.nSigmaClipPtc := 11 # 2 |};
       PtcRun.covAstierRealSpace := false;
       PtcRun.detectorMeasurementRegion := PtcRun.RegionAmp;
       PtcRun.numEdgeSuspect := 0;
       PtcRun.edgeMaskLevel := "DETECTOR" |} in
  let runOf :=
    PtcRun.extractRun Z (fun expId => expId) (fun _ => ["C00"]) (fun _ _ e => e) unit
      (fun _ _ _ _ => (Some 500%Q, Some 250%Q, Some tt)) (fun _ => 1%Q)
      (fun _ _ _ _ _ _ _ =>
         Ptc.Array [Ptc.Array [Ptc.Array [Ptc.Scalar (Some 250%Q)]]]) in
  let inputExp := [(1%Q, [101; 102]%Z); (2%Q, [103]%Z); (3%Q, [104; 105]%Z)] in
  let inputDims := [101; 102; 103; 104; 105]%Z in
  exists out,
    runOf config inputExp inputDims = PtcRun.Outcome (Return out) /\
    length out = length inputDims.
Proof.
  intros config runOf inputExp inputDims.
  assert (exists out, runOf config inputExp inputDims = PtcRun.Outcome (Return out))
    as [out Hout].
  { subst runOf config inputExp inputDims. eexists. vm_compute. reflexivity. }
  exists out. split; [exact Hout|].
  eapply (PtcRunFacts.extractRun_output_length Z (fun expId => expId) (fun _ => ["C00"])
            (fun _ _ e => e) unit
            (fun _ _ _ _ => (Some 500%Q, Some 250%Q, Some tt)) (fun _ => 1%Q)
            (fun _ _ _ _ _ _ _ =>
               Ptc.Array [Ptc.Array [Ptc.Array [Ptc.Scalar (Some 250%Q)]]])
            config inputExp inputDims).
  exact Hout.
Defined.

Lemma datasetIndex_first_match_witness :
  let expId1 := 2021052300123000%Z in
  let inputDims := [2021052300122; 2021052300123]%Z in
  PtcRun.exactInFloat64 expId1 /\ Forall PtcRun.exactInFloat64 inputDims /\
  PtcRun.datasetIndex expId1 inputDims = PtcRun.Outcome (Return 1).
Proof.
  intros expId1 inputDims.
  assert (PtcRun.exactInFloat64 expId1) as Hid by reflexivity.
  assert (Forall PtcRun.exactInFloat64 inputDims) as Hdims by (repeat constructor).
  split; [exact Hid|]. split; [exact Hdims|].
  eapply eq_trans;
    [apply (PtcRunFacts.datasetIndex_first_match expId1 inputDims Hid Hdims)|].
  reflexivity.
Defined.

(** ** The values stored for one amplifier of a flat pair *)

Module AmpBodyFacts.
Import Ptc.

Lemma expIdMaskOf_true_iff (muDiff varDiff : float) covIsNone (minSignal maxSignal : Q) :
  expIdMaskOf muDiff varDiff covIsNone minSignal maxSignal = true <->
  exists mu var, muDiff = Some mu /\ varDiff = Some var /\ covIsNone = false /\
    (minSignal < mu)%Q /\ (mu < maxSignal)%Q.
Proof.
  split.
  - unfold expIdMaskOf, leNaN, geNaN, isnan.
    destruct muDiff as [mu|], varDiff as [var|], covIsNone; simpl;
      try (by destruct (_ || _)); try done.
    destruct (Qle_bool mu minSignal) eqn:Hlo; [done|].
    destruct (Qle_bool maxSignal mu) eqn:Hhi; [done|]. intros _.
    exists mu, var. repeat split.
    + apply Qnot_le_lt. rewrite <- Qle_bool_iff. congruence.
    + apply Qnot_le_lt. rewrite <- Qle_bool_iff. congruence.
  - intros (mu & var & -> & -> & -> & Hlo & Hhi).
    by apply PtcFacts.expIdMaskOf_inside.
Qed.

Lemma map_replicate {A B} (g : A -> B) n x : map g (replicate n x) = replicate n (g x).
Proof. induction n as [|n IH]; simpl; [done|]. by rewrite IH. Qed.

Lemma ndMap_nan_row f n : f None = None ->
  ndMap f (Array (replicate n (Scalar None))) = Array (replicate n (Scalar None)).
Proof. intros Hf. cbn [ndMap]. rewrite map_replicate. cbn [ndMap]. by rewrite Hf. Qed.

Lemma ndMap_fullNaN f n : f None = None -> ndMap f (fullNaN n) = fullNaN n.
Proof.
  intros Hf. unfold fullNaN. cbn [ndMap map]. rewrite map_replicate.
  by rewrite ndMap_nan_row.
Qed.

(** The all-NaN array is a fixed point of the correction when it has a row
    of lag 0. *)
Lemma sigmaClipCorrectCov_fullNaN varFactor n :
  0 < n -> sigmaClipCorrectCov varFactor (fullNaN n) = Return (fullNaN n).
Proof.
  intros Hn. unfold sigmaClipCorrectCov. rewrite ndMap_fullNaN by done.
  unfold fullNaN. cbn [ndAlterAt lookup list_lookup].
  rewrite lookup_replicate_2 by done.
  rewrite ndMap_nan_row by done.
  rewrite (list_insert_id (replicate n (Array (replicate n (Scalar None)))) 0)
    by (by apply lookup_replicate_2).
  done.
Qed.

Section AmpBody.

Variable CovRows : Type.
Variable sigmaClipCorrection : Q -> Q.
Variable makeCovArray : float -> float -> CovRows -> nat -> ndarray.

(** What [setAmpValues] receives when the body returns: the mean as
    measured, the variance times the squared clipping factor, and a mask
    that is true exactly when mean and variance are numbers, covariances
    were measured, and the mean lies strictly between the two bounds of the
    amplifier. *)
Theorem ampBody_values config ampName (muDiff varDiff : float)
    (covAstier : option CovRows) values :
  ampBody CovRows sigmaClipCorrection makeCovArray config ampName muDiff varDiff covAstier
    = Return values ->
  let varFactor := (sigmaClipCorrection (nSigmaClipPtc config)
                    * sigmaClipCorrection (nSigmaClipPtc config))%Q in
  rawMean values = muDiff /\
  rawVar values = (fun v => v * varFactor)%Q <$> varDiff /\
  (ampExpIdMask values = true <->
   exists mu var rows, muDiff = Some mu /\ varDiff = Some var /\ covAstier = Some rows /\
     (meanSignalBound 0 (minMeanSignal config) ampName < mu)%Q /\
     (mu < meanSignalBound 1000000 (maxMeanSignal config) ampName)%Q).
Proof.
  intros Hrun varFactor. unfold ampBody in Hrun.
  apply bind_Return in Hrun as (cov & _ & Hrun). injection Hrun as <-.
  cbn [rawMean rawVar ampExpIdMask]. split; [done|]. split; [done|].
  rewrite expIdMaskOf_true_iff. split.
  - intros (mu & var & -> & Hvar & Hcov & Hlo & Hhi).
    destruct varDiff as [v|]; [|done].
    destruct covAstier as [rows|]; [|by apply bool_decide_eq_false in Hcov].
    exists mu, v, rows. auto.
  - intros (mu & var & rows & -> & -> & -> & Hlo & Hhi).
    eexists mu, _. repeat split; try done.
Qed.

(** A pair without covariances is not an error: with a positive
    [maximumRangeCovariancesAstier] the body returns, masked, with the
    all-NaN covariance array of shape (1, n, n). *)
Theorem ampBody_unusable_pair config ampName (muDiff varDiff : float) :
  0 < maximumRangeCovariancesAstier config ->
  exists values,
    ampBody CovRows sigmaClipCorrection makeCovArray config ampName muDiff varDiff None
      = Return values /\
    ampExpIdMask values = false /\
    rawMean values = muDiff /\
    covArray values = fullNaN (maximumRangeCovariancesAstier config).
Proof.
  intros Hn. unfold ampBody.
  rewrite sigmaClipCorrectCov_fullNaN by done. cbn [mbind outcome_bind].
  eexists. split; [reflexivity|]. cbn [ampExpIdMask rawMean covArray].
  split; [|done]. unfold expIdMaskOf. rewrite bool_decide_eq_true_2 by done.
  rewrite !orb_true_r. by destruct (_ || _).
Qed.

End AmpBody.

End AmpBodyFacts.

Lemma ampBody_values_witness :
  let config :=
    {| Ptc.maximumRangeCovariancesAstier := 1;
       Ptc.minMeanSignal := {[ "ALL_AMPS" := 0%Q ]};
       Ptc.maxMeanSignal := {[ "ALL_AMPS" := 1000000%Q ]};
       Ptc.nSigmaClipPtc := 11 # 2 |} in
  let body :=
    Ptc.ampBody unit (fun _ => 2%Q)
      (fun _ _ _ _ => Ptc.Array [Ptc.Array [Ptc.Array [Ptc.Scalar (Some 250%Q)]]]) in
  exists values,
    body config "C00" (Some 500%Q) (Some 250%Q) (Some tt) = Return values /\
    let varFactor := (2 * 2)%Q in
    Ptc.rawMean values = Some 500%Q /\
    Ptc.rawVar values = (fun v => v * varFactor)%Q <$> Some 250%Q /\
    (Ptc.ampExpIdMask values = true <->
     exists mu var rows, Some 500%Q = Some mu /\ Some 250%Q = Some var /\ Some tt = Some rows /\
       (Ptc.meanSignalBound 0 (Ptc.minMeanSignal config) "C00" < mu)%Q /\
       (mu < Ptc.meanSignalBound 1000000 (Ptc.maxMeanSignal config) "C00")%Q).
Proof.
  intros config body. eexists. split; [vm_compute; reflexivity|].
  eapply (AmpBodyFacts.ampBody_values unit (fun _ => 2%Q)
            (fun _ _ _ _ => Ptc.Array [Ptc.Array [Ptc.Array [Ptc.Scalar (Some 250%Q)]]])
            config "C00" (Some 500%Q) (Some 250%Q) (Some tt)).
  vm_compute. reflexivity.
Defined.

Lemma ampBody_unusable_pair_witness :
  let config :=
    {| Ptc.maximumRangeCovariancesAstier := 8;
       Ptc.minMeanSignal := {[ "ALL_AMPS" := 0%Q ]};
       Ptc.maxMeanSignal := {[ "ALL_AMPS" := 1000000%Q ]};
       Ptc.nSigmaClipPtc := 11 # 2 |} in
  exists values,
    Ptc.ampBody unit (fun _ => 2%Q) (fun _ _ _ _ => Ptc.Scalar None)
      config "C00" None None None = Return values /\
    Ptc.ampExpIdMask values = false /\
    Ptc.rawMean values = None /\
    Ptc.covArray values = Ptc.fullNaN (Ptc.maximumRangeCovariancesAstier config).
Proof.
  intros config.
  apply (AmpBodyFacts.ampBody_unusable_pair unit (fun _ => 2%Q)
           (fun _ _ _ _ => Ptc.Scalar None) config "C00" None None).
  simpl. lia.
Defined.

(** ** The zero-sum kernels that [run] stores *)

Lemma wf_hasShape r c (m : matrix) : hasShape r c m = true -> wf r c m.
Proof.
  unfold hasShape. intros [Hl Hr]%andb_true_iff. split.
  - by apply Nat.eqb_eq.
  - apply Forall_forall. intros row Hin. apply Nat.eqb_eq.
    rewrite forallb_forall in Hr. apply Hr. by apply list_elem_of_In.
Qed.

Section ZeroSumStored.

Variable meanClip : Q -> list Q -> Q.
Variable cosPiOver : nat -> Q.

(** Whatever [averageCorrelations] returns sums to zero. *)
Lemma averageCorrelations_returned_sum config (xCorrList : list matrix) kernel :
  averageCorrelations meanClip config xCorrList = Return kernel ->
  (matSum kernel == 0)%Q.
Proof.
  intros Hrun.
  destruct xCorrList as [|x0 rest] eqn:Hx; [done|]. rewrite <- Hx in *.
  assert (exists n, Forall (wf n n) xCorrList) as [n Hall].
  { unfold averageCorrelations in Hrun. rewrite Hx in Hrun. rewrite <- Hx in Hrun.
    destruct (forallb (hasShape (shape0 x0) (shape1 x0)) xCorrList) eqn:Hshape; [|done].
    destruct (Nat.eqb_spec (shape0 x0) (shape1 x0)) as [Hsq|]; [|done].
    exists (shape0 x0). apply Forall_forall. intros x Hin.
    rewrite forallb_forall in Hshape. apply list_elem_of_In in Hin.
    specialize (Hshape x Hin). rewrite <- Hsq in Hshape. by apply wf_hasShape. }
  destruct (averageCorrelations_returns meanClip config xCorrList n) as (padded & Hwf & Hret).
  { by rewrite Hx. }
  { exact Hall. }
  rewrite Hret in Hrun. injection Hrun as <-.
  assert ((n + 2 - 1) / 2 < n + 2) as Hc.
  { apply Nat.Div0.div_lt_upper_bound. lia. }
  rewrite (matSum_mset (n + 2) (n + 2)) by done. ring.
Qed.

Lemma ampStep_stored_sum config inputPtc st ampName st' :
  useAmatrix config = false ->
  ampStep meanClip cosPiOver config inputPtc st ampName = Return st' ->
  (forall a pre, bfkMeanXCorrs st !! a = Some pre -> (matSum pre == 0)%Q) ->
  forall a pre, bfkMeanXCorrs st' !! a = Some pre -> (matSum pre == 0)%Q.
Proof.
  intros Hcfg Hrun Hinv. unfold ampStep in Hrun. rewrite Hcfg in Hrun.
  repeat (apply bind_Return in Hrun as (? & _ & Hrun)).
  destruct (length (scaledCorrList _) =? 0).
  - destruct (lastScaled _); [|done]. injection Hrun as <-. exact Hinv.
  - apply bind_Return in Hrun as (preKernel & Hpre & Hrun).
    apply bind_Return in Hrun as ([post msg] & _ & Hrun).
    injection Hrun as <-. cbn [bfkMeanXCorrs]. intros a pre.
    destruct (decide (ampName = a)) as [<-|Hne].
    + rewrite lookup_insert_eq. intros [= <-].
      by eapply averageCorrelations_returned_sum.
    + rewrite lookup_insert_ne by done. apply Hinv.
Qed.

(** With [useAmatrix] off and samples of non-zero flux, every pre-kernel
    that [run] stores in [meanXCorrs] sums to zero.  (At a flux of zero the
    source divides by zero and stores values that are not numbers, whose sum
    is not a number either.) *)
Theorem run_stores_zero_sum_kernels config inputPtc detector bfk log :
  useAmatrix config = false ->
  Forall (nonzeroFluxes inputPtc) (ampNames detector) ->
  run meanClip cosPiOver config inputPtc detector = Return (bfk, log) ->
  forall ampName preKernel,
    meanXCorrs bfk !! ampName = Some preKernel -> (matSum preKernel == 0)%Q.
Proof.
  intros Hcfg _ Hrun. unfold run in Hrun.
  apply bind_Return in Hrun as (st & Hloop & Hrun).
  apply bind_Return in Hrun as ([[post dets] lg] & _ & Hrun).
  destruct post; [|done]. injection Hrun as <- _. cbn [meanXCorrs].
  revert Hloop. generalize (ampNames detector) as amps. intros amps.
  assert (forall a pre, bfkMeanXCorrs (runInit) !! a = Some pre -> (matSum pre == 0)%Q) as H0.
  { intros a pre. unfold runInit. cbn [bfkMeanXCorrs]. by rewrite lookup_empty. }
  revert H0. generalize runInit as st0. revert st.
  induction amps as [|a amps IH]; intros st st0 H0 Hloop.
  - by injection Hloop as <-.
  - cbn [forM] in Hloop. apply bind_Return in Hloop as (st1 & Hstep & Hloop).
    eapply IH; [|exact Hloop]. by eapply ampStep_stored_sum.
Qed.

End ZeroSumStored.

Lemma run_stores_zero_sum_kernels_witness :
  let config := configWith AMP [] 1 in
  let inputPtc := onePtc "C00" [[1; 1]; [1; 1]]%Q 1 2 in
  let detector := {| detName := "R22_S11"; ampNames := ["C00"] |} in
  exists bfk log,
    run plainMean cosPiOverQ config inputPtc detector = Return (bfk, log) /\
    forall ampName preKernel,
      meanXCorrs bfk !! ampName = Some preKernel -> (matSum preKernel == 0)%Q.
Proof.
  intros config inputPtc detector. eexists. eexists.
  split; [vm_compute; reflexivity|].
  eapply (run_stores_zero_sum_kernels plainMean cosPiOverQ config inputPtc detector).
  - reflexivity.
  - constructor; [|constructor]. intros gain samples Hsamples.
    vm_compute in Hsamples. injection Hsamples as <- <-.
    constructor; [|constructor]. intros Hflux. vm_compute in Hflux. discriminate Hflux.
  - vm_compute. reflexivity.
Defined.

(** ** The solver is homogeneous *)

Section Homogeneous.

Variable c : Q.
Hypothesis c_nonzero : ~ (c == 0)%Q.

Lemma scaledBy_shape (m m' : matrix) :
  scaledBy c m m' -> shape0 m' = shape0 m /\ shape1 m' = shape1 m.
Proof.
  intros H. split.
  - unfold shape0. symmetry. by eapply Forall2_length.
  - destruct H as [|row row' m m' Hrow _]; [done|]. simpl. symmetry.
    by eapply Forall2_length.
Qed.

Lemma scaledBy_mget (m m' : matrix) i j :
  scaledBy c m m' -> (mget m' i j == c * mget m i j)%Q.
Proof.
  intros H. unfold mget.
  destruct (m !! i) as [row|] eqn:Hi.
  - destruct (Forall2_lookup_l _ _ _ _ _ H Hi) as (row' & -> & Hrow).
    destruct (row !! j) as [x|] eqn:Hj.
    + destruct (Forall2_lookup_l _ _ _ _ _ Hrow Hj) as (y & -> & Hy). exact Hy.
    + assert (row' !! j = None) as ->.
      { apply lookup_ge_None. apply lookup_ge_None in Hj.
        by rewrite <- (Forall2_length _ _ _ Hrow). }
      simpl. ring.
  - assert (m' !! i = None) as ->.
    { apply lookup_ge_None. apply lookup_ge_None in Hi.
      by rewrite <- (Forall2_length _ _ _ H). }
    ring.
Qed.

Lemma scaledBy_mset (m m' : matrix) i j v v' :
  scaledBy c m m' -> (v' == c * v)%Q -> scaledBy c (mset m i j v) (mset m' i j v').
Proof.
  intros H Hv. unfold mset, scaledBy. apply Forall2_alter; [exact H|].
  intros row row' _ _ Hrow. by apply Forall2_insert.
Qed.

Lemma scaledBy_zeros r k : scaledBy c (zeros r k) (zeros r k).
Proof.
  unfold scaledBy, zeros. apply Forall2_replicate, Forall2_replicate. ring.
Qed.

Lemma scaledBy_sumQ_abs (row row' : list Q) :
  Forall2 (fun x y => (y == c * x)%Q) row row' ->
  (sumQ (map Qabs row') == Qabs c * sumQ (map Qabs row))%Q.
Proof.
  induction 1 as [|x y row row' Hxy _ IH]; simpl; [ring|].
  rewrite IH, Hxy, Qabs_Qmult. ring.
Qed.

Lemma scaledBy_matAbsSum (m m' : matrix) :
  scaledBy c m m' -> (matAbsSum m' == Qabs c * matAbsSum m)%Q.
Proof.
  unfold matAbsSum, matSum, mmap.
  induction 1 as [|row row' m m' Hrow _ IH]; simpl; [ring|].
  rewrite IH, (scaledBy_sumQ_abs row row') by done. ring.
Qed.

Lemma scaledBy_interior (m m' : matrix) :
  scaledBy c m m' -> scaledBy c (interior m) (interior m').
Proof.
  intros H. unfold interior, scaledBy, slice1.
  rewrite <- (Forall2_length _ _ _ H).
  apply Forall2_fmap, Forall2_take, Forall2_drop.
  eapply Forall2_impl; [exact H|]. intros row row' Hrow. simpl.
  rewrite <- (Forall2_length _ _ _ Hrow). by apply Forall2_take, Forall2_drop.
Qed.

Variables source source' : matrix.
Hypothesis source_scaled : scaledBy c source source'.

Lemma scaledBy_residual0 f f' i j :
  scaledBy c f f' -> (residual0 f' source' i j == c * residual0 f source i j)%Q.
Proof using source_scaled.
  intros Hf. unfold residual0.
  rewrite !(scaledBy_mget f f') by done.
  rewrite (scaledBy_mget source source') by done. ring.
Qed.

Lemma scaledBy_residual f f' i j :
  scaledBy c f f' -> (residual f' source' i j == c * residual f source i j)%Q.
Proof using source_scaled.
  intros Hf. unfold residual.
  rewrite !(scaledBy_mget f f') by done.
  rewrite (scaledBy_mget source source') by done. ring.
Qed.

Lemma scaledBy_relax_fold w cells : forall fr fr',
  scaledBy c fr.1 fr'.1 -> scaledBy c fr.2 fr'.2 ->
  scaledBy c (foldl (relaxCell source w) fr cells).1
             (foldl (relaxCell source' w) fr' cells).1 /\
  scaledBy c (foldl (relaxCell source w) fr cells).2
             (foldl (relaxCell source' w) fr' cells).2.
Proof using source_scaled.
  induction cells as [|[i j] cells IH]; cbn [foldl]; intros [f r] [f' r'] Hf Hr; [done|].
  simpl in Hf, Hr.
  assert (scaledBy c (mset r i j (residual f source i j))
                     (mset r' i j (residual f' source' i j))) as Hr1.
  { apply scaledBy_mset; [done|]. by apply scaledBy_residual. }
  apply IH; simpl; [|done].
  apply scaledBy_mset; [done|].
  rewrite (scaledBy_mget f f') by done.
  rewrite (scaledBy_mget _ _ i j Hr1). ring.
Qed.

Lemma scaledBy_halfStep w k f f' r r' :
  scaledBy c f f' -> scaledBy c r r' ->
  scaledBy c (halfStep source w k f r).1 (halfStep source' w k f' r').1 /\
  scaledBy c (halfStep source w k f r).2 (halfStep source' w k f' r').2.
Proof using source_scaled.
  intros Hf Hr. unfold halfStep.
  destruct (scaledBy_shape _ _ Hf) as [-> ->].
  destruct (k mod 2 =? 0); apply scaledBy_relax_fold; by apply scaledBy_relax_fold.
Qed.

Lemma scaledBy_sorInit :
  scaledBy c (func (sorInit source)) (func (sorInit source')) /\
  scaledBy c (resid (sorInit source)) (resid (sorInit source')).
Proof using source_scaled.
  unfold sorInit. destruct (scaledBy_shape _ _ source_scaled) as [-> ->].
  cbn [func resid]. split; [apply scaledBy_zeros|].
  generalize (nest (pyRange 1 (shape0 (zeros (shape0 source + 2) (shape1 source + 2)) - 1))
                   (pyRange 1 (shape1 (zeros (shape0 source + 2) (shape1 source + 2)) - 1))).
  intros cells.
  assert (forall r r', scaledBy c r r' ->
            scaledBy c
              (foldl (initCell (zeros (shape0 source + 2) (shape1 source + 2)) source) r cells)
              (foldl (initCell (zeros (shape0 source + 2) (shape1 source + 2)) source') r' cells))
    as H.
  { induction cells as [|[i j] cells IH]; cbn [foldl]; intros r r' Hr; [done|].
    apply IH. apply scaledBy_mset; [done|]. apply scaledBy_residual0, scaledBy_zeros. }
  apply H, scaledBy_zeros.
Qed.

Lemma Qabs_pos_nonzero : (0 < Qabs c)%Q.
Proof using c_nonzero.
  destruct (Qle_lt_or_eq _ _ (Qabs_nonneg c)) as [Hlt|Heq]; [done|].
  exfalso. apply c_nonzero. revert Heq.
  apply (Qabs_case c (fun y => 0 == y -> c == 0)%Q).
  - intros _ H. by symmetry.
  - intros _ H. rewrite <- (Qopp_involutive c), <- H. reflexivity.
Qed.

(** The convergence test does not see the scale. *)
Lemma Qltb_scaled x x' y y' e :
  (x' == Qabs c * x)%Q -> (y' == Qabs c * y)%Q ->
  Qltb x' (y' * e) = Qltb x (y * e).
Proof using c_nonzero.
  intros Hx Hy. unfold Qltb. f_equal.
  apply eq_true_iff_eq. rewrite !Qle_bool_iff, Hx, Hy.
  rewrite <- Qmult_assoc. apply Qmult_le_l. apply Qabs_pos_nonzero.
Qed.

Variables (rhoSpe inError inError' eLevel : Q) (maxIter : Z).
Hypothesis inError_scaled : (inError' == Qabs c * inError)%Q.

(** The loops on the two sources run in lockstep. *)
Lemma scaledBy_sorLoop : forall fuel st st',
  scaledBy c (func st) (func st') -> scaledBy c (resid st) (resid st') ->
  omega st' = omega st -> nIter st' = nIter st ->
  (is_Some (outError st') <-> is_Some (outError st)) ->
  match sorLoop fuel source rhoSpe inError eLevel maxIter st,
        sorLoop fuel source' rhoSpe inError' eLevel maxIter st' with
  | Return final, Return final' =>
      scaledBy c (func final) (func final') /\ nIter final' = nIter final /\
      (is_Some (outError final') <-> is_Some (outError final))
  | OutOfFuel, OutOfFuel => True
  | _, _ => False
  end.
Proof using source_scaled inError_scaled c_nonzero.
  induction fuel as [|fuel IH]; intros st st' Hf Hr Ho Hn He; cbn [sorLoop]; rewrite Hn;
    destruct (Z.of_nat (nIter st) <? maxIter * 2)%Z; try done.
  unfold sorStep. rewrite Ho, Hn.
  pose proof (scaledBy_halfStep (omega st) (nIter st) _ _ _ _ Hf Hr) as [Hf1 Hr1].
  destruct (halfStep source (omega st) (nIter st) (func st) (resid st)) as [f1 r1].
  destruct (halfStep source' (omega st) (nIter st) (func st') (resid st')) as [f1' r1'].
  simpl in Hf1, Hr1.
  rewrite (Qltb_scaled (matAbsSum r1) (matAbsSum r1') inError inError' eLevel)
    by (done || by apply scaledBy_matAbsSum).
  destruct (Qltb (matAbsSum r1) (inError * eLevel)).
  - simpl. repeat split; eauto.
  - by apply IH.
Qed.

End Homogeneous.



(** ** [run] on usable input *)

Lemma npArray_Return (covs stack : list matrix) :
  npArray covs = Return stack -> stack = covs.
Proof.
  unfold npArray. destruct covs as [|x0 rest]; [by intros [= <-]|].
  destruct (forallb (hasShape (shape0 x0) (shape1 x0)) (x0 :: rest)); [by intros [= <-]|done].
Qed.

Lemma npBoolIndex_Forall {A} (P : A -> Prop) (values selected : list A) mask :
  npBoolIndex values mask = Return selected -> Forall P values -> Forall P selected.
Proof.
  unfold npBoolIndex.
  destruct ((length mask =? 0) || (length values =? length mask)); [|done].
  intros [= <-] Hall. apply Forall_forall. intros x Hx.
  apply list_elem_of_fmap in Hx as ([v b] & -> & Hin).
  apply list_elem_of_filter in Hin as [_ Hin].
  apply elem_of_zip_l in Hin. rewrite Forall_forall in Hall. by apply Hall.
Qed.

Lemma Forall_zip3_fst {A B C} (P : A -> Prop) (a : list A) (b : list B) (c : list C) :
  Forall P a -> Forall (fun s => P s.1.1) (zip3 a b c).
Proof.
  intros Hall. apply Forall_forall. intros [[x y] z] Hin. simpl.
  unfold zip3 in Hin. apply elem_of_zip_l in Hin. apply elem_of_zip_l in Hin.
  rewrite Forall_forall in Hall. by apply Hall.
Qed.

Section RunReturns.

Variable meanClip : Q -> list Q -> Q.
Variable cosPiOver : nat -> Q.

Variable config : BrighterFatterKernelSolveConfig.
Variable n : nat.
Hypothesis level_ok : (1 <= xcorrCheckRejectLevel config)%Q.
Hypothesis budget_ok : (0 < maxIterSuccessiveOverRelaxation config)%Z.
Hypothesis no_aMatrix : useAmatrix config = false.
Hypothesis side_ok : 2 <= n.

Lemma accepted_tiles_wf gain (samples : list (matrix * Q * Q)) (tiles : list matrix) :
  Forall (fun s => wf n n s.1.1) samples ->
  Forall2 (fun s tiled => tileArray (normalised gain s.1.1 s.1.2) = Return tiled)
    samples tiles ->
  Forall (wf (2 * n - 1) (2 * n - 1)) tiles.
Proof using side_ok.
  intros Hwf H. induction H as [|s t samples tiles Hst _ IH]; [constructor|].
  apply Forall_cons in Hwf as [Hs Hwf]. constructor; [|by apply IH].
  destruct (tileArray_spec (normalised gain s.1.1 s.1.2) n) as (t' & Ht' & Hshape & _);
    [by apply wf_normalised | lia |].
  rewrite Ht' in Hst. by injection Hst as <-.
Qed.

Lemma solve_returns (stack : list matrix) :
  stack <> [] -> Forall (wf (2 * n - 1) (2 * n - 1)) stack ->
  exists preKernel post msg,
    averageCorrelations meanClip config stack = Return preKernel /\
    successiveOverRelax cosPiOver config preKernel None None = Return (post, msg) /\
    wf (2 * n + 1) (2 * n + 1) post.
Proof using budget_ok side_ok.
  intros Hne Hall.
  destruct (averageCorrelations_returns meanClip config stack (2 * n - 1) Hne Hall)
    as (padded & Hpad & Hpre).
  eexists. rewrite Hpre.
  replace (2 * n - 1 + 2) with (2 * n + 1) in * by lia.
  destruct (successiveOverRelax_returns cosPiOver config
              (mset padded ((2 * n + 1 - 1) / 2) ((2 * n + 1 - 1) / 2)
                 (mget padded ((2 * n + 1 - 1) / 2) ((2 * n + 1 - 1) / 2) - matSum padded)%Q)
              (2 * n + 1) None None)
    as (st & msg & _ & _ & Hsor & Hshape & _);
    [by apply wf_mset | lia | exact budget_ok |].
  eauto.
Qed.

Lemma ampStep_returns inputPtc st ampName :
  usableAmp n inputPtc ampName ->
  Forall (wf (2 * n - 1) (2 * n - 1)) (detectorCorrList st) ->
  exists st' post,
    ampStep meanClip cosPiOver config inputPtc st ampName = Return st' /\
    postKernel st' = Some post /\ wf (2 * n + 1) (2 * n + 1) post /\
    Forall (wf (2 * n - 1) (2 * n - 1)) (detectorCorrList st') /\
    (level config = DETECTOR -> detectorCorrList st' <> []).
Proof using level_ok budget_ok no_aMatrix side_ok.
  intros (g & samples & covs0 & Hcovs0 & Hcwf & Hsamples & _ & Hex) Hdet.
  unfold ampSamples in Hsamples.
  apply bind_Return in Hsamples as (mask & Hmask & Hsamples).
  apply bind_Return in Hsamples as (g' & Hgain & Hsamples).
  apply bind_Return in Hsamples as (means & Hmeans & Hsamples).
  apply bind_Return in Hsamples as (fluxes & Hfluxes & Hsamples).
  apply bind_Return in Hsamples as (vars & Hvars & Hsamples).
  apply bind_Return in Hsamples as (variances & Hvariances & Hsamples).
  apply bind_Return in Hsamples as (covs & Hcovs & Hsamples).
  apply bind_Return in Hsamples as (stack & Hstack & Hsamples).
  apply bind_Return in Hsamples as (xCorrList & HxCorr & Hsamples).
  injection Hsamples as -> <-.
  assert (covs = covs0) as ->.
  { unfold dictGet in Hcovs. rewrite Hcovs0 in Hcovs. by injection Hcovs. }
  pose proof (npArray_Return _ _ Hstack) as ->.
  assert (Forall (fun s : matrix * Q * Q => wf n n s.1.1)
            (zip3 xCorrList (map (fun flux => flux * g)%Q fluxes)
               (map (fun variance => variance * g * g)%Q variances))) as Hwf.
  { apply Forall_zip3_fst. by eapply npBoolIndex_Forall. }
  unfold ampStep.
  rewrite Hmask; cbn [mbind outcome_bind]. rewrite Hgain; cbn [mbind outcome_bind].
  rewrite Hmeans; cbn [mbind outcome_bind]. rewrite Hfluxes; cbn [mbind outcome_bind].
  rewrite Hvars; cbn [mbind outcome_bind]. rewrite Hvariances; cbn [mbind outcome_bind].
  rewrite Hcovs; cbn [mbind outcome_bind]. rewrite Hstack; cbn [mbind outcome_bind].
  rewrite HxCorr; cbn [mbind outcome_bind].
  set (samples := zip3 xCorrList _ _) in *.
  destruct (sample_loop_spec config ampName g samples n
              {| scaledCorrList := []; lastScaled := scaled st; sampleLog := logged st |}
              level_ok side_ok Hwf) as (ss & tiles & -> & Hlist & Htiles).
  cbn [mbind outcome_bind]. simpl in Hlist.
  assert (tiles <> []) as Hne.
  { intros ->. apply Forall2_nil_inv_r in Htiles.
    apply Exists_exists in Hex as (s & Hin & Hs).
    assert (s ∈ filter (fun s => passesSelfTerm g s) samples) as Hf.
    { apply list_elem_of_filter. split; [by rewrite Hs|done]. }
    rewrite Htiles in Hf. by apply elem_of_nil in Hf. }
  assert (Forall (wf (2 * n - 1) (2 * n - 1)) tiles) as Htwf.
  { eapply accepted_tiles_wf; [|exact Htiles].
    apply Forall_forall. intros s Hs%list_elem_of_filter.
    rewrite Forall_forall in Hwf. apply Hwf. tauto. }
  rewrite Hlist.
  destruct tiles as [|t tiles]; [done|]. cbn [length Nat.eqb].
  rewrite no_aMatrix.
  destruct (solve_returns (t :: tiles) Hne Htwf) as (pre & post & msg & -> & Hsor & Hshape).
  cbn [mbind outcome_bind]. rewrite Hsor. cbn [mbind outcome_bind].
  eexists _, post. split; [reflexivity|]. cbn [postKernel detectorCorrList].
  split; [done|]. split; [done|]. split.
  - destruct (Level_eqb (level config) DETECTOR); [|done]. by apply Forall_app.
  - intros ->. simpl. by destruct (detectorCorrList st).
Qed.

Lemma ampLoop_returns inputPtc (amps : list string) : forall st,
  Forall (usableAmp n inputPtc) amps ->
  Forall (wf (2 * n - 1) (2 * n - 1)) (detectorCorrList st) ->
  exists st',
    forM (ampStep meanClip cosPiOver config inputPtc) st amps = Return st' /\
    Forall (wf (2 * n - 1) (2 * n - 1)) (detectorCorrList st') /\
    (amps <> [] ->
     (exists post, postKernel st' = Some post /\ wf (2 * n + 1) (2 * n + 1) post) /\
     (level config = DETECTOR -> detectorCorrList st' <> [])).
Proof using level_ok budget_ok no_aMatrix side_ok.
  induction amps as [|a amps IH]; intros st Hamps Hdet.
  - exists st. by repeat split.
  - apply Forall_cons in Hamps as [Ha Hamps].
    destruct (ampStep_returns inputPtc st a Ha Hdet)
      as (st1 & post & Hstep & Hpost & Hshape & Hdet1 & Hne1).
    destruct (IH st1 Hamps Hdet1) as (st' & Hrun & Hdet' & Hlast).
    exists st'. cbn [forM]. rewrite Hstep. cbn [mbind outcome_bind].
    split; [exact Hrun|]. split; [exact Hdet'|]. intros _.
    destruct amps as [|a' amps'].
    + injection Hrun as <-. split; [eauto|done].
    + by apply Hlast.
Qed.

(** On a detector with at least one amplifier, all of them usable
    (covariances all of one size [n >= 2], the masked ones included, samples
    of non-zero flux, one of which at least passes the self-term check), with
    a rejection level of 1 or more, a positive iteration budget and
    [useAmatrix] off, [run] returns: it raises nothing, and the kernels it
    reports have [2n + 1] rows and columns. *)
Theorem run_returns_on_usable_input inputPtc detector :
  ampNames detector <> [] ->
  Forall (usableAmp n inputPtc) (ampNames detector) ->
  exists bfk log,
    run meanClip cosPiOver config inputPtc detector = Return (bfk, log) /\
    bfkShape bfk = (2 * n + 1, 2 * n + 1).
Proof using level_ok budget_ok no_aMatrix side_ok.
  intros Hne Hamps. unfold run.
  destruct (ampLoop_returns inputPtc (ampNames detector) runInit Hamps)
    as (st & -> & Hdet & Hlast); [constructor|].
  destruct (Hlast Hne) as ((post & Hpost & Hshape) & Hpool).
  cbn [mbind outcome_bind].
  destruct (level config) eqn:Hlevel; cbn [Level_eqb mbind outcome_bind].
  - rewrite Hpost. eexists _, _. split; [reflexivity|]. simpl.
    destruct Hshape as [Hl Hr]. unfold shape0. rewrite Hl. f_equal.
    apply (shape1_wf_square _ _ (conj Hl Hr)).
  - destruct (solve_returns (detectorCorrList st) (Hpool eq_refl) Hdet)
      as (pre & dpost & msg & Hpre & Hsor & Hdshape).
    rewrite Hpre. cbn [mbind outcome_bind]. rewrite Hsor.
    cbn [mbind outcome_bind]. eexists _, _. split; [reflexivity|]. simpl.
    destruct Hdshape as [Hl Hr]. unfold shape0. rewrite Hl. f_equal.
    apply (shape1_wf_square _ _ (conj Hl Hr)).
Qed.

End RunReturns.

Lemma run_returns_on_usable_input_witness :
  let config := configWith DETECTOR [] 1 in
  let inputPtc := onePtc "C00" [[1; 1]; [1; 1]]%Q 1 2 in
  let detector := {| detName := "R22_S11"; ampNames := ["C00"] |} in
  exists bfk log,
    run plainMean cosPiOverQ config inputPtc detector = Return (bfk, log) /\
    bfkShape bfk = (2 * 2 + 1, 2 * 2 + 1).
Proof.
  intros config inputPtc detector.
  apply (run_returns_on_usable_input plainMean cosPiOverQ config 2).
  - discriminate.
  - reflexivity.
  - reflexivity.
  - lia.
  - discriminate.
  - constructor; [|constructor].
    exists 1%Q, [([[1; 1]; [1; 1]]%Q, 1 * 1, 2 * 1 * 1)%Q], [[[1; 1]; [1; 1]]%Q].
    split; [reflexivity|]. split; [repeat constructor|].
    split; [vm_compute; reflexivity|]. split.
    + constructor; [|constructor]. intros Hflux. vm_compute in Hflux. discriminate Hflux.
    + constructor. vm_compute. reflexivity.
Defined.
